(** * Jenkins declarative pipeline to GitHub Actions converter

    A shallow embedding of the converter's parsing and mapping engine
    ([utils.py], [jenkins_extractors.py], [action_generator.py],
    [converter.py]) together with the properties its specification
    states about it.

    Text is a list of 8-bit characters read as code points.  Python
    dictionaries keep insertion order, which the generated documents
    expose, so they are association lists updated in place. *)

From Stdlib Require Import String Ascii ZArith Lia Bool Arith PeanoNat List.
From Stdlib Require Import Sorting.Sorted.
Import ListNotations.

Set Implicit Arguments.

(** ** Text *)

Definition str := list ascii.

Definition txt (s : string) : str := list_ascii_of_string s.

Definition ch_eqb (a b : ascii) : bool := Ascii.eqb a b.

Fixpoint str_eqb (a b : str) : bool :=
  match a, b with
  | [], [] => true
  | x :: a', y :: b' => ch_eqb x y && str_eqb a' b'
  | _, _ => false
  end.

Definition code (c : ascii) : nat := nat_of_ascii c.

Definition in_range (lo hi : nat) (c : ascii) : bool :=
  (lo <=? code c) && (code c <=? hi).

(** [str.isspace] and the class [\s] on code points below 256. *)
Definition isspace (c : ascii) : bool :=
  in_range 9 13 c || in_range 28 32 c || (code c =? 133) || (code c =? 160).

Definition is_upper_az (c : ascii) : bool := in_range 65 90 c.
Definition is_lower_az (c : ascii) : bool := in_range 97 122 c.
Definition is_digit (c : ascii) : bool := in_range 48 57 c.

(** The class [[a-zA-Z0-9]]. *)
Definition is_alnum_ascii (c : ascii) : bool :=
  is_lower_az c || is_upper_az c || is_digit c.

(** The class [\w]: alphanumeric code points and the underscore. *)
Definition is_word (c : ascii) : bool :=
  is_alnum_ascii c || (code c =? 95)
  || (code c =? 170) || (code c =? 178) || (code c =? 179) || (code c =? 181)
  || (code c =? 185) || (code c =? 186) || in_range 188 190 c
  || in_range 192 214 c || in_range 216 246 c || in_range 248 255 c.

(** [str.lower] and [str.upper]; the three code points below 256 whose
    upper case lies outside that range are left as they are. *)
Definition lower_ch (c : ascii) : ascii :=
  if is_upper_az c || in_range 192 214 c || in_range 216 222 c
  then ascii_of_nat (code c + 32) else c.

Definition upper_ch (c : ascii) : ascii :=
  if is_lower_az c || in_range 224 246 c || in_range 248 254 c
  then ascii_of_nat (code c - 32) else c.

Definition lower (s : str) : str := map lower_ch s.
Definition upper (s : str) : str := map upper_ch s.

Fixpoint lstrip (s : str) : str :=
  match s with
  | c :: s' => if isspace c then lstrip s' else s
  | [] => []
  end.

Definition rstrip (s : str) : str := rev (lstrip (rev s)).

(** [str.strip()] *)
Definition strip (s : str) : str := rstrip (lstrip s).

Fixpoint strip_prefix (p s : str) : option str :=
  match p, s with
  | [], _ => Some s
  | x :: p', y :: s' => if ch_eqb x y then strip_prefix p' s' else None
  | _ :: _, [] => None
  end.

(** [s.startswith(p)] *)
Definition startswith (p s : str) : bool :=
  match strip_prefix p s with Some _ => true | None => false end.

(** [s.endswith(p)] *)
Definition endswith (p s : str) : bool := startswith (rev p) (rev s).

(** [p in s] *)
Fixpoint contains (p s : str) : bool :=
  startswith p s ||
  match s with
  | _ :: s' => contains p s'
  | [] => false
  end.

Definition count_ch (c : ascii) (s : str) : nat :=
  length (filter (fun x => ch_eqb x c) s).

(** Python's [text[s:e]], negative and out-of-range bounds included. *)
Definition norm_index (len i : Z) : Z :=
  if (i <? 0)%Z then Z.max 0 (len + i) else Z.min i len.

Definition slice (text : str) (s e : Z) : str :=
  let len := Z.of_nat (length text) in
  let s' := norm_index len s in
  let e' := norm_index len e in
  firstn (Z.to_nat (e' - s')) (skipn (Z.to_nat s') text).

Definition slice_from (text : str) (i : nat) : str := skipn i text.

(** ** Regular expressions

    The patterns of the program repeat single-character classes only, so
    repetition is indexed by a class and matching is structural.  The
    matcher backtracks in the order of Python's [re]: alternatives left
    to right, greedy repetition longest first, lazy repetition shortest
    first. *)

Inductive regex : Type :=
| Lit (s : str)
| Cls (p : ascii -> bool)
| Rep (greedy : bool) (lo : nat) (hi : option nat) (p : ascii -> bool)
| WordB
| Cat (r1 r2 : regex)
| Alt (r1 r2 : regex)
| Opt (r : regex)
| Grp (n : nat) (r : regex)
| Ref (n : nat).

Declare Scope re_scope.
Delimit Scope re_scope with re.
Bind Scope re_scope with regex.
Infix "++" := Cat (right associativity, at level 60) : re_scope.

(** Captured groups: group number to the span it matched last. *)
Definition caps := list (nat * (nat * nat)).

Fixpoint get_cap (n : nat) (g : caps) : option (nat * nat) :=
  match g with
  | [] => None
  | (m, sp) :: g' => if n =? m then Some sp else get_cap n g'
  end.

Definition set_cap (n : nat) (sp : nat * nat) (g : caps) : caps := (n, sp) :: g.

Definition substr (text : str) (sp : nat * nat) : str :=
  firstn (snd sp - fst sp) (skipn (fst sp) text).

Definition last_ch (pv : option ascii) (l : str) : option ascii :=
  match rev l with
  | c :: _ => Some c
  | [] => pv
  end.

Definition word_opt (c : option ascii) : bool :=
  match c with Some x => is_word x | None => false end.

Section Matcher.

Variable R : Type.

(** A cursor is a position [i], the character before it and the text
    from it on. *)
Definition kont := nat -> option ascii -> str -> option R.

Fixpoint rep_match (greedy : bool) (p : ascii -> bool) (lo : nat) (hi : option nat)
    (i : nat) (pv : option ascii) (s : str) (k : kont) {struct s} : option R :=
  let stop := match lo with 0 => k i pv s | S _ => None end in
  let more :=
    match hi with
    | Some 0 => None
    | _ =>
      match s with
      | c :: s' =>
        if p c
        then rep_match greedy p (pred lo) (option_map pred hi) (S i) (Some c) s' k
        else None
      | [] => None
      end
    end in
  if greedy
  then match more with Some r => Some r | None => stop end
  else match stop with Some r => Some r | None => more end.

Definition gkont := nat -> option ascii -> str -> caps -> option R.

Fixpoint rmatch (text : str) (r : regex) (i : nat) (pv : option ascii) (s : str)
    (g : caps) (k : gkont) {struct r} : option R :=
  match r with
  | Lit l =>
    match strip_prefix l s with
    | Some s' => k (i + length l) (last_ch pv l) s' g
    | None => None
    end
  | Cls p =>
    match s with
    | c :: s' => if p c then k (S i) (Some c) s' g else None
    | [] => None
    end
  | Rep greedy lo hi p =>
    rep_match greedy p lo hi i pv s (fun i' pv' s' => k i' pv' s' g)
  | WordB =>
    if xorb (word_opt pv) (word_opt (hd_error s)) then k i pv s g else None
  | Cat r1 r2 =>
    rmatch text r1 i pv s g (fun i' pv' s' g' => rmatch text r2 i' pv' s' g' k)
  | Alt r1 r2 =>
    match rmatch text r1 i pv s g k with
    | Some x => Some x
    | None => rmatch text r2 i pv s g k
    end
  | Opt r1 =>
    match rmatch text r1 i pv s g k with
    | Some x => Some x
    | None => k i pv s g
    end
  | Grp n r1 =>
    rmatch text r1 i pv s g (fun i' pv' s' g' => k i' pv' s' (set_cap n (i, i') g'))
  | Ref n =>
    match get_cap n g with
    | Some sp =>
      let l := substr text sp in
      match strip_prefix l s with
      | Some s' => k (i + length l) (last_ch pv l) s' g
      | None => None
      end
    | None => None
    end
  end.

End Matcher.

(** A match object: [m.start()], [m.end()] and the groups. *)
Record rmatch_obj := { m_start : nat; m_end : nat; m_caps : caps }.

Definition match_here (text : str) (r : regex) (i : nat) (pv : option ascii) (s : str)
  : option rmatch_obj :=
  rmatch text r i pv s [] (fun e _ _ g => Some {| m_start := i; m_end := e; m_caps := g |}).

(** [m.group(n)]: [None] when the group took no part in the match. *)
Definition group (text : str) (m : rmatch_obj) (n : nat) : option str :=
  option_map (substr text) (get_cap n (m_caps m)).

(** [m.group(n)], or the empty string when the group took no part. *)
Definition group_or_empty (text : str) (m : rmatch_obj) (n : nat) : str :=
  match group text m n with Some s => s | None => [] end.

Fixpoint search_from (text : str) (r : regex) (i : nat) (pv : option ascii) (s : str)
  : option rmatch_obj :=
  match match_here text r i pv s with
  | Some m => Some m
  | None =>
    match s with
    | c :: s' => search_from text r (S i) (Some c) s'
    | [] => None
    end
  end.

(** [re.search(r, text)] *)
Definition re_search (r : regex) (text : str) : option rmatch_obj :=
  search_from text r 0 None text.

(** [re.match(r, text)] *)
Definition re_match (r : regex) (text : str) : option rmatch_obj :=
  match_here text r 0 None text.

(** [re.finditer(r, text)]: the leftmost match, then the leftmost match
    from where it ended, and so on.  [skip] counts the characters of the
    current match still to pass.  After an empty match the scan moves one
    character on. *)
Fixpoint finditer_from (text : str) (r : regex) (skip i : nat) (pv : option ascii) (s : str)
  : list rmatch_obj :=
  match skip with
  | S n =>
    match s with
    | c :: s' => finditer_from text r n (S i) (Some c) s'
    | [] => []
    end
  | 0 =>
    match match_here text r i pv s with
    | Some m =>
      m :: match s with
           | c :: s' => finditer_from text r (pred (m_end m - i)) (S i) (Some c) s'
           | [] => []
           end
    | None =>
      match s with
      | c :: s' => finditer_from text r 0 (S i) (Some c) s'
      | [] => []
      end
    end
  end.

Definition re_finditer (r : regex) (text : str) : list rmatch_obj :=
  finditer_from text r 0 0 None text.

(** [re.sub(r, repl, text)] for a replacement without group references. *)
Fixpoint sub_from (text : str) (r : regex) (repl : str) (skip i : nat) (pv : option ascii)
    (s : str) : str :=
  match skip with
  | S n =>
    match s with
    | c :: s' => sub_from text r repl n (S i) (Some c) s'
    | [] => []
    end
  | 0 =>
    match match_here text r i pv s with
    | Some m =>
      repl ++
      match s with
      | c :: s' =>
        match m_end m - i with
        | 0 => c :: sub_from text r repl 0 (S i) (Some c) s'
        | S n => sub_from text r repl n (S i) (Some c) s'
        end
      | [] => []
      end
    | None =>
      match s with
      | c :: s' => c :: sub_from text r repl 0 (S i) (Some c) s'
      | [] => []
      end
    end
  end.

Definition re_sub (r : regex) (repl : str) (text : str) : str :=
  sub_from text r repl 0 0 None text.

(** ** utils.py *)

Definition any_ch (_ : ascii) : bool := true.
Definition not_newline (c : ascii) : bool := negb (code c =? 10).
Definition cls_space : ascii -> bool := isspace.
Definition star (p : ascii -> bool) : regex := Rep true 0 None p.
Definition plus (p : ascii -> bool) : regex := Rep true 1 None p.
Definition ws : regex := star isspace.
Definition ws1 : regex := plus isspace.

(** [/\*.*?\*/] with DOTALL *)
Definition re_block_comment : regex :=
  (Lit (txt "/*") ++ Rep false 0 None any_ch ++ Lit (txt "*/"))%re.

(** [//.*] *)
Definition re_line_comment : regex :=
  (Lit (txt "//") ++ star not_newline)%re.

Definition strip_comments (text : str) : str :=
  let text := re_sub re_block_comment [] text in
  let text := re_sub re_line_comment [] text in
  text.

Fixpoint skip_space (s : str) (i : nat) : nat :=
  match s with
  | c :: s' => if isspace c then skip_space s' (S i) else i
  | [] => i
  end.

Definition is_open (c : ascii) : bool := ch_eqb c "{"%char.
Definition is_close (c : ascii) : bool := ch_eqb c "}"%char.

(** The depth-tracked scan shared by [find_block] and [split_stages]:
    [s] is the text from index [i] on. *)
Fixpoint scan_block (s : str) (i depth : nat) : option nat :=
  match s with
  | [] => None
  | c :: s' =>
    if is_open c then scan_block s' (S i) (S depth)
    else if is_close c then
      match depth with
      | 0 => Some i
      | S d => scan_block s' (S i) d
      end
    else scan_block s' (S i) depth
  end.

Definition not_found : Z * Z := ((-1)%Z, (-1)%Z).

Definition find_block (text : str) (start_pat : regex) : Z * Z :=
  match re_search start_pat text with
  | None => not_found
  | Some m =>
    let i := skip_space (skipn (m_end m) text) (m_end m) in
    match nth_error text i with
    | Some c =>
      if is_open c then
        let start := S i in
        match scan_block (skipn start text) start 0 with
        | Some j => (Z.of_nat start, Z.of_nat j)
        | None => not_found
        end
      else not_found
    | None => not_found
    end
  end.

(** [s.strip(chars)] *)
Fixpoint lstrip_chars (p : ascii -> bool) (s : str) : str :=
  match s with
  | c :: s' => if p c then lstrip_chars p s' else s
  | [] => []
  end.

Definition strip_chars (p : ascii -> bool) (s : str) : str :=
  rev (lstrip_chars p (rev (lstrip_chars p s))).

(** [s.split(c)] for a one-character separator. *)
Fixpoint split_on (sep : ascii) (s : str) (cur : str) : list str :=
  match s with
  | [] => [rev cur]
  | c :: s' =>
    if ch_eqb c sep then rev cur :: split_on sep s' [] else split_on sep s' (c :: cur)
  end.

Definition split_ch (sep : ascii) (s : str) : list str := split_on sep s [].

(** [sep.join(l)] *)
Fixpoint join (sep : str) (l : list str) : str :=
  match l with
  | [] => []
  | [x] => x
  | x :: l' => x ++ sep ++ join sep l'
  end.

(** [s.replace(old, new)] for a non-empty [old]. *)
Definition replace (old new s : str) : str := re_sub (Lit old) new s.

Definition is_linebreak (c : ascii) : bool :=
  in_range 10 13 c || in_range 28 30 c || (code c =? 133).

(** [s.splitlines()]: a carriage return followed by a line feed is one
    boundary, and a final boundary opens no further line. *)
Fixpoint splitlines_aux (s : str) (cur : str) : list str :=
  match s with
  | [] => match cur with [] => [] | _ => [rev cur] end
  | c :: s' =>
    if is_linebreak c then
      rev cur ::
      match s' with
      | d :: s'' =>
        if (code c =? 13) && (code d =? 10)
        then splitlines_aux s'' []
        else splitlines_aux s' []
      | [] => []
      end
    else splitlines_aux s' (c :: cur)
  end.

Definition splitlines (s : str) : list str := splitlines_aux s [].

Definition nonempty_list (A : Type) (l : list A) : bool :=
  match l with [] => false | _ => true end.

Definition nonempty (s : str) : bool := nonempty_list s.

Definition multiline_to_commands (s : str) : list str :=
  let lines := map strip (splitlines s) in
  filter nonempty lines.

(** [[^a-zA-Z0-9_-]] *)
Definition not_name_ch (c : ascii) : bool :=
  negb (is_alnum_ascii c || (code c =? 95) || (code c =? 45)).

Definition sanitize_name (name : str) : str :=
  re_sub (Cls not_name_ch) (txt "_") (strip name).

Definition is_hyphen (c : ascii) : bool := code c =? 45.

Definition gha_job_id (name : str) : str :=
  let slug :=
    lower (strip_chars is_hyphen
             (re_sub (plus (fun c => negb (is_alnum_ascii c))) (txt "-") (strip name))) in
  match slug with
  | [] => txt "job"
  | _ => slug
  end.

(** ** Dictionaries

    A Python [dict]: assignment to a present key replaces the value
    where the key stands, assignment to a new key appends. *)

Section Dict.

Variable V : Type.

Definition dict := list (str * V).

Fixpoint dict_get (k : str) (d : dict) : option V :=
  match d with
  | [] => None
  | (k', v) :: d' => if str_eqb k k' then Some v else dict_get k d'
  end.

Definition dict_mem (k : str) (d : dict) : bool :=
  match dict_get k d with Some _ => true | None => false end.

Fixpoint dict_set (k : str) (v : V) (d : dict) : dict :=
  match d with
  | [] => [(k, v)]
  | (k', v') :: d' =>
    if str_eqb k k' then (k', v) :: d' else (k', v') :: dict_set k v d'
  end.

Definition dict_keys (d : dict) : list str := map fst d.

Definition dict_of_list (l : list (str * V)) : dict :=
  fold_left (fun d kv => dict_set (fst kv) (snd kv) d) l [].

End Dict.

(** A Python [set] of strings.  Python leaves the order in which a set
    is iterated open; the model fixes it to the order of first insertion. *)
Fixpoint mem_str (x : str) (l : list str) : bool :=
  match l with
  | [] => false
  | y :: l' => str_eqb x y || mem_str x l'
  end.

Definition set_add (x : str) (l : list str) : list str :=
  if mem_str x l then l else l ++ [x].

(** ** jenkins_extractors.py *)

Definition is_quote (c : ascii) : bool := (code c =? 39) || (code c =? 34).
Definition not_quote (c : ascii) : bool := negb (is_quote c).
Definition not_space (c : ascii) : bool := negb (isspace c).

Definition L (s : string) : regex := Lit (txt s).

(** [\bname\b] *)
Definition kw (name : string) : regex := (WordB ++ L name ++ WordB)%re.

(** A quoted non-empty value, group [n]: one quote character of either
    kind, one or more characters that are no quote, one quote character. *)
Definition quoted1 (n : nat) : regex :=
  (Cls is_quote ++ Grp n (plus not_quote) ++ Cls is_quote)%re.

(** A quoted value that may be empty, group [n]. *)
Definition quoted0 (n : nat) : regex :=
  (Cls is_quote ++ Grp n (star not_quote) ++ Cls is_quote)%re.

(** [name], white space, a quoted non-empty value (group 1). *)
Definition re_word_quoted (name : string) : regex :=
  (L name ++ ws1 ++ quoted1 1)%re.

(** [name], a colon, with optional white space around the colon. *)
Definition key_colon (name : string) : regex :=
  (L name ++ ws ++ L ":" ++ ws)%re.

Record tools := {
  tool_maven : option str;
  tool_jdk : option str;
  tool_nodejs : option str;
  tool_git : option str
}.

Definition no_tools : tools :=
  {| tool_maven := None; tool_jdk := None; tool_nodejs := None; tool_git := None |}.

Definition search_group1 (r : regex) (text : str) : option str :=
  match re_search r text with
  | Some m => group text m 1
  | None => None
  end.

Definition found (span : Z * Z) : bool := negb (fst span =? -1)%Z.

Definition extract_tools (stage_body : str) : tools :=
  let '(s, e) := find_block stage_body (kw "tools") in
  if (s =? -1)%Z then no_tools
  else
    let tools_body := slice stage_body s e in
    {| tool_maven := search_group1 (re_word_quoted "maven") tools_body;
       tool_jdk := search_group1 (re_word_quoted "jdk") tools_body;
       tool_nodejs := search_group1 (re_word_quoted "nodejs") tools_body;
       tool_git := search_group1 (re_word_quoted "git") tools_body |}.

Record git_step := {
  git_branch : str;
  git_url : str;
  git_credentialsId : str
}.

Definition opt_comma : regex := Opt (ws ++ L ",")%re.

Definition re_git_step : regex :=
  (L "git" ++ ws1
   ++ Opt (key_colon "branch" ++ quoted0 1 ++ opt_comma)
   ++ ws
   ++ Opt (key_colon "url" ++ quoted1 2 ++ opt_comma)
   ++ ws
   ++ Opt (key_colon "credentialsId" ++ quoted0 3))%re.

Definition extract_git_steps (stage_body : str) : list git_step :=
  flat_map
    (fun m =>
       let branch := group_or_empty stage_body m 1 in
       let url := group_or_empty stage_body m 2 in
       let credentials_id := group_or_empty stage_body m 3 in
       if nonempty url
       then [{| git_branch := branch; git_url := url; git_credentialsId := credentials_id |}]
       else [])
    (re_finditer re_git_step stage_body).

Record sonar_step := {
  sonar_credentialsId : str;
  sonar_installationName : str;
  sonar_commands : list str
}.

Definition not_rbrace (c : ascii) : bool := negb (code c =? 125).
Definition not_rbracket (c : ascii) : bool := negb (code c =? 93).

Definition re_sonar : regex :=
  (L "withSonarQubeEnv" ++ ws ++ L "(" ++ ws
   ++ Opt (key_colon "credentialsId" ++ quoted0 1)
   ++ opt_comma ++ ws
   ++ Opt (key_colon "installationName" ++ quoted0 2)
   ++ ws ++ L ")" ++ ws ++ L "{" ++ Grp 3 (star not_rbrace) ++ L "}")%re.

Definition re_sh_line : regex := re_word_quoted "sh".

Definition groups1 (r : regex) (text : str) : list str :=
  map (fun m => group_or_empty text m 1) (re_finditer r text).

Definition extract_sonarqube_steps (stage_body : str) : list sonar_step :=
  flat_map
    (fun m =>
       let credentials_id := group_or_empty stage_body m 1 in
       let installation_name := group_or_empty stage_body m 2 in
       let inner_commands := group_or_empty stage_body m 3 in
       let commands := groups1 re_sh_line inner_commands in
       match commands with
       | [] => []
       | _ => [{| sonar_credentialsId := credentials_id;
                  sonar_installationName := installation_name;
                  sonar_commands := commands |}]
       end)
    (re_finditer re_sonar stage_body).

Record input_step := {
  input_message : str;
  input_parameters : str
}.

Definition re_input : regex :=
  (L "input" ++ ws ++ L "(" ++ ws ++ key_colon "message" ++ quoted1 1
   ++ Opt (ws ++ L "," ++ ws ++ key_colon "parameters" ++ L "["
           ++ Grp 2 (star not_rbracket) ++ L "]")
   ++ ws ++ L ")")%re.

Definition extract_input_steps (stage_body : str) : list input_step :=
  map
    (fun m => {| input_message := group_or_empty stage_body m 1;
                 input_parameters := group_or_empty stage_body m 2 |})
    (re_finditer re_input stage_body).

(** The keyword form: [credentialsId :] and a quoted non-empty value. *)
Definition re_credentials_id : regex := (key_colon "credentialsId" ++ quoted1 1)%re.

(** The call form: [credentials ( value )] with a quoted non-empty value. *)
Definition re_credentials_call : regex :=
  (L "credentials" ++ ws ++ L "(" ++ ws ++ quoted1 1 ++ ws ++ L ")")%re.

(** The list form: [sshagent ( [ entries ] )], the entries in group 1. *)
Definition re_sshagent : regex :=
  (L "sshagent" ++ ws ++ L "(" ++ ws ++ L "[" ++ Grp 1 (plus not_rbracket) ++ L "]"
   ++ ws ++ L ")")%re.

(** One entry of the list: an optional quote character, one or more
    characters that are no quote (group 1), an optional quote character. *)
Definition re_cred_entry : regex :=
  (Rep true 0 (Some 1) is_quote ++ Grp 1 (plus not_quote) ++ Rep true 0 (Some 1) is_quote)%re.

(** [l[-1] if l else None] *)
Definition last_error (A : Type) (l : list A) : option A :=
  match rev l with
  | x :: _ => Some x
  | [] => None
  end.

Definition add_all (xs : list str) (set : list str) : list str :=
  fold_left (fun acc x => set_add x acc) xs set.

Definition sshagent_entries (cred_list : str) : list str :=
  flat_map
    (fun cred => if nonempty (strip cred) then [strip cred] else [])
    (groups1 re_cred_entry cred_list).

Definition extract_credentials_usage (stage_body : str) : list str :=
  let credentials := [] in
  let credentials := add_all (groups1 re_credentials_id stage_body) credentials in
  let credentials := add_all (groups1 re_credentials_call stage_body) credentials in
  let credentials :=
    fold_left (fun acc cred_list => add_all (sshagent_entries cred_list) acc)
      (groups1 re_sshagent stage_body) credentials in
  credentials.

Inductive docker_kind := DockerBuild | DockerPush.

Record docker_step := {
  docker_type : docker_kind;
  docker_tag : str;
  docker_context : option str
}.

Definition re_docker_build : regex :=
  (L "docker" ++ ws1 ++ L "build" ++ ws1 ++ Opt (L "-t" ++ ws1)
   ++ Grp 1 (plus not_space) ++ Opt (ws1 ++ Grp 2 (plus not_newline)))%re.

Definition re_docker_push : regex :=
  (L "docker" ++ ws1 ++ L "push" ++ ws1 ++ Grp 1 (plus not_space))%re.

Definition extract_docker_steps (stage_body : str) : list docker_step :=
  map
    (fun m =>
       let tag := strip (group_or_empty stage_body m 1) in
       let context :=
         match group stage_body m 2 with
         | Some (c :: g) => strip (c :: g)
         | _ => txt "."
         end in
       {| docker_type := DockerBuild; docker_tag := tag; docker_context := Some context |})
    (re_finditer re_docker_build stage_body)
  ++
  map
    (fun m =>
       let tag := strip (group_or_empty stage_body m 1) in
       {| docker_type := DockerPush; docker_tag := tag; docker_context := None |})
    (re_finditer re_docker_push stage_body).

Definition kubectl_arg_ch (c : ascii) : bool :=
  negb ((code c =? 10) || is_quote c).

Definition re_kubectl : regex := (L "kubectl" ++ ws1 ++ Grp 1 (plus kubectl_arg_ch))%re.

Definition extract_kubectl_steps (stage_body : str) : list str :=
  map (fun m => txt "kubectl " ++ strip (group_or_empty stage_body m 1))
    (re_finditer re_kubectl stage_body).

(** *** Parameters *)

Inductive param_type := PString | PBoolean | PChoice.

Inductive pvalue := PStr (s : str) | PBool (b : bool).

Record param_info := {
  p_type : param_type;
  p_options : option (list str);
  p_default : pvalue;
  p_description : str
}.

Definition param_head (fn : string) : regex :=
  (L fn ++ ws ++ L "(" ++ ws ++ key_colon "name" ++ quoted1 1)%re.

Definition param_description : regex :=
  Opt (L "," ++ ws ++ key_colon "description" ++ quoted0 3)%re.

Definition re_string_param : regex :=
  (param_head "string"
   ++ Opt (L "," ++ ws ++ key_colon "defaultValue" ++ quoted0 2)
   ++ param_description)%re.

Definition re_boolean_param : regex :=
  (param_head "booleanParam"
   ++ Opt (L "," ++ ws ++ key_colon "defaultValue" ++ Grp 2 (Alt (L "true") (L "false")))
   ++ param_description)%re.

Definition re_choice_param : regex :=
  (param_head "choice"
   ++ Opt (L "," ++ ws ++ key_colon "choices" ++ L "[" ++ Grp 2 (plus not_rbracket) ++ L "]")
   ++ param_description)%re.

Definition string_param (body : str) (m : rmatch_obj) : str * param_info :=
  let name := group_or_empty body m 1 in
  let default := group_or_empty body m 2 in
  let description := group_or_empty body m 3 in
  (name, {| p_type := PString; p_options := None;
            p_default := PStr default; p_description := description |}).

Definition boolean_param (body : str) (m : rmatch_obj) : str * param_info :=
  let name := group_or_empty body m 1 in
  let default := match group body m 2 with
                 | Some (c :: g) => c :: g
                 | _ => txt "false"
                 end in
  let description := group_or_empty body m 3 in
  (name, {| p_type := PBoolean; p_options := None;
            p_default := PBool (str_eqb (lower default) (txt "true"));
            p_description := description |}).

Definition choice_param (body : str) (m : rmatch_obj) : str * param_info :=
  let name := group_or_empty body m 1 in
  let choices_str := group_or_empty body m 2 in
  let description := group_or_empty body m 3 in
  let choices :=
    map (fun c => strip_chars is_quote (strip c))
      (filter (fun c => nonempty (strip c)) (split_ch "," choices_str)) in
  (name, {| p_type := PChoice; p_options := Some choices;
            p_default := PStr (match choices with c :: _ => c | [] => [] end);
            p_description := description |}).

(** The assignments [params[name] = ...] of the three loops, in the
    order the loops make them. *)
Definition parameter_assignments (param_body : str) : list (str * param_info) :=
  map (string_param param_body) (re_finditer re_string_param param_body)
  ++ map (boolean_param param_body) (re_finditer re_boolean_param param_body)
  ++ map (choice_param param_body) (re_finditer re_choice_param param_body).

Definition extract_parameters (pipeline_body : str) : dict param_info :=
  let '(s, e) := find_block pipeline_body (kw "parameters") in
  if (s =? -1)%Z then []
  else
    let param_body := slice pipeline_body s e in
    fold_left (fun params a => dict_set (fst a) (snd a) params)
      (parameter_assignments param_body) [].

(** *** Agents *)

Inductive agent :=
| AgentNone
| AgentAny
| AgentLabel (label : str)
| AgentDocker (image : str) (args : option str) (reuseNode : option bool).

Definition re_reuse_node : regex :=
  (L "reuseNode" ++ ws1 ++ Grp 1 (Alt (L "true") (L "false")))%re.

Definition agent_of_body (agent_body : str) : agent :=
  match re_search (kw "any") agent_body with
  | Some _ => AgentAny
  | None =>
    let node_label :=
      let '(ns, ne) := find_block agent_body (kw "node") in
      if (ns =? -1)%Z then None
      else search_group1 (re_word_quoted "label") (slice agent_body ns ne) in
    match node_label with
    | Some l => AgentLabel (strip l)
    | None =>
      match search_group1 (re_word_quoted "label") agent_body with
      | Some l => AgentLabel (strip l)
      | None =>
        let '(ds, de) := find_block agent_body (kw "docker") in
        if (ds =? -1)%Z then AgentNone
        else
          let docker_body := slice agent_body ds de in
          let img := search_group1 (re_word_quoted "image") docker_body in
          let args := search_group1 (re_word_quoted "args") docker_body in
          let reuse_node := search_group1 re_reuse_node docker_body in
          match img with
          | Some i =>
            AgentDocker (strip i) (option_map strip args)
              (option_map (fun v => str_eqb v (txt "true")) reuse_node)
          | None => AgentNone
          end
      end
    end
  end.

Definition extract_global_agent (pipeline_body : str) : agent :=
  let '(s, e) := find_block pipeline_body (kw "agent") in
  if (s =? -1)%Z then AgentNone else agent_of_body (slice pipeline_body s e).

Definition extract_stage_agent (stage_body : str) : agent :=
  let '(s, e) := find_block stage_body (kw "agent") in
  if (s =? -1)%Z then AgentNone else agent_of_body (slice stage_body s e).

(** *** Environment *)

Definition is_ident_start (c : ascii) : bool :=
  is_lower_az c || is_upper_az c || (code c =? 95).

Definition is_ident_ch (c : ascii) : bool :=
  is_alnum_ascii c || (code c =? 95).

Definition re_env_line : regex :=
  (Grp 1 (Cls is_ident_start ++ star is_ident_ch) ++ ws ++ L "=" ++ ws
   ++ Grp 2 (plus not_newline))%re.

Definition unquote (val : str) : str :=
  let sq := txt "'" in
  let dq := [ascii_of_nat 34] in
  if (startswith sq val && endswith sq val) || (startswith dq val && endswith dq val)
  then slice val 1 (-1)
  else val.

Definition extract_env_kv (env_body : str) : dict str :=
  fold_left
    (fun env line =>
       let line := strip line in
       if negb (nonempty line) || startswith (txt "#") line then env
       else
         match re_match re_env_line line with
         | Some m =>
           let key := group_or_empty line m 1 in
           let val := strip (group_or_empty line m 2) in
           dict_set key (unquote val) env
         | None => env
         end)
    (splitlines env_body) [].

(** *** Stages *)

Record stage := {
  stage_name : str;
  stage_content : str
}.

(** The header of a stage: [stage ( name ) {] with a quoted non-empty name. *)
Definition re_stage : regex :=
  (L "stage" ++ ws ++ L "(" ++ ws ++ quoted1 1 ++ ws ++ L ")" ++ ws ++ L "{")%re.

(** The [while True] loop of [split_stages]; every round that goes on
    moves [i] past a closing brace, so [fuel] beyond the length of the
    text is never used up. *)
Fixpoint split_stages_loop (fuel : nat) (stages_body : str) (i : nat) (res : list stage)
  : list stage :=
  match fuel with
  | 0 => res
  | S fuel' =>
    let tail := slice_from stages_body i in
    match re_search re_stage tail with
    | None => res
    | Some m =>
      let name := group_or_empty tail m 1 in
      let abs_start := i + m_start m in
      let block_start := abs_start + m_end m - m_start m - 1 in
      let j := block_start + 1 in
      let content_start := j in
      match scan_block (skipn j stages_body) j 0 with
      | Some j' =>
        split_stages_loop fuel' stages_body (j' + 1)
          (res ++ [{| stage_name := name;
                      stage_content := slice stages_body (Z.of_nat content_start) (Z.of_nat j') |}])
      | None => res
      end
    end
  end.

Definition split_stages (stages_body : str) : list stage :=
  split_stages_loop (S (length stages_body)) stages_body 0 [].

Definition extract_stage_when_branch (stage_body : str) : str :=
  let '(s, e) := find_block stage_body (kw "when") in
  if (s =? -1)%Z then []
  else
    let when_body := slice stage_body s e in
    match re_search (re_word_quoted "branch") when_body with
    | Some m => group_or_empty when_body m 1
    | None => []
    end.

Definition extract_stage_environment (stage_body : str) : dict str :=
  let '(s, e) := find_block stage_body (kw "environment") in
  if (s =? -1)%Z then [] else extract_env_kv (slice stage_body s e).

(** *** Shell and echo steps *)

(** [sh], white space, three quote characters (group 1), the script
    (group 2, as short as possible), the same three characters again. *)
Definition re_sh_triple : regex :=
  (L "sh" ++ ws1 ++ Grp 1 (Rep true 3 (Some 3) is_quote)
   ++ Grp 2 (Rep false 0 None any_ch) ++ Ref 1)%re.

Definition re_echo : regex := (WordB ++ L "echo" ++ ws1 ++ quoted1 1)%re.

Definition sh_triple_commands (zone : str) (m : rmatch_obj) : list str :=
  multiline_to_commands (group_or_empty zone m 2).

Definition sh_line_command (zone : str) (m : rmatch_obj) : list str :=
  [strip (group_or_empty zone m 1)].

Definition echo_command (zone : str) (m : rmatch_obj) : list str :=
  [txt "echo " ++ strip (group_or_empty zone m 1)].

(** The region [extract_steps_commands] scans. *)
Definition steps_zone (stage_body : str) : str :=
  let '(s, e) := find_block stage_body (kw "steps") in
  let search_zone := if negb (s =? -1)%Z then slice stage_body s e else stage_body in
  strip_comments search_zone.

Definition extract_steps_commands (stage_body : str) : list str :=
  let zone := steps_zone stage_body in
  let cmds := [] in
  let cmds := cmds ++ flat_map (sh_triple_commands zone) (re_finditer re_sh_triple zone) in
  let cmds := cmds ++ flat_map (sh_line_command zone) (re_finditer re_sh_line zone) in
  let cmds := cmds ++ flat_map (echo_command zone) (re_finditer re_echo zone) in
  cmds.

(** *** Post blocks *)

Record post_data := {
  post_archive : option str;
  post_commands : option (list str);
  post_mail_to : option str
}.

Definition re_archive : regex :=
  (L "archiveArtifacts" ++ ws ++ L "(" ++ ws ++ key_colon "artifacts" ++ quoted1 1)%re.

Definition re_mail_to : regex :=
  (L "mail" ++ ws1 ++ key_colon "to" ++ quoted1 1)%re.

Definition post_data_empty (d : post_data) : bool :=
  match post_archive d, post_commands d, post_mail_to d with
  | None, None, None => true
  | _, _, _ => false
  end.

Definition _collect (post_body : str) (kind : string) : post_data :=
  let '(ks, ke) := find_block post_body (kw kind) in
  if (ks =? -1)%Z
  then {| post_archive := None; post_commands := None; post_mail_to := None |}
  else
    let kbody := slice post_body ks ke in
    let cmds :=
      flat_map (sh_line_command kbody) (re_finditer re_sh_line kbody)
      ++ flat_map (sh_triple_commands kbody) (re_finditer re_sh_triple kbody)
      ++ flat_map (echo_command kbody) (re_finditer re_echo kbody) in
    {| post_archive := option_map strip (search_group1 re_archive kbody);
       post_commands := match cmds with [] => None | _ => Some cmds end;
       post_mail_to := option_map strip (search_group1 re_mail_to kbody) |}.

Definition post_kinds : list string := ["always"; "success"; "failure"; "cleanup"]%string.

Definition _extract_post_body (body : str) : dict post_data :=
  let '(ps, pe) := find_block body (kw "post") in
  if (ps =? -1)%Z then []
  else
    let post_body := slice body ps pe in
    fold_left
      (fun out kind =>
         let kdata := _collect post_body kind in
         if post_data_empty kdata then out else dict_set (txt kind) kdata out)
      post_kinds [].

Definition extract_stage_post (stage_body : str) : dict post_data :=
  _extract_post_body stage_body.

Definition extract_pipeline_post (pipeline_body : str) : dict post_data :=
  _extract_post_body pipeline_body.

Definition extract_parallel (stage_body : str) : list stage :=
  let '(ps, pe) := find_block stage_body (kw "parallel") in
  if (ps =? -1)%Z then []
  else split_stages (slice stage_body ps pe).

(** ** action_generator.py *)

(** One step of a job or of a composite action; a field is [None] when
    the step dictionary has no such key. *)
Record step := {
  step_name : option str;
  step_if : option str;
  step_uses : option str;
  step_with : option (dict str);
  step_run : option str;
  step_shell : option str;
  step_env : option (dict str)
}.

Definition uses_step (name : option str) (cond : option str) (uses : str)
    (w : option (dict str)) (env : option (dict str)) : step :=
  {| step_name := name; step_if := cond; step_uses := Some uses; step_with := w;
     step_run := None; step_shell := None; step_env := env |}.

Definition run_step (name : str) (cond : option str) (run : str) (shell : option str)
    (env : option (dict str)) : step :=
  {| step_name := Some name; step_if := cond; step_uses := None; step_with := None;
     step_run := Some run; step_shell := shell; step_env := env |}.

Definition bash : option str := Some (txt "bash").

Definition has_tool (t : option str) : bool :=
  match t with Some _ => true | None => false end.

Definition generate_tool_setup_steps (t : tools) : list step :=
  let java :=
    if has_tool (tool_jdk t) || has_tool (tool_maven t) then
      let java_version :=
        match tool_jdk t with
        | Some jdk =>
          let jdk_name := lower jdk in
          if contains (txt "11") jdk_name then txt "11"
          else if contains (txt "17") jdk_name then txt "17"
          else if contains (txt "21") jdk_name then txt "21"
          else txt "8"
        | None => txt "8"
        end in
      [uses_step (Some (txt "Set up JDK")) None (txt "actions/setup-java@v4")
         (Some [(txt "java-version", java_version); (txt "distribution", txt "temurin")])
         None]
    else [] in
  let maven :=
    if has_tool (tool_maven t) then
      [uses_step (Some (txt "Cache Maven packages")) None (txt "actions/cache@v3")
         (Some [(txt "path", txt "~/.m2");
                (txt "key", txt "${{ runner.os }}-m2-${{ hashFiles('**/pom.xml') }}")])
         None]
    else [] in
  let node :=
    match tool_nodejs t with
    | Some nodejs =>
      let nodejs_name := lower nodejs in
      let node_version :=
        if contains (txt "16") nodejs_name then txt "16"
        else if contains (txt "20") nodejs_name then txt "20"
        else txt "18" in
      [uses_step (Some (txt "Set up Node.js")) None (txt "actions/setup-node@v4")
         (Some [(txt "node-version", node_version); (txt "cache", txt "npm")])
         None]
    | None => []
    end in
  java ++ maven ++ node.

(** The expression [${{ scope.name }}]. *)
Definition expr (scope : string) (name : str) : str :=
  txt "${{ " ++ txt scope ++ txt "." ++ name ++ txt " }}".

(** The secret name of a credential id: [cred.upper().replace('-', '_')]. *)
Definition secret_name (cred : str) : str :=
  replace (txt "-") (txt "_") (upper cred).

(** [\$\{params\.([^}]+)\}] *)
Definition re_params_ref : regex :=
  (L "${params." ++ Grp 1 (plus not_rbrace) ++ L "}")%re.

Definition opt_dict (d : dict str) : option (dict str) :=
  match d with [] => None | _ => Some d end.

Definition convert_git_step (g : git_step) : step :=
  let with_params : dict str := [] in
  let with_params :=
    if nonempty (git_url g) then
      let url := git_url g in
      if startswith (txt "https://github.com/") url then
        let repo := replace (txt ".git") [] (replace (txt "https://github.com/") [] url) in
        dict_set (txt "repository") repo with_params
      else if contains (txt "/") url && negb (startswith (txt "http") url) then
        dict_set (txt "repository") url with_params
      else with_params
    else with_params in
  let with_params :=
    if nonempty (git_branch g) then
      let branch := git_branch g in
      if contains (txt "${params.") branch then
        match re_search re_params_ref branch with
        | Some m => dict_set (txt "ref") (expr "inputs" (group_or_empty branch m 1)) with_params
        | None => with_params
        end
      else dict_set (txt "ref") branch with_params
    else with_params in
  let with_params :=
    if nonempty (git_credentialsId g) then
      let cred_id := secret_name (git_credentialsId g) in
      dict_set (txt "token") (expr "secrets" cred_id) with_params
    else with_params in
  uses_step (Some (txt "Checkout code")) None (txt "actions/checkout@v4")
    (opt_dict with_params) None.

Definition convert_git_steps_to_actions (git_steps : list git_step) : list step :=
  map convert_git_step git_steps.

Definition sonar_env : dict str :=
  [(txt "SONAR_TOKEN", txt "${{ secrets.SONAR_TOKEN }}");
   (txt "SONAR_HOST_URL", txt "${{ secrets.SONAR_HOST_URL }}")].

Definition re_project_key : regex :=
  (L "-Dsonar.projectKey=" ++ Grp 1 (plus not_space))%re.

Definition re_project_name : regex :=
  (L "-Dsonar.projectName=" ++ Grp 1 (plus (fun c => not_space c && not_quote c)))%re.

Definition sonar_with (commands : list str) : dict str :=
  fold_left
    (fun with_params cmd =>
       let with_params :=
         if contains (txt "-Dsonar.projectKey=") cmd then
           match re_search re_project_key cmd with
           | Some m => dict_set (txt "projectKey") (group_or_empty cmd m 1) with_params
           | None => with_params
           end
         else with_params in
       if contains (txt "-Dsonar.projectName=") cmd then
         match re_search re_project_name cmd with
         | Some m =>
           dict_set (txt "projectName")
             (strip_chars is_quote (group_or_empty cmd m 1)) with_params
         | None => with_params
         end
       else with_params)
    commands [].

Definition convert_sonarqube_steps (sonar_steps : list sonar_step) : list step :=
  flat_map
    (fun sonar_step =>
       uses_step (Some (txt "SonarQube Scan")) None (txt "sonarqube-scan-action@master")
         (opt_dict (sonar_with (sonar_commands sonar_step))) (Some sonar_env)
       :: map (fun cmd => run_step (txt "Run SonarQube analysis") None cmd bash (Some sonar_env))
            (sonar_commands sonar_step))
    sonar_steps.

Definition uses_login (a : step) : bool :=
  match step_uses a with
  | Some u => contains (txt "docker/login-action") u
  | None => false
  end.

Definition context_or_empty (d : docker_step) : str :=
  match docker_context d with Some c => c | None => [] end.

Definition convert_docker_steps (docker_steps : list docker_step) : list step :=
  fold_left
    (fun docker_actions docker_step =>
       match docker_type docker_step with
       | DockerBuild =>
         docker_actions ++
         [run_step (txt "Build Docker image") None
            (txt "docker build -t " ++ docker_tag docker_step ++ txt " "
             ++ context_or_empty docker_step) bash None]
       | DockerPush =>
         let docker_actions :=
           if negb (existsb uses_login docker_actions) then
             docker_actions ++
             [uses_step (Some (txt "Login to DockerHub")) None (txt "docker/login-action@v2")
                (Some [(txt "username", txt "${{ secrets.DOCKER_USERNAME }}");
                       (txt "password", txt "${{ secrets.DOCKER_PASSWORD }}")]) None]
           else docker_actions in
         docker_actions ++
         [run_step (txt "Push Docker image") None
            (txt "docker push " ++ docker_tag docker_step) bash None]
       end)
    docker_steps [].

Definition convert_input_steps_to_environment (input_steps : list input_step)
    (stage_name : str) : str :=
  match input_steps with
  | _ :: _ => txt "approval-" ++ sanitize_name (lower stage_name)
  | [] => []
  end.

Record action_input := {
  ainput_description : str;
  ainput_required : bool;
  ainput_default : str
}.

Record action_def := {
  action_name : str;
  action_description : str;
  action_inputs : dict action_input;
  action_using : str;
  action_steps : list step
}.

(** [k.lower().replace('_', '-')] *)
Definition input_key (k : str) : str := replace (txt "_") (txt "-") (lower k).

Definition skip_command (has_sonar : bool) (cmd : str) : bool :=
  startswith (txt "git ") cmd
  || contains (txt "withSonarQubeEnv") cmd
  || startswith (txt "docker build") cmd
  || startswith (txt "docker push") cmd
  || (contains (txt "mvn sonar:sonar") cmd && has_sonar).

Fixpoint numbered_from (A : Type) (i : nat) (l : list A) : list (nat * A) :=
  match l with
  | [] => []
  | x :: l' => (i, x) :: numbered_from (S i) l'
  end.

(** Decimal digits of a number, as [str(n)] writes them. *)
Fixpoint digits_fuel (fuel n : nat) (acc : str) : str :=
  match fuel with
  | 0 => acc
  | S f =>
    let acc' := ascii_of_nat (48 + n mod 10) :: acc in
    if n / 10 =? 0 then acc' else digits_fuel f (n / 10) acc'
  end.

Definition str_of_nat (n : nat) : str := digits_fuel (S n) n [].

Definition kind_call (kind : string) : str := txt kind ++ txt "()".

(** The steps one condition name of a stage's post block turns into. *)
Definition stage_post_steps (stage_name : str) (post_info : dict post_data) (kind : string)
  : list step :=
  match dict_get (txt kind) post_info with
  | Some pdata =>
    (match post_archive pdata with
     | Some path =>
       [uses_step (Some (txt "Upload artifacts (" ++ txt kind ++ txt ")"))
          (Some (kind_call kind)) (txt "actions/upload-artifact@v4")
          (Some [(txt "name", sanitize_name stage_name ++ txt "-" ++ txt kind ++ txt "-artifacts");
                 (txt "path", path)]) None]
     | None => []
     end)
    ++
    (match post_commands pdata with
     | Some cmds =>
       map (fun cmd => run_step (txt "Post " ++ txt kind) (Some (kind_call kind)) cmd bash None)
         cmds
     | None => []
     end)
  | None => []
  end.

Definition generate_enhanced_composite_action (stage_name stage_body : str)
    (stage_env : dict str) (stage_agent : agent) (post_info : dict post_data) : action_def :=
  let tools := extract_tools stage_body in
  let git_steps := extract_git_steps stage_body in
  let sonar_steps := extract_sonarqube_steps stage_body in
  let docker_steps := extract_docker_steps stage_body in
  let kubectl_commands := extract_kubectl_steps stage_body in
  let credentials := extract_credentials_usage stage_body in
  let basic_commands := extract_steps_commands stage_body in
  let inputs :=
    fold_left
      (fun inputs kv =>
         dict_set (input_key (fst kv))
           {| ainput_description := txt "Environment variable " ++ fst kv;
              ainput_required := false;
              ainput_default := snd kv |} inputs)
      stage_env [] in
  let steps := generate_tool_setup_steps tools in
  let steps := steps ++ convert_git_steps_to_actions git_steps in
  let steps := steps ++ convert_sonarqube_steps sonar_steps in
  let steps := steps ++ convert_docker_steps docker_steps in
  let filtered_commands :=
    filter (fun cmd => negb (skip_command (nonempty_list sonar_steps) cmd)) basic_commands in
  let steps :=
    steps ++
    map (fun ic =>
           run_step (txt "Run command " ++ str_of_nat (fst ic + 1)) None (snd ic) bash
             (match stage_env with
              | [] => None
              | _ => Some (fold_left
                             (fun d kv => dict_set (fst kv) (expr "inputs" (input_key (fst kv))) d)
                             stage_env [])
              end))
      (numbered_from 0 filtered_commands) in
  let steps :=
    steps ++
    map (fun kubectl_cmd => run_step (txt "Run kubectl command") None kubectl_cmd bash None)
      kubectl_commands in
  let ssh_credentials := filter (fun cred => contains (txt "ssh") (lower cred)) credentials in
  let steps :=
    steps ++
    map (fun ssh_cred =>
           uses_step (Some (txt "Execute SSH commands")) None (txt "appleboy/ssh-action@v0.1.5")
             (Some [(txt "host", txt "${{ secrets.SSH_HOST }}");
                    (txt "username", txt "${{ secrets.SSH_USER }}");
                    (txt "key", expr "secrets" (secret_name ssh_cred))]) None)
      ssh_credentials in
  let steps :=
    steps ++
    flat_map (stage_post_steps stage_name post_info)
      ["always"; "success"; "failure"]%string in
  {| action_name := stage_name ++ txt " Action";
     action_description := txt "Enhanced composite action for " ++ stage_name ++ txt " stage";
     action_inputs := inputs;
     action_using := txt "composite";
     action_steps := steps |}.

Record stage_info := {
  si_name : str;
  si_body : str;
  si_env : dict str;
  si_agent : agent;
  si_post : dict post_data
}.

Record action_info := {
  ai_name : str;
  ai_path : str;
  ai_env : dict str;
  ai_approval_environment : str;
  ai_credentials : list str;
  ai_has_docker : bool;
  ai_has_kubectl : bool
}.

Definition action_metadata (info : stage_info) : action_info :=
  let stage_name := si_name info in
  let stage_body := si_body info in
  let action_name := sanitize_name (lower stage_name) in
  let relative_path := txt "./.github/actions/" ++ action_name in
  let input_steps := extract_input_steps stage_body in
  let approval_env := convert_input_steps_to_environment input_steps stage_name in
  let credentials := extract_credentials_usage stage_body in
  {| ai_name := stage_name;
     ai_path := relative_path;
     ai_env := si_env info;
     ai_approval_environment := approval_env;
     ai_credentials := credentials;
     ai_has_docker := nonempty_list (extract_docker_steps stage_body);
     ai_has_kubectl := nonempty_list (extract_kubectl_steps stage_body) |}.

(** The [action.yml] documents written below the output directory, as
    (directory of the action, document) in the order they are written,
    and the metadata returned. *)
Definition save_enhanced_composite_actions (stages_info : list stage_info)
  : list (str * action_def) * list action_info :=
  (map (fun info =>
          (txt ".github/actions/" ++ sanitize_name (lower (si_name info)),
           generate_enhanced_composite_action (si_name info) (si_body info) (si_env info)
             (si_agent info) (si_post info)))
     stages_info,
   map action_metadata stages_info).

(** ** converter.py *)

Inductive exception := ValueError (msg : str).

Inductive result (A : Type) :=
| Ok (a : A)
| Raise (e : exception).

Arguments Ok {A} a.
Arguments Raise {A} e.

Record container := {
  container_image : str;
  container_options : option str
}.

(** The value of [needs]: one job id, or a list of them. *)
Inductive needs :=
| NeedsId (id : str)
| NeedsIds (ids : list str).

(** The job ids a [needs] value names. *)
Definition needs_ids (n : option needs) : list str :=
  match n with
  | None => []
  | Some (NeedsId id) => [id]
  | Some (NeedsIds ids) => ids
  end.

Record workflow_input := {
  wi_description : str;
  wi_required : bool;
  wi_default : pvalue;
  wi_type : param_type;
  wi_options : option (list str)
}.

Definition msg_no_pipeline : str :=
  txt "Not a declarative Jenkins pipeline (no 'pipeline { ... }' found).".

Definition msg_no_stages : str := txt "No 'stages { ... }' found.".

Definition ubuntu_latest : str := txt "ubuntu-latest".

Definition checkout_step : step :=
  uses_step None None (txt "actions/checkout@v4") None None.

(** What [convert_jenkins_to_gha] extracts from the text before it
    builds anything. *)
Record pipeline_parts := {
  pp_pipeline_body : str;
  pp_global_agent : agent;
  pp_parameters : dict param_info;
  pp_global_env : dict str;
  pp_stages_list : list stage;
  pp_pipeline_post : dict post_data
}.

(** The first half of [convert_jenkins_to_gha], with its two [raise]
    statements. *)
Definition parse_pipeline (jenkins_text : str) : result pipeline_parts :=
  let text := strip_comments jenkins_text in
  let '(pstart, pend) := find_block text (kw "pipeline") in
  if (pstart =? -1)%Z then Raise (ValueError msg_no_pipeline)
  else
    let pipeline_body := slice text pstart pend in
    let global_agent := extract_global_agent pipeline_body in
    let parameters := extract_parameters pipeline_body in
    let global_env :=
      let '(es, ee) := find_block pipeline_body (kw "environment") in
      if negb (es =? -1)%Z then extract_env_kv (slice pipeline_body es ee) else [] in
    let '(ss, se) := find_block pipeline_body (kw "stages") in
    if (ss =? -1)%Z then Raise (ValueError msg_no_stages)
    else
      let stages_list := split_stages (slice pipeline_body ss se) in
      let pipeline_post := extract_pipeline_post pipeline_body in
      Ok {| pp_pipeline_body := pipeline_body;
            pp_global_agent := global_agent;
            pp_parameters := parameters;
            pp_global_env := global_env;
            pp_stages_list := stages_list;
            pp_pipeline_post := pipeline_post |}.

Section Converter.

(** [agent_mapper.map_label_to_runs_on], which the converter imports. *)
Variable runner : Type.
Variable map_label_to_runs_on : str -> runner.

Inductive runs_on :=
| RunsOn (name : str)
| RunsOnMapped (r : runner).

Record job_def := {
  job_name : option str;
  job_runs_on : runs_on;
  job_container : option container;
  job_env : option (dict str);
  job_if : option str;
  job_needs : option needs;
  job_steps : list step;
  job_environment : option str
}.

Record workflow := {
  wf_name : str;
  wf_on_push_branches : list str;
  wf_on_pull_request : bool;
  wf_on_workflow_dispatch : option (dict workflow_input);
  wf_env : option (dict str);
  wf_jobs : dict job_def
}.

Record conversion := {
  conv_workflow : workflow;
  conv_action_paths : list action_info;
  conv_written : list (str * action_def)
}.

Definition agent_runner (a : agent) : runs_on * option container :=
  match a with
  | AgentNone | AgentAny => (RunsOn ubuntu_latest, None)
  | AgentLabel label => (RunsOnMapped (map_label_to_runs_on label), None)
  | AgentDocker image args _ =>
    (RunsOn ubuntu_latest, Some {| container_image := image; container_options := args |})
  end.

Definition workflow_input_of (param_name : str) (param_info : param_info) : workflow_input :=
  {| wi_description :=
       if nonempty (p_description param_info) then p_description param_info
       else txt "Parameter " ++ param_name;
     wi_required := false;
     wi_default := p_default param_info;
     wi_type := p_type param_info;
     wi_options := p_options param_info |}.

Section Stages.

Variable global_env : dict str.
Variable default_runs_on : runs_on.
Variable default_container : option container.

Definition compute_job_env (stage_env : dict str) : dict str :=
  match stage_env with
  | [] => []
  | _ =>
    match global_env with
    | [] => stage_env
    | _ =>
      fold_left
        (fun out kv =>
           match dict_get (fst kv) global_env with
           | Some v => if str_eqb v (snd kv) then out else dict_set (fst kv) (snd kv) out
           | None => dict_set (fst kv) (snd kv) out
           end)
        stage_env []
    end
  end.

Definition apply_agent_to_job (stage_agent : agent) : runs_on * option container :=
  match stage_agent with
  | AgentNone => (default_runs_on, default_container)
  | _ => agent_runner stage_agent
  end.

Definition make_stage_info (name body : str) : stage_info :=
  {| si_name := name;
     si_body := body;
     si_env := extract_stage_environment body;
     si_agent := extract_stage_agent body;
     si_post := extract_stage_post body |}.

(** The job definition built for one stage or parallel branch. *)
Definition make_job (body : str) (job_needs : option needs) : job_def :=
  let stage_agent := extract_stage_agent body in
  let stage_env_raw := extract_stage_environment body in
  let job_env := compute_job_env stage_env_raw in
  let branch := extract_stage_when_branch body in
  let if_cond :=
    if nonempty branch
    then Some (txt "github.ref == 'refs/heads/" ++ branch ++ txt "'")
    else None in
  let '(runs, cont) := apply_agent_to_job stage_agent in
  {| job_name := None;
     job_runs_on := runs;
     job_container := cont;
     job_env := opt_dict job_env;
     job_if := if_cond;
     job_needs := job_needs;
     job_steps := [checkout_step];
     job_environment := None |}.

Record loop_state := {
  ls_jobs : dict job_def;
  ls_stages_info : list stage_info;
  ls_last_job_ids : list str;
  ls_prev_job_id : str
}.

Definition assign_jobs (new_jobs : list (str * job_def)) (jobs : dict job_def)
  : dict job_def :=
  fold_left (fun jobs a => dict_set (fst a) (snd a) jobs) new_jobs jobs.

(** The assignments [gha["jobs"][job_id] = job_def] one stage makes,
    in order. *)
Definition stage_jobs (st : loop_state) (stg : stage) : list (str * job_def) :=
  match extract_parallel (stage_content stg) with
  | (_ :: _) as parallel_substages =>
    let upstream :=
      if nonempty (ls_prev_job_id st) then Some (ls_prev_job_id st)
      else last_error (ls_last_job_ids st) in
    let job_needs :=
      match upstream with
      | Some u => if nonempty u then Some (NeedsId u) else None
      | None => None
      end in
    map (fun sub => (gha_job_id (stage_name sub), make_job (stage_content sub) job_needs))
      parallel_substages
  | [] =>
    let job_needs :=
      match ls_last_job_ids st with
      | _ :: _ => Some (NeedsIds (ls_last_job_ids st))
      | [] =>
        if nonempty (ls_prev_job_id st) then Some (NeedsId (ls_prev_job_id st)) else None
      end in
    [(gha_job_id (stage_name stg), make_job (stage_content stg) job_needs)]
  end.

(** One round of the loop over [stages_list]. *)
Definition process_stage (st : loop_state) (stg : stage) : loop_state :=
  let new_jobs := stage_jobs st stg in
  match extract_parallel (stage_content stg) with
  | (_ :: _) as parallel_substages =>
    {| ls_jobs := assign_jobs new_jobs (ls_jobs st);
       ls_stages_info :=
         ls_stages_info st ++
         map (fun sub => make_stage_info (stage_name sub) (stage_content sub))
           parallel_substages;
       ls_last_job_ids := map fst new_jobs;
       ls_prev_job_id := [] |}
  | [] =>
    {| ls_jobs := assign_jobs new_jobs (ls_jobs st);
       ls_stages_info :=
         ls_stages_info st ++ [make_stage_info (stage_name stg) (stage_content stg)];
       ls_last_job_ids := [];
       ls_prev_job_id := gha_job_id (stage_name stg) |}
  end.

Definition initial_state : loop_state :=
  {| ls_jobs := []; ls_stages_info := []; ls_last_job_ids := []; ls_prev_job_id := [] |}.

Definition process_stages (stages_list : list stage) : loop_state :=
  fold_left process_stage stages_list initial_state.

End Stages.

Definition create_enhanced_job_steps (action_info : action_info) : list step :=
  let steps :=
    if negb (existsb (fun cred => contains (txt "git") (lower cred))
               (ai_credentials action_info))
    then [checkout_step]
    else [] in
  let stage_env := ai_env action_info in
  let w :=
    match stage_env with
    | [] => None
    | _ => Some (fold_left
                   (fun d kv => dict_set (input_key (fst kv)) (expr "env" (fst kv)) d)
                   stage_env [])
    end in
  steps ++
  [uses_step (Some (txt "Run " ++ ai_name action_info)) None (ai_path action_info) w None].

Definition update_job (job : job_def) (action_info : action_info) : job_def :=
  {| job_name := job_name job;
     job_runs_on := job_runs_on job;
     job_container := job_container job;
     job_env := job_env job;
     job_if := job_if job;
     job_needs := job_needs job;
     job_steps := create_enhanced_job_steps action_info;
     job_environment :=
       if nonempty (ai_approval_environment action_info)
       then Some (ai_approval_environment action_info)
       else job_environment job |}.

(** The loop over [enumerate(job_keys)]: the job at position [i] of
    the mapping takes the metadata at position [i], while there is one. *)
Fixpoint update_jobs (jobs : dict job_def) (action_paths : list action_info)
  : dict job_def :=
  match jobs, action_paths with
  | (job_key, job) :: jobs', action_info :: rest =>
    (job_key, update_job job action_info) :: update_jobs jobs' rest
  | _, _ => jobs
  end.

Definition pipeline_post_steps (pipeline_post : dict post_data) (kind : string)
  : list step :=
  match dict_get (txt kind) pipeline_post with
  | Some pdata =>
    (match post_archive pdata with
     | Some path =>
       [uses_step (Some (txt "Upload artifacts (" ++ txt kind ++ txt ")"))
          (Some (kind_call kind)) (txt "actions/upload-artifact@v4")
          (Some [(txt "name", txt "pipeline-" ++ txt kind ++ txt "-artifacts");
                 (txt "path", path)]) None]
     | None => []
     end)
    ++
    (match post_commands pdata with
     | Some cmds =>
       [run_step (txt "Pipeline post " ++ txt kind) (Some (kind_call kind))
          (join [ascii_of_nat 10] cmds) None None]
     | None => []
     end)
    ++
    (match post_mail_to pdata with
     | Some mail_to =>
       [uses_step (Some (txt "Send notification on " ++ txt kind))
          (Some (kind_call kind)) (txt "dawidd6/action-send-mail@v3")
          (Some [(txt "server_address", txt "smtp.gmail.com");
                 (txt "server_port", txt "587");
                 (txt "username", txt "${{ secrets.EMAIL_USERNAME }}");
                 (txt "password", txt "${{ secrets.EMAIL_PASSWORD }}");
                 (txt "subject", txt "Pipeline " ++ txt kind ++ txt ": ${{ github.workflow }}");
                 (txt "to", mail_to);
                 (txt "from", txt "${{ secrets.EMAIL_USERNAME }}");
                 (txt "body", txt "Pipeline " ++ txt kind
                              ++ txt " for ${{ github.repository }} - ${{ github.sha }}")])
          None]
     | None => []
     end)
  | None => []
  end.

Definition pipeline_post_id : str := txt "pipeline-post".

(** The job for the pipeline's post block, built only when it has a step
    beyond the checkout; [jobs] is the mapping at that moment. *)
Definition pipeline_post_job (pipeline_post : dict post_data) (default_runs_on : runs_on)
    (default_container : option container) (jobs : dict job_def) : option job_def :=
  match pipeline_post with
  | [] => None
  | _ =>
    let post_job_steps :=
      checkout_step :: flat_map (pipeline_post_steps pipeline_post) post_kinds in
    if 1 <? length post_job_steps then
      let all_jobs :=
        filter (fun k => negb (str_eqb k pipeline_post_id)) (dict_keys jobs) in
      Some {| job_name := Some (txt "Pipeline Post");
              job_runs_on := default_runs_on;
              job_container := default_container;
              job_env := None;
              job_if := Some (txt "always()");
              job_needs := Some (NeedsIds all_jobs);
              job_steps := post_job_steps;
              job_environment := None |}
    else None
  end.

Definition add_pipeline_post (pipeline_post : dict post_data) (default_runs_on : runs_on)
    (default_container : option container) (jobs : dict job_def) : dict job_def :=
  match pipeline_post_job pipeline_post default_runs_on default_container jobs with
  | Some post_job_def => dict_set pipeline_post_id post_job_def jobs
  | None => jobs
  end.

(** The second half of [convert_jenkins_to_gha]: from the extracted
    parts to the workflow, the action documents and their metadata. *)
Definition build_workflow (parts : pipeline_parts) : conversion :=
  let global_env := pp_global_env parts in
  let '(default_runs_on, default_container) := agent_runner (pp_global_agent parts) in
  let workflow_inputs :=
    map (fun p => (fst p, workflow_input_of (fst p) (snd p))) (pp_parameters parts) in
  let workflow_env := global_env in
  let st :=
    process_stages global_env default_runs_on default_container (pp_stages_list parts) in
  let '(written, action_paths) := save_enhanced_composite_actions (ls_stages_info st) in
  let jobs := update_jobs (ls_jobs st) action_paths in
  let jobs :=
    add_pipeline_post (pp_pipeline_post parts) default_runs_on default_container jobs in
  {| conv_workflow :=
       {| wf_name := txt "CI";
          wf_on_push_branches := [txt "master"; txt "main"];
          wf_on_pull_request := true;
          wf_on_workflow_dispatch :=
            match workflow_inputs with [] => None | _ => Some workflow_inputs end;
          wf_env := opt_dict workflow_env;
          wf_jobs := jobs |};
     conv_action_paths := action_paths;
     conv_written := written |}.

Definition convert_jenkins_to_gha (jenkins_text : str) : result conversion :=
  match parse_pipeline jenkins_text with
  | Raise e => Raise e
  | Ok parts => Ok (build_workflow parts)
  end.

(** The assignments to the jobs mapping that the loop over the stages
    makes from state [st] on, in order. *)
Fixpoint assignments_from (global_env : dict str) (default_runs_on : runs_on)
    (default_container : option container) (st : loop_state) (stages_list : list stage)
  : list (str * job_def) :=
  match stages_list with
  | [] => []
  | stg :: rest =>
    stage_jobs global_env default_runs_on default_container st stg
    ++ assignments_from global_env default_runs_on default_container
         (process_stage global_env default_runs_on default_container st stg) rest
  end.

(** Every assignment to the jobs mapping of one conversion, in order:
    those of the loop, then the one of the pipeline's post job. *)
Definition job_assignments (parts : pipeline_parts) : list (str * job_def) :=
  let global_env := pp_global_env parts in
  let '(default_runs_on, default_container) := agent_runner (pp_global_agent parts) in
  let loop := assignments_from global_env default_runs_on default_container
                initial_state (pp_stages_list parts) in
  loop ++
  match pipeline_post_job (pp_pipeline_post parts) default_runs_on default_container
          (assign_jobs loop []) with
  | Some post_job_def => [(pipeline_post_id, post_job_def)]
  | None => []
  end.



End Converter.

(** ** Notions the properties are stated with *)

(** A successful match hands its continuation a cursor further on in the
    same text. *)
Definition advances (i : nat) (s : str) (i' : nat) (s' : str) : Prop :=
  i <= i' /\ i' + length s' = i + length s.

(** The matches [re.finditer] yields come one after the other in the
    text: each starts later than the one before and not before its end. *)
Definition precedes (a b : rmatch_obj) : Prop :=
  m_start a < m_start b /\ m_end a <= m_start b.

(** The matches behind the commands [extract_steps_commands] returns, in
    the order their commands are returned: where each match starts and
    the commands it yields. *)
Definition steps_matches (zone : str) : list (nat * list str) :=
  map (fun m => (m_start m, sh_triple_commands zone m)) (re_finditer re_sh_triple zone)
  ++ map (fun m => (m_start m, sh_line_command zone m)) (re_finditer re_sh_line zone)
  ++ map (fun m => (m_start m, echo_command zone m)) (re_finditer re_echo zone).

(** Commands come back in textual order when the matches behind them
    start at increasing positions. *)
Definition in_textual_order (stage_body : str) : Prop :=
  StronglySorted lt (map fst (steps_matches (steps_zone stage_body))).

(** The parameter declarations of a block in the order the three loops
    visit them, each with the position its match starts at. *)
Definition parameter_declarations (param_body : str) : list (nat * (str * param_info)) :=
  map (fun m => (m_start m, string_param param_body m))
    (re_finditer re_string_param param_body)
  ++ map (fun m => (m_start m, boolean_param param_body m))
       (re_finditer re_boolean_param param_body)
  ++ map (fun m => (m_start m, choice_param param_body m))
       (re_finditer re_choice_param param_body).

(** The declaration of [name] that starts last in the text. *)
Definition textually_last (name : str) (decls : list (nat * (str * param_info)))
  : option (nat * param_info) :=
  fold_left
    (fun best d =>
       if str_eqb name (fst (snd d)) then
         match best with
         | Some (pos, _) =>
           if pos <? fst d then Some (fst d, snd (snd d)) else best
         | None => Some (fst d, snd (snd d))
         end
       else best)
    decls None.

(** The last assignment to [name] in a sequence of assignments. *)
Definition last_assigned (V : Type) (name : str) (assignments : list (str * V)) : option V :=
  dict_get name (rev assignments).



Definition double_quote : str := [ascii_of_nat 34].
Definition newline : str := [ascii_of_nat 10].

(** ** Inputs the properties are tried on *)

Definition steps_out_of_order : str := txt " steps { echo 'first' ; sh 'second' } ".

Definition duplicated_parameter : str :=
  txt "parameters { choice(name: 'ENV', choices: ['dev', 'prod']) string(name: 'ENV', defaultValue: 'qa') }".

Definition two_ssh_keys : str := txt "sshagent(['key-a', 'key-b']) { sh 'deploy' }".


Definition git_url_stage_body (url : str) : str :=
  newline ++ txt "      steps {" ++ newline
  ++ txt "        git url: " ++ double_quote ++ url ++ double_quote ++ newline
  ++ txt "      }" ++ newline ++ txt "    ".

Definition git_url_pipeline (url : str) : str :=
  txt "pipeline {" ++ newline ++ txt "  agent any" ++ newline
  ++ txt "  stages {" ++ newline
  ++ txt "    stage('Checkout') {" ++ git_url_stage_body url ++ txt "}" ++ newline
  ++ txt "  }" ++ newline ++ txt "}" ++ newline.

Definition repo_url : str := txt "https://github.com/owner/repo.git".

Definition other_url : str := txt "https://example.org/elsewhere".

(** Every step of every generated document, those of the composite
    actions and those of the jobs. *)
Definition all_steps (runner : Type) (c : conversion runner) : list step :=
  flat_map (fun w => action_steps (snd w)) (conv_written c)
  ++ flat_map (fun j => job_steps (snd j)) (wf_jobs (conv_workflow c)).

(** The step names a repository. *)
Definition has_repository (s : step) : bool :=
  match step_with s with
  | Some w => dict_mem (txt "repository") w
  | None => false
  end.

Definition no_slash (c : ascii) : bool := negb (ch_eqb c "/"%char).



Definition scenario_a : str :=
  txt "pipeline { agent any stages { stage('Build') { steps { sh 'make build' } } } }".

Definition build_then_deploy : str :=
  txt "pipeline { agent any stages { stage('Build') { steps { sh 'make' } } stage('Deploy') { steps { sh 'make deploy' } } } }".

Definition build_then_deploy_parts : pipeline_parts :=
  {| pp_pipeline_body :=
       txt " agent any stages { stage('Build') { steps { sh 'make' } } stage('Deploy') { steps { sh 'make deploy' } } } ";
     pp_global_agent := AgentNone;
     pp_parameters := [];
     pp_global_env := [];
     pp_stages_list :=
       [{| stage_name := txt "Build"; stage_content := txt " steps { sh 'make' } " |};
        {| stage_name := txt "Deploy"; stage_content := txt " steps { sh 'make deploy' } " |}];
     pp_pipeline_post := [] |}.


Definition duplicate_stage_names : str :=
  txt "pipeline { agent any stages { stage('Build') { steps { sh 'make' } } stage('Test') { steps { sh 'make test' } } stage('Build') { steps { sh 'make again' } } } }".

Definition parallel_then_post : str :=
  txt "pipeline { agent any stages { stage('Setup') { steps { sh 'make' } } stage('Checks') { parallel { stage('A') { steps { sh 'a' } } stage('B') { steps { sh 'b' } } } } stage('End') { steps { sh 'e' } } } post { always { echo 'done' } } }".







Definition two_stages_one_open : str :=
  txt " stage('Build') { sh 'make' } stage('Test') { sh 'check' } stage('Deploy') { steps { ".

Definition parallel_then_post_parts : pipeline_parts :=
  Eval vm_compute in
    match parse_pipeline parallel_then_post with
    | Ok parts => parts
    | Raise _ => build_then_deploy_parts
    end.

(** The job ids of a workflow, each with the ids it needs. *)
Definition dependency_view (runner : Type) (r : result (conversion runner))
  : list (str * list str) :=
  match r with
  | Ok c => map (fun j => (fst j, needs_ids (job_needs (snd j)))) (wf_jobs (conv_workflow c))
  | Raise _ => []
  end.

(** The span and groups 1 to 3 of a match, for reading results. *)
Definition match_view (text : str) (m : rmatch_obj)
  : nat * nat * (option str * option str * option str) :=
  (m_start m, m_end m, (group text m 1, group text m 2, group text m 3)).

Definition finditer_view (r : regex) (text : str)
  : list (nat * nat * (option str * option str * option str)) :=
  map (match_view text) (re_finditer r text).

(** [[^a-zA-Z0-9]+], the pattern of [gha_job_id]. *)
Definition re_non_alnum : regex := plus (fun c => negb (is_alnum_ascii c)).

(** The length of the longest prefix of [s] inside the class [p]. *)
Fixpoint span (p : ascii -> bool) (s : str) : nat :=
  match s with
  | c :: s' => if p c then S (span p s') else 0
  | [] => 0
  end.

(** Line comments removed, told without patterns: outside a comment two
    slashes open one, whatever stands before them on the line; inside a
    comment everything up to the line feed is dropped. *)
Fixpoint without_line_comments (in_comment : bool) (s : str) : str :=
  match s with
  | [] => []
  | c :: s' =>
    if in_comment then
      if not_newline c then without_line_comments true s'
      else c :: without_line_comments false s'
    else if startswith (txt "//") s then without_line_comments true s'
    else c :: without_line_comments false s'
  end.

Definition approval_pipeline : str :=
  txt "pipeline { agent any stages { stage('Deploy') { steps { input(message: 'Approve?') sh 'make deploy' } } } }".

Definition version_parameter_pipeline : str :=
  txt "pipeline { agent any parameters { string(name: 'VERSION', defaultValue: '1.0') } stages { stage('Build') { steps { sh 'make' } } } }".

Definition parallel_stage : stage :=
  {| stage_name := txt "Checks";
     stage_content := txt " parallel { stage('A') { steps { sh 'a' } } stage('B') { steps { sh 'b' } } } " |}.

(** The state of the loop after a sequential stage [Setup]. *)
Definition after_setup (runner : Type) : loop_state runner :=
  {| ls_jobs := [];
     ls_stages_info := [];
     ls_last_job_ids := [];
     ls_prev_job_id := txt "setup" |}.

(** The job the branches of a parallel group depend on. *)
Definition upstream_of (runner : Type) (st : loop_state runner) : list str :=
  match (if nonempty (ls_prev_job_id st) then Some (ls_prev_job_id st)
         else last_error (ls_last_job_ids st)) with
  | Some u => if nonempty u then [u] else []
  | None => []
  end.

(** ** Notions for the further properties *)

(** [a] is [b] with some characters left out. *)
Inductive subsequence : str -> str -> Prop :=
| subseq_nil : subsequence [] []
| subseq_skip (c : ascii) (a b : str) : subsequence a b -> subsequence a (c :: b)
| subseq_keep (c : ascii) (a b : str) : subsequence a b -> subsequence (c :: a) (c :: b).

(** The characters [sanitize_name] leaves as they are:
    [[a-zA-Z0-9_-]]. *)
Definition is_name_ch (c : ascii) : bool := negb (not_name_ch c).

(** The characters of a job id: lower-case letters, digits, hyphens. *)
Definition is_job_id_ch (c : ascii) : bool :=
  is_lower_az c || is_digit c || is_hyphen c.

Definition no_linebreak (c : ascii) : bool := negb (is_linebreak c).

Definition not_hyphen (o : option ascii) : Prop := o <> Some "-"%char.

(** Every maximal run of characters of the class [q] replaced by one [b];
    [in_run] tells that the character before belonged to a run. *)
Fixpoint collapse_runs (q : ascii -> bool) (b : ascii) (in_run : bool) (s : str) : str :=
  match s with
  | [] => []
  | c :: s' =>
    if q c
    then if in_run then collapse_runs q b true s' else b :: collapse_runs q b true s'
    else c :: collapse_runs q b false s'
  end.

Definition hd_hyphen (s : str) : bool :=
  match s with y :: _ => is_hyphen y | [] => false end.

(** The run step a docker step turns into. *)
Definition docker_command (d : docker_step) : step :=
  match docker_type d with
  | DockerBuild =>
    run_step (txt "Build Docker image") None
      (txt "docker build -t " ++ docker_tag d ++ txt " " ++ context_or_empty d) bash None
  | DockerPush =>
    run_step (txt "Push Docker image") None (txt "docker push " ++ docker_tag d) bash None
  end.

Definition docker_login : step :=
  uses_step (Some (txt "Login to DockerHub")) None (txt "docker/login-action@v2")
    (Some [(txt "username", txt "${{ secrets.DOCKER_USERNAME }}");
           (txt "password", txt "${{ secrets.DOCKER_PASSWORD }}")]) None.

Definition is_build (d : docker_step) : bool :=
  match docker_type d with DockerBuild => true | DockerPush => false end.

(** One round of the loop of [convert_docker_steps]. *)
Definition docker_round : list step -> docker_step -> list step :=
  fun (docker_actions : list step) (docker_step : docker_step) =>
     match docker_type docker_step with
     | DockerBuild =>
       docker_actions ++
       [run_step (txt "Build Docker image") None
          (txt "docker build -t " ++ docker_tag docker_step ++ txt " "
           ++ context_or_empty docker_step) bash None]
     | DockerPush =>
       let docker_actions :=
         if negb (existsb uses_login docker_actions) then
           docker_actions ++
           [uses_step (Some (txt "Login to DockerHub")) None (txt "docker/login-action@v2")
              (Some [(txt "username", txt "${{ secrets.DOCKER_USERNAME }}");
                     (txt "password", txt "${{ secrets.DOCKER_PASSWORD }}")]) None]
         else docker_actions in
       docker_actions ++
       [run_step (txt "Push Docker image") None
          (txt "docker push " ++ docker_tag docker_step) bash None]
     end.

(** The job id of the stage an action was generated for. *)
Definition action_job_id (ai : action_info) : str := gha_job_id (ai_name ai).

Definition approval_parts : pipeline_parts :=
  Eval vm_compute in
    match parse_pipeline approval_pipeline with
    | Ok parts => parts
    | Raise _ => build_then_deploy_parts
    end.

(** What a composite action can show of one condition of a stage's post
    block: the artifacts to keep and the commands to run. *)
Definition post_view (post_info : dict post_data) (kind : string)
  : option str * option (list str) :=
  match dict_get (txt kind) post_info with
  | Some pdata => (post_archive pdata, post_commands pdata)
  | None => (None, None)
  end.

(** The input names a step hands to the action it uses. *)
Definition with_keys (s : step) : list str :=
  match step_with s with
  | Some w => dict_keys w
  | None => []
  end.

Definition post_with_cleanup : dict post_data :=
  [(txt "always",
    {| post_archive := Some (txt "out/*.log"); post_commands := None;
       post_mail_to := Some (txt "team@example.org") |});
   (txt "cleanup",
    {| post_archive := None; post_commands := Some [txt "rm -rf out"];
       post_mail_to := None |})].

Definition post_archive_only : dict post_data :=
  [(txt "always",
    {| post_archive := Some (txt "out/*.log"); post_commands := None;
       post_mail_to := None |})].

(** What the jobs of a stage need, told from the stage before it: the
    job of a sequential stage; all branches of a parallel group, for a
    sequential stage; the last branch only, for another parallel group. *)
Definition needs_after (stg next : stage) : list str :=
  match extract_parallel (stage_content stg) with
  | [] => [gha_job_id (stage_name stg)]
  | (_ :: _) as branches =>
    let ids := map (fun s => gha_job_id (stage_name s)) branches in
    match extract_parallel (stage_content next) with
    | [] => ids
    | _ :: _ => match last_error ids with Some u => [u] | None => [] end
    end
  end.

(** The characters of a secret name: upper-case letters, digits and the
    underscore. *)
Definition is_secret_ch (c : ascii) : bool :=
  is_upper_az c || is_digit c || (code c =? 95).

(** The [ref] input of a checkout step. *)
Definition step_ref (s : step) : option str :=
  match step_with s with
  | Some w => dict_get (txt "ref") w
  | None => None
  end.

Definition no_dollar (c : ascii) : bool := negb (ch_eqb "$"%char c).

Definition release_branch_checkout : git_step :=
  {| git_branch := txt "release/${params.VERSION}";
     git_url := txt "owner/repo";
     git_credentialsId := txt "deploy-key" |}.

(** Whether a pattern holds the group [n]. *)
Fixpoint sets_group (n : nat) (r : regex) : bool :=
  match r with
  | Lit _ | Cls _ | Rep _ _ _ _ | WordB | Ref _ => false
  | Cat r1 r2 | Alt r1 r2 => sets_group n r1 || sets_group n r2
  | Opt r1 => sets_group n r1
  | Grp m r1 => (n =? m) || sets_group n r1
  end.

(** A name of the form [[A-Za-z_][A-Za-z0-9_]*]. *)
Definition is_identifier (s : str) : bool :=
  match s with
  | c :: rest => is_ident_start c && forallb is_ident_ch rest
  | [] => false
  end.

Definition colliding_stage_names : str :=
  txt "pipeline { agent any stages { stage('Build') { steps { sh 'make' } } stage('Build!') { steps { sh 'make more' } } stage('Test') { steps { sh 'make test' } } } }".

(** The job ids of a workflow, each with the actions its steps use. *)
Definition uses_view (runner : Type) (r : result (conversion runner))
  : list (str * list (option str)) :=
  match r with
  | Ok c => map (fun j => (fst j, map step_uses (job_steps (snd j)))) (wf_jobs (conv_workflow c))
  | Raise _ => []
  end.

(** * Properties *)

(** ** The matcher *)

Lemma ch_eqb_eq (a b : ascii) : ch_eqb a b = true <-> a = b.
Proof. apply Ascii.eqb_eq. Qed.

Lemma str_eqb_eq (a : str) : forall b, str_eqb a b = true <-> a = b.
Proof.
  induction a as [|x a IH]; intros [|y b]; simpl; split; intro H;
    try reflexivity; try discriminate.
  - apply andb_true_iff in H. destruct H as [H1 H2].
    apply ch_eqb_eq in H1. apply IH in H2. congruence.
  - inversion H; subst. apply andb_true_iff. split.
    + now apply ch_eqb_eq.
    + now apply IH.
Qed.

Lemma str_eqb_refl (a : str) : str_eqb a a = true.
Proof. now apply str_eqb_eq. Qed.

Lemma str_eqb_neq (a b : str) : str_eqb a b = false <-> a <> b.
Proof.
  split; intro H.
  - intro E. apply str_eqb_eq in E. congruence.
  - destruct (str_eqb a b) eqn:E; [|reflexivity].
    apply str_eqb_eq in E. contradiction.
Qed.

Lemma strip_prefix_app (l : str) : forall s s',
  strip_prefix l s = Some s' -> s = l ++ s'.
Proof.
  induction l as [|x l IH]; intros s s' H; simpl in H.
  - now inversion H.
  - destruct s as [|y s]; [discriminate|].
    destruct (ch_eqb x y) eqn:E; [|discriminate].
    apply ch_eqb_eq in E. subst y. simpl. f_equal. now apply IH.
Qed.

Lemma advances_refl i s : advances i s i s.
Proof. unfold advances. lia. Qed.

Lemma advances_trans i s i1 s1 i2 s2 :
  advances i s i1 s1 -> advances i1 s1 i2 s2 -> advances i s i2 s2.
Proof. unfold advances. lia. Qed.

Lemma rep_match_inv (R : Type) (greedy : bool) (p : ascii -> bool) (s : str) :
  forall lo hi i pv (k : kont R) x,
  rep_match greedy p lo hi i pv s k = Some x ->
  exists i' pv' s', advances i s i' s' /\ k i' pv' s' = Some x.
Proof.
  induction s as [|c s IH]; intros lo hi i pv k x H.
  - simpl in H.
    assert (Hk : k i pv [] = Some x).
    { destruct greedy, lo, hi as [[|h]|]; simpl in H;
        try destruct (k i pv []); congruence. }
    exists i, pv, []. split; [apply advances_refl | exact Hk].
  - simpl in H.
    assert (Hcases :
      (lo = 0 /\ k i pv (c :: s) = Some x) \/
      (p c = true /\
       rep_match greedy p (pred lo) (option_map pred hi) (S i) (Some c) s k = Some x)).
    { destruct (p c); destruct hi as [[|h]|]; destruct greedy; destruct lo;
        simpl in H;
        repeat match type of H with
        | match ?e with Some _ => _ | None => _ end = _ =>
          let E := fresh "E" in destruct e eqn:E
        end; try discriminate; try (inversion H; subst); auto. }
    destruct Hcases as [[_ Hk] | [_ Hr]].
    + exists i, pv, (c :: s). split; [apply advances_refl | exact Hk].
    + apply IH in Hr. destruct Hr as (i' & pv' & s' & Ha & Hk).
      exists i', pv', s'. split; [|exact Hk].
      unfold advances in *. simpl. lia.
Qed.

Lemma rmatch_inv (R : Type) (text : str) (r : regex) :
  forall i pv s g (k : gkont R) x,
  rmatch text r i pv s g k = Some x ->
  exists i' pv' s' g', advances i s i' s' /\ k i' pv' s' g' = Some x.
Proof.
  induction r as [l|p|greedy lo hi p| |r1 IH1 r2 IH2|r1 IH1 r2 IH2|r1 IH1|n r1 IH1|n];
    intros i pv s g k x H; simpl in H.
  - destruct (strip_prefix l s) as [s'|] eqn:E; [|discriminate].
    apply strip_prefix_app in E. subst s.
    exists (i + length l), (last_ch pv l), s', g. split; [|exact H].
    unfold advances. rewrite length_app. lia.
  - destruct s as [|c s]; [discriminate|].
    destruct (p c); [|discriminate].
    exists (S i), (Some c), s, g. split; [|exact H].
    unfold advances. simpl. lia.
  - apply rep_match_inv in H. destruct H as (i' & pv' & s' & Ha & Hk).
    now exists i', pv', s', g.
  - destruct (xorb _ _); [|discriminate].
    exists i, pv, s, g. split; [apply advances_refl | exact H].
  - apply IH1 in H. destruct H as (i1 & pv1 & s1 & g1 & Ha1 & H).
    apply IH2 in H. destruct H as (i2 & pv2 & s2 & g2 & Ha2 & H).
    exists i2, pv2, s2, g2. split; [|exact H].
    eapply advances_trans; eassumption.
  - destruct (rmatch text r1 i pv s g k) eqn:E.
    + inversion H; subst. now apply IH1 in E.
    + now apply IH2 in H.
  - destruct (rmatch text r1 i pv s g k) eqn:E.
    + inversion H; subst. now apply IH1 in E.
    + exists i, pv, s, g. split; [apply advances_refl | exact H].
  - apply IH1 in H. destruct H as (i1 & pv1 & s1 & g1 & Ha1 & H).
    now exists i1, pv1, s1, (set_cap n (i, i1) g1).
  - destruct (get_cap n g) as [sp|]; [|discriminate].
    destruct (strip_prefix (substr text sp) s) as [s'|] eqn:E; [|discriminate].
    apply strip_prefix_app in E. subst s.
    exists (i + length (substr text sp)), (last_ch pv (substr text sp)), s', g.
    split; [|exact H]. unfold advances. rewrite length_app. lia.
Qed.

Lemma match_here_bounds (text : str) (r : regex) i pv s m :
  match_here text r i pv s = Some m ->
  m_start m = i /\ i <= m_end m /\ m_end m <= i + length s.
Proof.
  unfold match_here. intros H. apply rmatch_inv in H.
  destruct H as (i' & pv' & s' & g' & [Hle Hlen] & Hk).
  inversion Hk; subst; simpl. lia.
Qed.



Lemma finditer_from_sorted (text : str) (r : regex) (s : str) : forall skip i pv,
  Forall (fun m => i + skip <= m_start m) (finditer_from text r skip i pv s) /\
  StronglySorted precedes (finditer_from text r skip i pv s).
Proof.
  induction s as [|c s IH]; intros skip i pv.
  - destruct skip; simpl.
    + destruct (match_here text r i pv []) eqn:E.
      * apply match_here_bounds in E.
        split; repeat constructor. lia.
      * split; constructor.
    + split; constructor.
  - destruct skip as [|n]; simpl.
    + destruct (match_here text r i pv (c :: s)) as [m|] eqn:E.
      * apply match_here_bounds in E. destruct E as (Es & Ee & _).
        destruct (IH (pred (m_end m - i)) (S i) (Some c)) as [Hall Hs].
        split.
        -- constructor; [lia|].
           eapply Forall_impl; [|exact Hall]. simpl. intros; lia.
        -- constructor; [exact Hs|].
           eapply Forall_impl; [|exact Hall]. unfold precedes. intros; lia.
      * destruct (IH 0 (S i) (Some c)) as [Hall Hs]. split; [|exact Hs].
        eapply Forall_impl; [|exact Hall]. simpl. intros; lia.
    + destruct (IH n (S i) (Some c)) as [Hall Hs]. split; [|exact Hs].
      eapply Forall_impl; [|exact Hall]. simpl. intros; lia.
Qed.

Lemma re_finditer_sorted (r : regex) (text : str) :
  StronglySorted precedes (re_finditer r text).
Proof. apply finditer_from_sorted. Qed.

Lemma re_finditer_starts_sorted (r : regex) (text : str) :
  StronglySorted lt (map m_start (re_finditer r text)).
Proof.
  generalize (re_finditer_sorted r text).
  induction 1 as [|m l Hs IH Hall]; simpl; constructor; [exact IH|].
  apply Forall_map. eapply Forall_impl; [|exact Hall].
  unfold precedes. intros; lia.
Qed.

(** ** The matcher on known results of Python's [re] *)

Example findall_list_entries :
  groups1 re_cred_entry (txt "'key-a', 'key-b'") = [txt "key-a"; txt ", "; txt "key-b"].
Proof. vm_compute. reflexivity. Qed.

Example finditer_git_steps :
  finditer_view re_git_step
    (txt "git branch: 'main', url: 'o/r' git  credentialsId: 'c' xgit url:'u'") =
  [(0, 31, (Some (txt "main"), Some (txt "o/r"), None));
   (31, 54, (None, None, Some (txt "c")));
   (56, 67, (None, Some (txt "u"), None))].
Proof. vm_compute. reflexivity. Qed.

Example finditer_lazy_triple_quoted :
  finditer_view re_sh_triple (txt "sh '''a" ++ newline ++ txt "b''' sh '''c' d''' ") =
  [(0, 12, (Some (txt "'''"), Some (txt "a" ++ newline ++ txt "b"), None));
   (13, 26, (Some (txt "'''"), Some (txt "c' d"), None))].
Proof. vm_compute. reflexivity. Qed.

Example finditer_docker_build :
  finditer_view re_docker_build
    (txt "docker build -t img:1 ." ++ newline ++ txt "docker build x") =
  [(0, 23, (Some (txt "img:1"), Some (txt "."), None));
   (24, 38, (Some (txt "x"), None, None))].
Proof. vm_compute. reflexivity. Qed.

Example search_word_boundary :
  option_map m_start (re_search (kw "any") (txt "many any_ any")) = Some 10 /\
  option_map m_start (re_search (kw "any") (txt "x any")) = Some 2.
Proof. vm_compute. split; reflexivity. Qed.

Example sub_block_comments :
  re_sub re_block_comment [] (txt "a/*x*/b/*y" ++ newline ++ txt "z*/c/*") = txt "abc/*".
Proof. vm_compute. reflexivity. Qed.

Example sub_line_comments :
  re_sub re_line_comment []
    (txt "a // b" ++ newline ++ txt "c 'http://x' d" ++ newline)
  = txt "a " ++ newline ++ txt "c 'http:" ++ newline.
Proof. vm_compute. reflexivity. Qed.

Example match_env_line :
  option_map (match_view (txt "KEY =  'v'  ")) (re_match re_env_line (txt "KEY =  'v'  ")) =
  Some (0, 12, (Some (txt "KEY"), Some (txt "'v'  "), None)).
Proof. vm_compute. reflexivity. Qed.

Example job_id_of_name : gha_job_id (txt "  Build & Test!! ") = txt "build-test".
Proof. vm_compute. reflexivity. Qed.

Example splitlines_boundaries :
  splitlines (txt "a" ++ [ascii_of_nat 13; ascii_of_nat 10] ++ txt "b" ++ [ascii_of_nat 13]
              ++ txt "c" ++ newline ++ newline ++ txt "d" ++ newline)
  = [txt "a"; txt "b"; txt "c"; []; txt "d"].
Proof. vm_compute. reflexivity. Qed.

Example str_of_nat_decimal :
  map str_of_nat [0; 7; 10; 123] = [txt "0"; txt "7"; txt "10"; txt "123"].
Proof. vm_compute. reflexivity. Qed.

(** ** Dictionaries *)

Section DictFacts.

Variable V : Type.

Lemma dict_get_set_eq (k : str) (v : V) (d : dict V) :
  dict_get k (dict_set k v d) = Some v.
Proof.
  induction d as [|[k' v'] d IH]; simpl.
  - now rewrite str_eqb_refl.
  - destruct (str_eqb k k') eqn:E; simpl; rewrite E; [reflexivity | exact IH].
Qed.

Lemma dict_get_set_ne (k k' : str) (v : V) (d : dict V) :
  k <> k' -> dict_get k' (dict_set k v d) = dict_get k' d.
Proof.
  intros Hne. induction d as [|[k0 v0] d IH]; simpl.
  - apply str_eqb_neq in Hne.
    destruct (str_eqb k' k) eqn:E; [|reflexivity].
    apply str_eqb_eq in E. subst. now rewrite str_eqb_refl in Hne.
  - destruct (str_eqb k k0) eqn:E; simpl.
    + apply str_eqb_eq in E. subst k0.
      assert (E' : str_eqb k' k = false) by (apply str_eqb_neq; congruence).
      now rewrite E'.
    + now rewrite IH.
Qed.

Lemma dict_get_In (k : str) (d : dict V) (v : V) :
  dict_get k d = Some v -> In (k, v) d.
Proof.
  induction d as [|[k' v'] d IH]; simpl; [discriminate|].
  destruct (str_eqb k k') eqn:E.
  - apply str_eqb_eq in E. intros H; inversion H; subst. now left.
  - intros H. right. now apply IH.
Qed.

Lemma dict_get_None (k : str) (d : dict V) :
  dict_get k d = None <-> ~ In k (dict_keys d).
Proof.
  induction d as [|[k' v'] d IH]; simpl.
  - split; auto.
  - destruct (str_eqb k k') eqn:E.
    + apply str_eqb_eq in E. subst. split; [discriminate | intros H; exfalso; auto].
    + apply str_eqb_neq in E. rewrite IH. split; intros H.
      * intros [H1|H1]; [congruence | contradiction].
      * intros H1. apply H. now right.
Qed.

Lemma dict_keys_set (k : str) (v : V) (d : dict V) :
  dict_keys (dict_set k v d) =
  if dict_mem k d then dict_keys d else dict_keys d ++ [k].
Proof.
  unfold dict_mem. induction d as [|[k' v'] d IH]; simpl; [reflexivity|].
  destruct (str_eqb k k') eqn:E; simpl; [reflexivity|].
  rewrite IH. now destruct (dict_get k d).
Qed.

Lemma dict_mem_In (k : str) (d : dict V) :
  dict_mem k d = true <-> In k (dict_keys d).
Proof.
  unfold dict_mem. destruct (dict_get k d) eqn:E.
  - split; [intros _|reflexivity].
    apply dict_get_In in E. apply (in_map fst) in E. exact E.
  - apply dict_get_None in E. split; [discriminate | contradiction].
Qed.

Lemma dict_set_NoDup (k : str) (v : V) (d : dict V) :
  NoDup (dict_keys d) -> NoDup (dict_keys (dict_set k v d)).
Proof.
  intros H. rewrite dict_keys_set. destruct (dict_mem k d) eqn:E; [exact H|].
  apply NoDup_app; [exact H | repeat constructor; auto |].
  intros x Hx [<-|[]]. apply dict_mem_In in Hx. congruence.
Qed.

Lemma fold_dict_set_NoDup (l : list (str * V)) : forall d,
  NoDup (dict_keys d) ->
  NoDup (dict_keys (fold_left (fun d a => dict_set (fst a) (snd a) d) l d)).
Proof.
  induction l as [|a l IH]; intros d H; simpl; [exact H|].
  apply IH. now apply dict_set_NoDup.
Qed.

(** After a run of assignments a key holds what was assigned to it
    last, or what it held before when the run never names it. *)
Lemma fold_dict_set_get (k : str) (l : list (str * V)) : forall d,
  dict_get k (fold_left (fun d a => dict_set (fst a) (snd a) d) l d) =
  match last_assigned k l with
  | Some v => Some v
  | None => dict_get k d
  end.
Proof.
  unfold last_assigned.
  induction l as [|[k' v'] l IH] using rev_ind; intros d; [reflexivity|].
  rewrite fold_left_app, rev_app_distr. simpl.
  destruct (str_eqb k k') eqn:E.
  - apply str_eqb_eq in E. subst. apply dict_get_set_eq.
  - apply str_eqb_neq in E. rewrite dict_get_set_ne by congruence. apply IH.
Qed.

End DictFacts.

(** ** The brace block locator *)

Lemma scan_block_spec (s : str) : forall i d j,
  scan_block s i d = Some j ->
  exists n, j = i + n /\ n < length s /\
    d + count_ch "{" (firstn n s) = count_ch "}" (firstn n s).
Proof.
  induction s as [|c s IH]; intros i d j H; simpl in H; [discriminate|].
  unfold count_ch in *.
  destruct (is_open c) eqn:Ho.
  - apply IH in H. destruct H as (n & -> & Hn & Hc).
    exists (S n). simpl. unfold is_open in Ho. rewrite Ho.
    destruct (ch_eqb c "}") eqn:Hc'.
    + unfold ch_eqb in *. apply Ascii.eqb_eq in Ho, Hc'. congruence.
    + simpl. repeat split; lia.
  - destruct (is_close c) eqn:Hcl.
    + destruct d as [|d].
      * inversion H; subst. exists 0. simpl. repeat split; lia.
      * apply IH in H. destruct H as (n & -> & Hn & Hc).
        exists (S n). simpl. unfold is_open, is_close in *. rewrite Ho, Hcl.
        simpl. repeat split; lia.
    + apply IH in H. destruct H as (n & -> & Hn & Hc).
      exists (S n). simpl. unfold is_open, is_close in *. rewrite Ho, Hcl.
      repeat split; lia.
Qed.

Lemma slice_nat (text : str) (a n : nat) :
  a + n <= length text ->
  slice text (Z.of_nat a) (Z.of_nat (a + n)) = firstn n (skipn a text).
Proof.
  intros H. unfold slice, norm_index.
  destruct (Z.ltb_spec (Z.of_nat a) 0); [lia|].
  destruct (Z.ltb_spec (Z.of_nat (a + n)) 0); [lia|].
  rewrite !Z.min_l by lia.
  replace (Z.to_nat (Z.of_nat (a + n) - Z.of_nat a)) with n by lia.
  now rewrite Nat2Z.id.
Qed.

(** C2. Whenever [find_block] returns a span other than the sentinel
    [(-1, -1)], the span lies inside the text, [0 <= start <= end <= len],
    and the content between its bounds holds as many opening as
    closing braces. *)
Theorem find_block_span_balanced (text : str) (start_pat : regex) (s e : Z) :
  find_block text start_pat = (s, e) ->
  (s, e) <> not_found ->
  (0 <= s <= e /\ e <= Z.of_nat (length text))%Z /\
  count_ch "{" (slice text s e) = count_ch "}" (slice text s e).
Proof.
  unfold find_block. intros H Hnf.
  destruct (re_search start_pat text) as [m|]; [|congruence].
  cbv zeta in H.
  set (i := skip_space (skipn (m_end m) text) (m_end m)) in *.
  destruct (nth_error text i) as [c|] eqn:Hc; [|congruence].
  destruct (is_open c); [|congruence].
  assert (Hi : i < length text) by (apply nth_error_Some; congruence).
  remember (S i) as start eqn:Est.
  destruct (scan_block (skipn start text) start 0) as [j|] eqn:Hs; [|congruence].
  apply scan_block_spec in Hs. destruct Hs as (n & -> & Hn & Hcnt).
  rewrite length_skipn in Hn.
  injection H as <- <-.
  rewrite slice_nat by lia.
  split; [lia|]. exact Hcnt.
Qed.

Lemma find_block_span_balanced_witness :
  (0 <= 10 <= 21 /\ 21 <= Z.of_nat (length (txt "pipeline { a { b } c } d")))%Z /\
  count_ch "{" (slice (txt "pipeline { a { b } c } d") 10 21) =
  count_ch "}" (slice (txt "pipeline { a { b } c } d") 10 21).
Proof.
  apply (@find_block_span_balanced (txt "pipeline { a { b } c } d") (kw "pipeline") 10 21).
  - vm_compute. reflexivity.
  - discriminate.
Defined.

(** ** The stage splitter *)

Lemma scan_block_close (s : str) : forall i d j,
  scan_block s i d = Some j ->
  exists n, j = i + n /\ nth_error s n = Some "}"%char.
Proof.
  induction s as [|c s IH]; intros i d j H; simpl in H; [discriminate|].
  destruct (is_open c).
  - apply IH in H. destruct H as (n & -> & Hn). exists (S n). split; [lia | exact Hn].
  - destruct (is_close c) eqn:Hc.
    + destruct d as [|d].
      * inversion H; subst. exists 0. split; [lia|].
        unfold is_close in Hc. apply ch_eqb_eq in Hc. now subst.
      * apply IH in H. destruct H as (n & -> & Hn). exists (S n). split; [lia | exact Hn].
    + apply IH in H. destruct H as (n & -> & Hn). exists (S n). split; [lia | exact Hn].
Qed.






(** Two closed stages and a third that never closes: the two come back. *)
Lemma split_stages_drops_open_stage :
  map (fun s => (stage_name s, stage_content s)) (split_stages two_stages_one_open) =
  [(txt "Build", txt " sh 'make' "); (txt "Test", txt " sh 'check' ")].
Proof. vm_compute. reflexivity. Qed.

(** ** Comments *)

Lemma match_here_lit_fails (text : str) (l : str) (r : regex) i pv s :
  strip_prefix l s = None ->
  match_here text (Cat (Lit l) r) i pv s = None.
Proof. intros H. unfold match_here. cbn [rmatch]. now rewrite H. Qed.

Lemma startswith_false (p s : str) :
  startswith p s = false <-> strip_prefix p s = None.
Proof. unfold startswith. destruct (strip_prefix p s); split; congruence. Qed.

(** A pattern that starts with a literal the text does not contain
    leaves the text as it is. *)
Lemma sub_from_absent (text : str) (l : str) (r : regex) (repl : str) (s : str) :
  forall i pv,
  contains l s = false ->
  sub_from text (Cat (Lit l) r) repl 0 i pv s = s.
Proof.
  induction s as [|c s IH]; intros i pv H; simpl in H;
    apply orb_false_iff in H; destruct H as [H1 H2];
    apply startswith_false in H1; cbn [sub_from];
    rewrite (@match_here_lit_fails text l r i pv _ H1); [reflexivity|].
  f_equal. now apply IH.
Qed.

Lemma rep_match_greedy_all (R : Type) (p : ascii -> bool) (s : str) :
  forall i pv (k : kont R),
  forallb p s = true ->
  (forall pv', k (i + length s) pv' [] <> None) ->
  exists pv', rep_match true p 0 None i pv s k = k (i + length s) pv' [].
Proof.
  induction s as [|c s IH]; intros i pv k Hp Hk.
  - exists pv. simpl. now rewrite Nat.add_0_r.
  - simpl in Hp. apply andb_true_iff in Hp. destruct Hp as [Hc Hp].
    destruct (IH (S i) (Some c) k Hp) as [pv' E].
    { intros pv'. replace (S i + length s) with (i + length (c :: s)) by (simpl; lia).
      apply Hk. }
    exists pv'. cbn [rep_match]. rewrite Hc. cbn [pred option_map].
    rewrite E. replace (i + length (c :: s)) with (S i + length s) by (simpl; lia).
    destruct (k (S i + length s) pv' []) eqn:Ek; [reflexivity|].
    exfalso. apply (Hk pv'). simpl. now rewrite <- plus_n_Sm.
Qed.

Lemma line_comment_skip (text : str) (s : str) : forall i pv,
  sub_from text re_line_comment [] (length s) i pv s = [].
Proof.
  induction s as [|c s IH]; intros i pv; [reflexivity|].
  cbn [length sub_from]. apply IH.
Qed.

Lemma line_comment_to_end (text : str) (rest : str) i pv :
  forallb not_newline rest = true ->
  sub_from text re_line_comment [] 0 i pv (txt "//" ++ rest) = [].
Proof.
  intros Hr. change (txt "//" ++ rest) with ("/"%char :: "/"%char :: rest).
  cbn [sub_from].
  assert (Hm : exists m, match_here text re_line_comment i pv ("/"%char :: "/"%char :: rest)
                         = Some m /\ m_end m = i + 2 + length rest).
  { unfold match_here, re_line_comment, star, L. cbn [rmatch].
    change (strip_prefix (txt "//") ("/"%char :: "/"%char :: rest)) with (Some rest).
    cbv beta iota.
    edestruct (@rep_match_greedy_all rmatch_obj not_newline rest (i + length (txt "//"))
                 (last_ch pv (txt "//"))) as [pv' E]; [exact Hr| |].
    2:{ rewrite E. eexists. split; [reflexivity|]. reflexivity. }
    intros pv'. discriminate. }
  destruct Hm as (m & -> & He). rewrite He.
  replace (i + 2 + length rest - i) with (S (length ("/"%char :: rest))) by (simpl; lia).
  cbn [app]. apply line_comment_skip.
Qed.

Lemma line_comment_cut (text : str) (pre rest : str) : forall i pv,
  forallb no_slash pre = true ->
  forallb not_newline rest = true ->
  sub_from text re_line_comment [] 0 i pv (pre ++ txt "//" ++ rest) = pre.
Proof.
  induction pre as [|c pre IH]; intros i pv Hp Hr.
  - now apply line_comment_to_end.
  - simpl in Hp. apply andb_true_iff in Hp. destruct Hp as [Hc Hp].
    cbn [app sub_from]. unfold re_line_comment at 1.
    rewrite match_here_lit_fails.
    + f_equal. now apply IH.
    + unfold L. change (txt "//") with ["/"%char; "/"%char]. cbn [strip_prefix].
      unfold no_slash in Hc. unfold ch_eqb in *.
      rewrite Ascii.eqb_sym. now destruct (Ascii.eqb c "/").
Qed.

Lemma rep_match_greedy_span (R : Type) (p : ascii -> bool) (s : str) :
  forall i pv (k : kont R),
  (forall i' pv' s', k i' pv' s' <> None) ->
  exists pv', rep_match true p 0 None i pv s k = k (i + span p s) pv' (skipn (span p s) s).
Proof.
  induction s as [|c s IH]; intros i pv k Hk.
  - exists pv. simpl. now rewrite Nat.add_0_r.
  - cbn [rep_match span]. destruct (p c) eqn:Hc.
    + destruct (IH (S i) (Some c) k Hk) as [pv' E].
      exists pv'. cbn [pred option_map skipn]. rewrite E.
      replace (i + S (span p s)) with (S i + span p s) by lia.
      destruct (k (S i + span p s) pv' (skipn (span p s) s)) eqn:Ek; [reflexivity|].
      exfalso. eapply Hk. exact Ek.
    + exists pv. cbn [skipn]. now rewrite Nat.add_0_r.
Qed.

Lemma match_here_line_comment (text : str) (tail : str) i pv :
  exists m,
    match_here text re_line_comment i pv ("/"%char :: "/"%char :: tail) = Some m /\
    m_end m = i + 2 + span not_newline tail.
Proof.
  unfold match_here, re_line_comment, star, L. cbn [rmatch].
  change (strip_prefix (txt "//") ("/"%char :: "/"%char :: tail)) with (Some tail).
  cbv beta iota.
  edestruct (@rep_match_greedy_span rmatch_obj not_newline tail (i + length (txt "//"))
               (last_ch pv (txt "//"))) as [pv' E].
  2:{ rewrite E. eexists. split; reflexivity. }
  intros i' pv'' s'. discriminate.
Qed.

(** The line-comment pass is [without_line_comments], wherever in a text
    it runs. *)
Lemma line_pass_spec (text : str) (s : str) : forall i pv,
  sub_from text re_line_comment [] 0 i pv s = without_line_comments false s /\
  sub_from text re_line_comment [] (span not_newline s) i pv s
    = without_line_comments true s.
Proof.
  induction s as [|c s IH]; intros i pv.
  - split; reflexivity.
  - assert (Hfalse : startswith (txt "//") (c :: s) = false ->
              sub_from text re_line_comment [] 0 i pv (c :: s)
              = c :: without_line_comments false s).
    { intros Hs. apply startswith_false in Hs. cbn [sub_from].
      unfold re_line_comment at 1, L.
      rewrite (@match_here_lit_fails text _ _ i pv _ Hs).
      f_equal. exact (proj1 (IH (S i) (Some c))). }
    split.
    + cbn [without_line_comments].
      destruct (startswith (txt "//") (c :: s)) eqn:Hs; [|now apply Hfalse].
      unfold startswith in Hs.
      destruct (strip_prefix (txt "//") (c :: s)) as [tail|] eqn:Ep; [|discriminate].
      apply strip_prefix_app in Ep. change (txt "//" ++ tail) with ("/"%char :: "/"%char :: tail) in Ep.
      injection Ep as -> ->.
      cbn [sub_from].
      destruct (match_here_line_comment text tail i pv) as (m & -> & He).
      rewrite He. replace (i + 2 + span not_newline tail - i)
        with (S (span not_newline ("/"%char :: tail))) by (simpl; lia).
      cbn [app]. exact (proj2 (IH (S i) (Some "/"%char))).
    + cbn [span without_line_comments]. destruct (not_newline c) eqn:Hc.
      * cbn [sub_from]. exact (proj2 (IH (S i) (Some c))).
      * rewrite Hfalse; [reflexivity|].
        unfold startswith. change (txt "//") with ["/"%char; "/"%char]. cbn [strip_prefix].
        destruct (ch_eqb "/" c) eqn:E; [|reflexivity].
        apply ch_eqb_eq in E. subst c. discriminate.
Qed.

Lemma without_line_comments_to_newline (rest post : str) :
  forallb not_newline rest = true ->
  without_line_comments true (rest ++ newline ++ post)
  = newline ++ without_line_comments false post.
Proof.
  induction rest as [|c rest IH]; intros H.
  - reflexivity.
  - simpl in H. apply andb_true_iff in H. destruct H as [Hc Hr].
    cbn [app without_line_comments]. rewrite Hc. now apply IH.
Qed.

Lemma without_line_comments_cut (pre rest post : str) :
  forallb no_slash pre = true ->
  forallb not_newline rest = true ->
  without_line_comments false (pre ++ txt "//" ++ rest ++ newline ++ post)
  = pre ++ newline ++ without_line_comments false post.
Proof.
  intros Hp Hr. induction pre as [|c pre IH].
  - change (without_line_comments false ([] ++ txt "//" ++ rest ++ newline ++ post))
      with (without_line_comments true (rest ++ newline ++ post)).
    now apply without_line_comments_to_newline.
  - simpl in Hp. apply andb_true_iff in Hp. destruct Hp as [Hc Hp].
    cbn [app without_line_comments].
    assert (Hs : startswith (txt "//") (c :: pre ++ txt "//" ++ rest ++ newline ++ post)
                 = false).
    { unfold startswith. change (txt "//") with ["/"%char; "/"%char]. cbn [strip_prefix].
      unfold no_slash in Hc. unfold ch_eqb in *. rewrite Ascii.eqb_sym.
      now destruct (Ascii.eqb c "/"). }
    rewrite Hs. f_equal. now apply IH.
Qed.

(** C10. The comment stripper takes two slashes for the start of a
    comment wherever they stand: on a text without block comments it is
    [without_line_comments], which knows nothing of quotes, so the rest of
    the line is gone whatever stands before the slashes, quote characters
    included.  For a checkout step with a quoted https URL this loses the
    step: the raw stage body holds a git step for the repository, the
    converted pipeline has no step that names a repository, and the
    conversion cannot tell the URL from any other that begins the same
    way. *)
Theorem strip_comments_cuts_quoted_text :
  (forall text : str,
     contains (txt "/*") text = false ->
     strip_comments text = without_line_comments false text) /\
  (forall pre rest post : str,
     forallb no_slash pre = true ->
     forallb not_newline rest = true ->
     contains (txt "/*") (pre ++ txt "//" ++ rest ++ newline ++ post) = false ->
     strip_comments (pre ++ txt "//" ++ rest ++ newline ++ post)
     = pre ++ strip_comments (newline ++ post)) /\
  (forall pre rest : str,
     forallb no_slash pre = true ->
     forallb not_newline rest = true ->
     contains (txt "/*") (pre ++ txt "//" ++ rest) = false ->
     strip_comments (pre ++ txt "//" ++ rest) = pre) /\
  (forall (runner : Type) (map_label_to_runs_on : str -> runner),
     map git_url (extract_git_steps (git_url_stage_body repo_url)) = [repo_url] /\
     map has_repository
       (convert_git_steps_to_actions (extract_git_steps (git_url_stage_body repo_url)))
       = [true] /\
     (exists c,
        convert_jenkins_to_gha map_label_to_runs_on (git_url_pipeline repo_url) = Ok c /\
        existsb has_repository (all_steps c) = false) /\
     convert_jenkins_to_gha map_label_to_runs_on (git_url_pipeline repo_url) =
     convert_jenkins_to_gha map_label_to_runs_on (git_url_pipeline other_url)).
Proof.
  assert (HA : forall text : str,
            contains (txt "/*") text = false ->
            strip_comments text = without_line_comments false text).
  { intros text Hb. unfold strip_comments, re_sub.
    unfold re_block_comment, L. rewrite sub_from_absent by exact Hb.
    apply line_pass_spec. }
  split; [exact HA|]. split; [|split].
  - intros pre rest post Hp Hr Hb. rewrite HA by exact Hb.
    rewrite without_line_comments_cut by assumption.
    f_equal. rewrite HA; [reflexivity|].
    assert (Hsuffix : forall a b : str, contains (txt "/*") (a ++ b) = false ->
                                    contains (txt "/*") b = false).
    { intros a b. induction a as [|x a IHa]; intros H; [exact H|].
      cbn [app contains] in H. apply orb_false_iff in H. now apply IHa. }
    apply (Hsuffix (pre ++ txt "//" ++ rest)). now rewrite <- !app_assoc.
  - intros pre rest Hp Hr Hb. unfold strip_comments, re_sub.
    unfold re_block_comment, L. rewrite sub_from_absent by exact Hb.
    now apply line_comment_cut.
  - intros runner f. split; [vm_compute; reflexivity|].
    split; [vm_compute; reflexivity|]. split.
    + eexists. split; [vm_compute; reflexivity|]. vm_compute. reflexivity.
    + vm_compute. reflexivity.
Qed.

Lemma strip_comments_cuts_quoted_text_witness :
  strip_comments (txt "git url: 'https:" ++ txt "//" ++ txt "github.com/owner/repo.git'")
  = txt "git url: 'https:".
Proof.
  apply (proj1 (proj2 (proj2 strip_comments_cuts_quoted_text))); vm_compute; reflexivity.
Defined.

(** ** Shell and echo steps *)

Lemma flat_map_snd_map (A B C : Type) (f : A -> B) (g : A -> list C) (l : list A) :
  flat_map snd (map (fun x => (f x, g x)) l) = flat_map g l.
Proof. induction l as [|x l IH]; simpl; [reflexivity | now rewrite IH]. Qed.

Lemma extract_steps_commands_matches (stage_body : str) :
  extract_steps_commands stage_body =
  flat_map snd (steps_matches (steps_zone stage_body)).
Proof.
  unfold extract_steps_commands, steps_matches. cbv zeta. simpl app.
  rewrite !flat_map_app, !flat_map_snd_map. now rewrite app_assoc.
Qed.

(** C5, as stated, fails: the echo call stands before the sh invocation
    in the text and its command comes back after it. *)
Lemma steps_commands_not_in_textual_order :
  extract_steps_commands steps_out_of_order = [txt "second"; txt "echo first"] /\
  map fst (steps_matches (steps_zone steps_out_of_order)) = [16; 1] /\
  ~ in_textual_order steps_out_of_order.
Proof.
  assert (H : map fst (steps_matches (steps_zone steps_out_of_order)) = [16; 1])
    by (vm_compute; reflexivity).
  split; [vm_compute; reflexivity|]. split; [exact H|].
  unfold in_textual_order. rewrite H. intros Hs.
  inversion Hs as [|? ? _ Hall]; subst. inversion Hall; subst. lia.
Qed.

(** C5, amended. The commands come back grouped by form: those of the
    triple-quoted scripts, then those of the single-line sh invocations,
    then those of the echo calls; inside each group they follow the text,
    every match starting after the one before it has ended. *)
Theorem steps_commands_grouped_by_form (stage_body : str) :
  extract_steps_commands stage_body =
    flat_map (sh_triple_commands (steps_zone stage_body))
      (re_finditer re_sh_triple (steps_zone stage_body))
    ++ flat_map (sh_line_command (steps_zone stage_body))
         (re_finditer re_sh_line (steps_zone stage_body))
    ++ flat_map (echo_command (steps_zone stage_body))
         (re_finditer re_echo (steps_zone stage_body)) /\
  StronglySorted precedes (re_finditer re_sh_triple (steps_zone stage_body)) /\
  StronglySorted precedes (re_finditer re_sh_line (steps_zone stage_body)) /\
  StronglySorted precedes (re_finditer re_echo (steps_zone stage_body)).
Proof.
  split; [|repeat split; apply re_finditer_sorted].
  unfold extract_steps_commands. cbv zeta. simpl app. now rewrite <- app_assoc.
Qed.

(** ** Parameters *)

Lemma parameter_assignments_declarations (param_body : str) :
  parameter_assignments param_body = map snd (parameter_declarations param_body).
Proof.
  unfold parameter_assignments, parameter_declarations.
  now rewrite !map_app, !map_map.
Qed.

(** C9, as stated, fails: [ENV] is declared as a choice and, later in
    the text, as a string; the entry kept is the choice. *)
Lemma textually_last_declaration_lost :
  find_block duplicated_parameter (kw "parameters") = (12, 99)%Z /\
  option_map (fun d => p_type (snd d))
    (textually_last (txt "ENV")
       (parameter_declarations (slice duplicated_parameter 12 99))) = Some PString /\
  option_map p_type (dict_get (txt "ENV") (extract_parameters duplicated_parameter))
    = Some PChoice.
Proof. vm_compute. repeat split. Qed.

(** C9, amended. A parameters block yields exactly one entry for every
    name it declares, and the entry is the one assigned last in the order
    of the scan: the string declarations first, then the boolean, then
    the choice declarations, each kind in the order of the text. *)
Theorem parameters_last_scanned_wins (pipeline_body : str) (s e : Z) (name : str) :
  find_block pipeline_body (kw "parameters") = (s, e) ->
  s <> (-1)%Z ->
  let param_body := slice pipeline_body s e in
  NoDup (dict_keys (extract_parameters pipeline_body)) /\
  dict_get name (extract_parameters pipeline_body) =
    last_assigned name
      (map (string_param param_body) (re_finditer re_string_param param_body)
       ++ map (boolean_param param_body) (re_finditer re_boolean_param param_body)
       ++ map (choice_param param_body) (re_finditer re_choice_param param_body)) /\
  StronglySorted precedes (re_finditer re_string_param param_body) /\
  StronglySorted precedes (re_finditer re_boolean_param param_body) /\
  StronglySorted precedes (re_finditer re_choice_param param_body).
Proof.
  intros Hfb Hs param_body.
  unfold extract_parameters. rewrite Hfb.
  destruct (Z.eqb_spec s (-1)) as [|_]; [contradiction|].
  fold param_body. split; [|split].
  - apply fold_dict_set_NoDup. constructor.
  - rewrite fold_dict_set_get. unfold parameter_assignments.
    now destruct (last_assigned name _).
  - repeat split; apply re_finditer_sorted.
Qed.

Lemma parameters_last_scanned_wins_witness :
  NoDup (dict_keys (extract_parameters duplicated_parameter)) /\
  dict_get (txt "ENV") (extract_parameters duplicated_parameter) =
    last_assigned (txt "ENV")
      (map (string_param (slice duplicated_parameter 12 99))
         (re_finditer re_string_param (slice duplicated_parameter 12 99))
       ++ map (boolean_param (slice duplicated_parameter 12 99))
            (re_finditer re_boolean_param (slice duplicated_parameter 12 99))
       ++ map (choice_param (slice duplicated_parameter 12 99))
            (re_finditer re_choice_param (slice duplicated_parameter 12 99))) /\
  StronglySorted precedes (re_finditer re_string_param (slice duplicated_parameter 12 99)) /\
  StronglySorted precedes (re_finditer re_boolean_param (slice duplicated_parameter 12 99)) /\
  StronglySorted precedes (re_finditer re_choice_param (slice duplicated_parameter 12 99)).
Proof.
  apply (@parameters_last_scanned_wins duplicated_parameter 12 99 (txt "ENV")).
  - vm_compute. reflexivity.
  - discriminate.
Defined.

(** ** Credentials *)

(** C3 at a list of two keys: the separator between the entries comes
    back as a credential identifier. *)
Lemma sshagent_separator_extracted :
  extract_credentials_usage two_ssh_keys = [txt "key-a"; txt ","; txt "key-b"].
Proof. vm_compute. reflexivity. Qed.

(** ** Secret names *)

Lemma replace_char_from (text : str) (a b : ascii) (s : str) : forall i pv,
  sub_from text (Lit [a]) [b] 0 i pv s = map (fun c => if ch_eqb a c then b else c) s.
Proof.
  induction s as [|c s IH]; intros i pv; [reflexivity|].
  cbn [sub_from]. unfold match_here. cbn [rmatch strip_prefix].
  destruct (ch_eqb a c) eqn:E.
  - cbn [m_end length]. replace (i + 1 - i) with 1 by lia.
    cbn [map app]. rewrite E. f_equal. apply IH.
  - cbn [map]. rewrite E. f_equal. apply IH.
Qed.

Lemma replace_char (a b : ascii) (s : str) :
  replace [a] [b] s = map (fun c => if ch_eqb a c then b else c) s.
Proof. apply replace_char_from. Qed.


Lemma dict_get_opt_dict (k : str) (d : dict str) (v : str) :
  dict_get k d = Some v ->
  match opt_dict d with Some w => dict_get k w | None => None end = Some v.
Proof. destruct d; simpl; [discriminate | auto]. Qed.



(** ** Fatal conditions *)








(** ** Jobs and their dependencies *)

Section JobFacts.

Variable runner : Type.
Variable map_label_to_runs_on : str -> runner.

#[local] Abbreviation job := (job_def runner).
#[local] Abbreviation state := (loop_state runner).

Lemma update_jobs_keys (jobs : dict job) : forall action_paths,
  dict_keys (update_jobs jobs action_paths) = dict_keys jobs.
Proof.
  induction jobs as [|[k j] jobs IH]; intros [|a aps]; simpl; try reflexivity.
  now rewrite IH.
Qed.

Lemma update_jobs_needs (jobs : dict job) : forall action_paths k,
  option_map (@job_needs runner) (dict_get k (update_jobs jobs action_paths)) =
  option_map (@job_needs runner) (dict_get k jobs).
Proof.
  induction jobs as [|[k' j] jobs IH]; intros [|a aps] k; simpl; try reflexivity.
  destruct (str_eqb k k'); [reflexivity | apply IH].
Qed.

Lemma pipeline_post_job_keys post dro dc (jobs1 jobs2 : dict job) :
  dict_keys jobs1 = dict_keys jobs2 ->
  pipeline_post_job post dro dc jobs1 = pipeline_post_job post dro dc jobs2.
Proof. intros H. unfold pipeline_post_job. now rewrite H. Qed.

Lemma add_pipeline_post_other post dro dc (jobs : dict job) (k : str) :
  k <> pipeline_post_id ->
  dict_get k (add_pipeline_post post dro dc jobs) = dict_get k jobs.
Proof.
  intros Hk. unfold add_pipeline_post.
  destruct (pipeline_post_job post dro dc jobs); [|reflexivity].
  apply dict_get_set_ne. congruence.
Qed.

Section Loop.

Variable global_env : dict str.
Variable default_runs_on : runs_on runner.
Variable default_container : option container.

#[local] Abbreviation jobs_of :=
  (stage_jobs map_label_to_runs_on global_env default_runs_on default_container).
#[local] Abbreviation round :=
  (process_stage map_label_to_runs_on global_env default_runs_on default_container).
#[local] Abbreviation job_for :=
  (make_job map_label_to_runs_on global_env default_runs_on default_container).
#[local] Abbreviation assignments :=
  (assignments_from map_label_to_runs_on global_env default_runs_on default_container).

Lemma process_stage_jobs (st : state) (stg : stage) :
  ls_jobs (round st stg) = assign_jobs (jobs_of st stg) (ls_jobs st).
Proof.
  unfold process_stage. now destruct (extract_parallel (stage_content stg)).
Qed.

Lemma assign_jobs_app (a b : list (str * job)) (jobs : dict job) :
  assign_jobs (a ++ b) jobs = assign_jobs b (assign_jobs a jobs).
Proof. unfold assign_jobs. apply fold_left_app. Qed.

(** The mapping the loop leaves is the one its assignments build. *)
Lemma process_stages_jobs (stages_list : list stage) : forall st,
  ls_jobs (fold_left round stages_list st) =
  assign_jobs (assignments st stages_list) (ls_jobs st).
Proof.
  induction stages_list as [|stg rest IH]; intros st; [reflexivity|].
  cbn [fold_left assignments_from]. rewrite IH, assign_jobs_app.
  now rewrite process_stage_jobs.
Qed.

Lemma process_stage_sequential (st : state) (stg : stage) :
  extract_parallel (stage_content stg) = [] ->
  jobs_of st stg =
    [(gha_job_id (stage_name stg),
      job_for (stage_content stg)
        match ls_last_job_ids st with
        | _ :: _ => Some (NeedsIds (ls_last_job_ids st))
        | [] => if nonempty (ls_prev_job_id st)
                then Some (NeedsId (ls_prev_job_id st)) else None
        end)] /\
  ls_last_job_ids (round st stg) = [] /\
  ls_prev_job_id (round st stg) = gha_job_id (stage_name stg).
Proof.
  intros H. unfold process_stage, stage_jobs. rewrite H. repeat split.
Qed.

Lemma make_job_needs (body : str) (n : option needs) :
  job_needs (job_for body n) = n.
Proof.
  unfold make_job.
  destruct (apply_agent_to_job _ _ _ _). reflexivity.
Qed.

End Loop.

(** C8. When the stages of the pipeline are "Build" and then "Deploy",
    neither with parallel branches, the job [deploy] of the generated
    workflow depends on [build] and on nothing else. *)
Theorem deploy_needs_build (jenkins_text : str) (parts : pipeline_parts)
    (c : conversion runner) (build_body deploy_body : str) :
  parse_pipeline jenkins_text = Ok parts ->
  pp_stages_list parts =
    [{| stage_name := txt "Build"; stage_content := build_body |};
     {| stage_name := txt "Deploy"; stage_content := deploy_body |}] ->
  extract_parallel build_body = [] ->
  extract_parallel deploy_body = [] ->
  convert_jenkins_to_gha map_label_to_runs_on jenkins_text = Ok c ->
  exists jd,
    dict_get (txt "deploy") (wf_jobs (conv_workflow c)) = Some jd /\
    job_needs jd = Some (NeedsId (txt "build")) /\
    needs_ids (job_needs jd) = [txt "build"].
Proof.
  intros Hparse Hstages Hb Hd Hconv.
  unfold convert_jenkins_to_gha in Hconv. rewrite Hparse in Hconv.
  injection Hconv as <-. unfold build_workflow.
  destruct (agent_runner map_label_to_runs_on (pp_global_agent parts)) as [dro dc].
  unfold save_enhanced_composite_actions. cbn [conv_workflow wf_jobs].
  assert (Hneeds :
    option_map (@job_needs runner)
      (dict_get (txt "deploy")
         (ls_jobs (process_stages map_label_to_runs_on (pp_global_env parts) dro dc
                     (pp_stages_list parts))))
    = Some (Some (NeedsId (txt "build")))).
  { unfold process_stages. rewrite process_stages_jobs, Hstages.
    cbn [assignments_from].
    set (b := {| stage_name := txt "Build"; stage_content := build_body |}).
    set (d := {| stage_name := txt "Deploy"; stage_content := deploy_body |}).
    destruct (process_stage_sequential (pp_global_env parts) dro dc
                (initial_state runner) b Hb) as (Hj1 & Hl1 & Hp1).
    destruct (process_stage_sequential (pp_global_env parts) dro dc
                (process_stage map_label_to_runs_on (pp_global_env parts) dro dc
                   (initial_state runner) b)
                d Hd) as (Hj2 & _ & _).
    rewrite Hj1, Hj2, Hl1, Hp1. cbn [app].
    subst b d. cbn [stage_name stage_content].
    unfold assign_jobs. cbn [fold_left fst snd].
    change (gha_job_id (txt "Deploy")) with (txt "deploy").
    rewrite dict_get_set_eq. cbn [option_map]. rewrite make_job_needs.
    vm_compute. reflexivity. }
  rewrite <- update_jobs_needs with
    (action_paths := map action_metadata
       (ls_stages_info (process_stages map_label_to_runs_on (pp_global_env parts) dro dc
                          (pp_stages_list parts))))
    in Hneeds.
  rewrite <- add_pipeline_post_other with
    (post := pp_pipeline_post parts) (dro := dro) (dc := dc) in Hneeds
    by (vm_compute; discriminate).
  destruct (dict_get (txt "deploy") _) as [jd|]; [|discriminate].
  exists jd. cbn [option_map] in Hneeds. injection Hneeds as Hn.
  rewrite Hn. repeat split.
Qed.

Section Soundness.

Variable global_env : dict str.
Variable default_runs_on : runs_on runner.
Variable default_container : option container.

#[local] Abbreviation jobs_of :=
  (stage_jobs map_label_to_runs_on global_env default_runs_on default_container).
#[local] Abbreviation round :=
  (process_stage map_label_to_runs_on global_env default_runs_on default_container).
#[local] Abbreviation job_for :=
  (make_job map_label_to_runs_on global_env default_runs_on default_container).
#[local] Abbreviation assignments :=
  (assignments_from map_label_to_runs_on global_env default_runs_on default_container).





Lemma last_error_In (A : Type) (l : list A) (x : A) :
  last_error l = Some x -> In x l.
Proof.
  unfold last_error. intros H. apply in_rev.
  destruct (rev l); [discriminate|]. inversion H. now left.
Qed.

Lemma nonempty_true (s : str) : nonempty s = true -> s <> [].
Proof. destruct s; [discriminate | discriminate]. Qed.




End Soundness.


Lemma dict_mem_keys (V : Type) (k : str) (d : dict V) :
  dict_mem k d = mem_str k (dict_keys d).
Proof.
  unfold dict_mem. induction d as [|[k' v] d IH]; [reflexivity|].
  simpl. destruct (str_eqb k k'); [reflexivity | exact IH].
Qed.



Lemma assign_jobs_fresh (a : list (str * job)) : forall jobs,
  NoDup (dict_keys jobs ++ map fst a) -> assign_jobs a jobs = jobs ++ a.
Proof.
  induction a as [|[k j] a IH]; intros jobs H; cbn [assign_jobs fold_left].
  - now rewrite app_nil_r.
  - cbn [map fst snd] in *.
    assert (Hset : dict_set k j jobs = jobs ++ [(k, j)]).
    { assert (Hk : ~ In k (dict_keys jobs)).
      { intros Hin. apply NoDup_remove_2 in H. apply H.
        apply in_or_app. now left. }
      clear H IH. induction jobs as [|[k' j'] jobs IHj]; [reflexivity|].
      cbn [dict_set app]. destruct (str_eqb k k') eqn:E.
      - apply str_eqb_eq in E. subst. exfalso. apply Hk. now left.
      - f_equal. apply IHj. intros Hin. apply Hk. now right. }
    fold (assign_jobs a (dict_set k j jobs)). rewrite Hset, IH.
    + now rewrite <- app_assoc.
    + unfold dict_keys in *. rewrite map_app. cbn [map fst].
      now rewrite <- app_assoc.
Qed.



End JobFacts.


Lemma deploy_needs_build_witness :
  exists jd,
    dict_get (txt "deploy")
      (wf_jobs (conv_workflow
                  (build_workflow (fun label : str => label) build_then_deploy_parts)))
      = Some jd /\
    job_needs jd = Some (NeedsId (txt "build")) /\
    needs_ids (job_needs jd) = [txt "build"].
Proof.
  apply (@deploy_needs_build str (fun label : str => label) build_then_deploy
           build_then_deploy_parts
           (build_workflow (fun label : str => label) build_then_deploy_parts)
           (txt " steps { sh 'make' } ") (txt " steps { sh 'make deploy' } ")).
  - vm_compute. reflexivity.
  - reflexivity.
  - vm_compute. reflexivity.
  - vm_compute. reflexivity.
  - vm_compute. reflexivity.
Defined.


(** A parallel group between two stages, and a pipeline post block. *)
Lemma parallel_dependencies :
  dependency_view (convert_jenkins_to_gha (fun label : str => label) parallel_then_post) =
  [(txt "setup", []);
   (txt "a", [txt "setup"]);
   (txt "b", [txt "setup"]);
   (txt "end", [txt "a"; txt "b"]);
   (txt "pipeline-post", [txt "setup"; txt "a"; txt "b"; txt "end"])].
Proof. vm_compute. reflexivity. Qed.

(** Two stages of one name share a job id: the later definition takes
    the place of the earlier one in the mapping, and what it needs was
    assigned before it. *)
Lemma duplicate_ids_overwrite_in_place :
  dependency_view (convert_jenkins_to_gha (fun label : str => label) duplicate_stage_names) =
  [(txt "build", [txt "test"]); (txt "test", [txt "build"])].
Proof. vm_compute. reflexivity. Qed.

(** ** Scenarios of the specification *)

(** Scenario C in general: the branches of a parallel group become one
    job each, in the order of the text, and every one of them depends on
    the same upstream job, the one before the group, or on nothing when
    there is none; after the group the loop remembers the branches. *)
Theorem parallel_branches_share_upstream (runner : Type)
    (map_label_to_runs_on : str -> runner) (global_env : dict str)
    (default_runs_on : runs_on runner) (default_container : option container)
    (st : loop_state runner) (stg : stage) (sub : stage) (subs : list stage) :
  extract_parallel (stage_content stg) = sub :: subs ->
  map fst (stage_jobs map_label_to_runs_on global_env default_runs_on default_container
             st stg)
    = map (fun s => gha_job_id (stage_name s)) (sub :: subs) /\
  Forall (fun a => needs_ids (job_needs (snd a)) = upstream_of st)
    (stage_jobs map_label_to_runs_on global_env default_runs_on default_container st stg) /\
  ls_last_job_ids
    (process_stage map_label_to_runs_on global_env default_runs_on default_container st stg)
    = map (fun s => gha_job_id (stage_name s)) (sub :: subs) /\
  ls_prev_job_id
    (process_stage map_label_to_runs_on global_env default_runs_on default_container st stg)
    = [].
Proof.
  intros H. unfold process_stage, stage_jobs, upstream_of. rewrite H.
  cbn [ls_last_job_ids ls_prev_job_id]. rewrite !map_map. cbn [fst].
  repeat split.
  apply Forall_forall. intros a Ha. apply in_map_iff in Ha.
  destruct Ha as (s & <- & _). cbn [snd]. rewrite make_job_needs.
  destruct (if nonempty (ls_prev_job_id st) then Some (ls_prev_job_id st)
            else last_error (ls_last_job_ids st)) as [u|]; [|reflexivity].
  now destruct (nonempty u).
Qed.

Lemma parallel_branches_share_upstream_witness :
  map fst (stage_jobs (fun label : str => label) [] (RunsOn str ubuntu_latest) None
             (after_setup str) parallel_stage) = [txt "a"; txt "b"] /\
  Forall (fun a => needs_ids (job_needs (snd a)) = [txt "setup"])
    (stage_jobs (fun label : str => label) [] (RunsOn str ubuntu_latest) None
       (after_setup str) parallel_stage) /\
  ls_last_job_ids
    (process_stage (fun label : str => label) [] (RunsOn str ubuntu_latest) None
       (after_setup str) parallel_stage) = [txt "a"; txt "b"] /\
  ls_prev_job_id
    (process_stage (fun label : str => label) [] (RunsOn str ubuntu_latest) None
       (after_setup str) parallel_stage) = [].
Proof.
  apply (@parallel_branches_share_upstream str (fun label : str => label) []
           (RunsOn str ubuntu_latest) None (after_setup str) parallel_stage
           {| stage_name := txt "A"; stage_content := txt " steps { sh 'a' } " |}
           [{| stage_name := txt "B"; stage_content := txt " steps { sh 'b' } " |}]).
  vm_compute. reflexivity.
Defined.

(** Scenario A: one stage with one shell step gives one job [build] on
    the generic runner, with a checkout step and the reference to the
    composite action, and an action with one run step. *)
Theorem scenario_a_conversion (runner : Type) (map_label_to_runs_on : str -> runner) :
  exists c,
    convert_jenkins_to_gha map_label_to_runs_on scenario_a = Ok c /\
    map (fun j => (fst j, job_runs_on (snd j), map step_uses (job_steps (snd j))))
      (wf_jobs (conv_workflow c))
    = [(txt "build", RunsOn runner ubuntu_latest,
        [Some (txt "actions/checkout@v4"); Some (txt "./.github/actions/build")])] /\
    map (fun w => map (fun s => (step_run s, step_shell s)) (action_steps (snd w)))
      (conv_written c)
    = [[(Some (txt "make build"), Some (txt "bash"))]].
Proof. eexists. split; [vm_compute; reflexivity|]. split; vm_compute; reflexivity. Qed.

(** Scenario D: a stage with an approval request names an approval
    environment after the stage, in the metadata and on the job. *)
Theorem scenario_d_approval (runner : Type) (map_label_to_runs_on : str -> runner) :
  exists c,
    convert_jenkins_to_gha map_label_to_runs_on approval_pipeline = Ok c /\
    map ai_approval_environment (conv_action_paths c) = [txt "approval-deploy"] /\
    map (fun j => (fst j, job_environment (snd j))) (wf_jobs (conv_workflow c))
    = [(txt "deploy", Some (txt "approval-deploy"))].
Proof. eexists. split; [vm_compute; reflexivity|]. split; vm_compute; reflexivity. Qed.

(** Scenario E: a string parameter becomes an input of the manual
    trigger, with its default and without options. *)
Theorem scenario_e_parameter (runner : Type) (map_label_to_runs_on : str -> runner) :
  exists c,
    convert_jenkins_to_gha map_label_to_runs_on version_parameter_pipeline = Ok c /\
    wf_on_workflow_dispatch (conv_workflow c)
    = Some [(txt "VERSION",
             {| wi_description := txt "Parameter VERSION";
                wi_required := false;
                wi_default := PStr (txt "1.0");
                wi_type := PString;
                wi_options := None |})].
Proof. eexists. split; vm_compute; reflexivity. Qed.

(** ** Further properties of [utils.py] *)

Lemma scan_block_first_close (s : str) : forall i d j,
  scan_block s i d = Some j ->
  exists n, j = i + n /\
    forall k, k <= n ->
      count_ch "}" (firstn k s) <= d + count_ch "{" (firstn k s).
Proof.
  induction s as [|c s IH]; intros i d j H; simpl in H; [discriminate|].
  unfold count_ch in *.
  destruct (is_open c) eqn:Ho.
  - apply IH in H. destruct H as (n & -> & Hk).
    exists (S n). split; [lia|]. intros [|k] Hle; [simpl; lia|].
    specialize (Hk k ltac:(lia)). simpl. unfold is_open in Ho. rewrite Ho.
    destruct (ch_eqb c "}") eqn:Hc.
    + apply ch_eqb_eq in Ho, Hc. congruence.
    + simpl. lia.
  - destruct (is_close c) eqn:Hcl.
    + destruct d as [|d].
      * inversion H; subst. exists 0. split; [lia|].
        intros k Hk. replace k with 0 by lia. simpl. lia.
      * apply IH in H. destruct H as (n & -> & Hk).
        exists (S n). split; [lia|]. intros [|k] Hle; [simpl; lia|].
        specialize (Hk k ltac:(lia)). simpl.
        unfold is_open, is_close in *. rewrite Ho, Hcl. simpl. lia.
    + apply IH in H. destruct H as (n & -> & Hk).
      exists (S n). split; [lia|]. intros [|k] Hle; [simpl; lia|].
      specialize (Hk k ltac:(lia)). simpl.
      unfold is_open, is_close in *. rewrite Ho, Hcl. lia.
Qed.

(** The span [find_block] returns stands between the opening brace that
    follows the keyword and the first closing brace that this opening
    brace is still waiting for: no prefix of the content closes more
    braces than it opens. *)
Theorem find_block_first_closing_brace (text : str) (start_pat : regex) (s e : Z) :
  find_block text start_pat = (s, e) ->
  (s, e) <> not_found ->
  nth_error text (Z.to_nat s - 1) = Some "{"%char /\
  nth_error text (Z.to_nat e) = Some "}"%char /\
  forall k,
    count_ch "}" (firstn k (slice text s e)) <= count_ch "{" (firstn k (slice text s e)).
Proof.
  unfold find_block. intros H Hnf.
  destruct (re_search start_pat text) as [m|]; [|congruence].
  cbv zeta in H.
  set (i := skip_space (skipn (m_end m) text) (m_end m)) in *.
  destruct (nth_error text i) as [c|] eqn:Hc; [|congruence].
  destruct (is_open c) eqn:Ho; [|congruence].
  assert (Hi : i < length text) by (apply nth_error_Some; congruence).
  remember (S i) as start eqn:Est.
  destruct (scan_block (skipn start text) start 0) as [j|] eqn:Hs; [|congruence].
  destruct (scan_block_spec _ _ _ Hs) as (n & Hj & Hn & _).
  destruct (scan_block_close _ _ _ Hs) as (n' & Hj' & Hclose).
  destruct (scan_block_first_close _ _ _ Hs) as (n'' & Hj'' & Hfirst).
  assert (n' = n) by lia. assert (n'' = n) by lia. subst n' n'' j.
  rewrite length_skipn in Hn. injection H as <- <-.
  rewrite !Nat2Z.id. split; [|split].
  - subst start. replace (S i - 1) with i by lia. rewrite Hc.
    unfold is_open in Ho. apply ch_eqb_eq in Ho. now subst.
  - now rewrite nth_error_skipn in Hclose.
  - intros k. rewrite slice_nat by lia.
    destruct (Nat.le_gt_cases k n) as [Hk|Hk].
    + rewrite firstn_firstn. replace (Nat.min k n) with k by lia.
      specialize (Hfirst k Hk). simpl in Hfirst. exact Hfirst.
    + rewrite firstn_all2 by (rewrite length_firstn; lia).
      specialize (Hfirst n (le_n n)). simpl in Hfirst. exact Hfirst.
Qed.

Lemma find_block_first_closing_brace_witness :
  nth_error (txt "pipeline { a { b } c } d") (Z.to_nat 10 - 1) = Some "{"%char /\
  nth_error (txt "pipeline { a { b } c } d") (Z.to_nat 21) = Some "}"%char /\
  forall k,
    count_ch "}" (firstn k (slice (txt "pipeline { a { b } c } d") 10 21))
    <= count_ch "{" (firstn k (slice (txt "pipeline { a { b } c } d") 10 21)).
Proof.
  apply (@find_block_first_closing_brace (txt "pipeline { a { b } c } d")
           (kw "pipeline") 10 21).
  - vm_compute. reflexivity.
  - discriminate.
Defined.

Lemma subsequence_refl (s : str) : subsequence s s.
Proof. induction s; [constructor | now apply subseq_keep]. Qed.

Lemma subsequence_trans (a b c : str) :
  subsequence a b -> subsequence b c -> subsequence a c.
Proof.
  intros Hab Hbc. revert a Hab.
  induction Hbc as [|x b c Hbc IH|x b c Hbc IH]; intros a Hab.
  - exact Hab.
  - apply subseq_skip. now apply IH.
  - inversion Hab; subst.
    + apply subseq_skip. now apply IH.
    + apply subseq_keep. now apply IH.
Qed.

Lemma sub_from_subsequence (text : str) (r : regex) (s : str) : forall skip i pv,
  subsequence (sub_from text r [] skip i pv s) s.
Proof.
  induction s as [|c s IH]; intros skip i pv.
  - destruct skip; simpl; [destruct (match_here _ _ _ _ _)|]; constructor.
  - destruct skip as [|n]; cbn [sub_from].
    + destruct (match_here text r i pv (c :: s)) as [m|]; cbn [app].
      * destruct (m_end m - i); [apply subseq_keep | apply subseq_skip]; apply IH.
      * apply subseq_keep. apply IH.
    + apply subseq_skip. apply IH.
Qed.

(** The comment stripper only deletes: what it returns is the text with
    some characters left out, in the same order. *)
Theorem strip_comments_only_deletes (text : str) :
  subsequence (strip_comments text) text.
Proof.
  unfold strip_comments, re_sub.
  eapply subsequence_trans; apply sub_from_subsequence.
Qed.

(** A text that holds neither marker of a comment comes back as it is. *)
Theorem strip_comments_without_markers (text : str) :
  contains (txt "/*") text = false ->
  contains (txt "//") text = false ->
  strip_comments text = text.
Proof.
  intros Hb Hl. unfold strip_comments, re_sub.
  unfold re_block_comment, L. rewrite sub_from_absent by exact Hb.
  unfold re_line_comment, L. now apply sub_from_absent.
Qed.

Lemma strip_comments_without_markers_witness :
  strip_comments (txt "stage('a/b') { sh 'x * y / z' }") = txt "stage('a/b') { sh 'x * y / z' }".
Proof. apply strip_comments_without_markers; vm_compute; reflexivity. Defined.

Ltac by_ascii_cases c :=
  destruct c as [[|] [|] [|] [|] [|] [|] [|] [|]]; vm_compute; intros; congruence.

Lemma name_ch_no_space (c : ascii) : is_name_ch c = true -> isspace c = false.
Proof. by_ascii_cases c. Qed.

Lemma lstrip_chars_split (p : ascii -> bool) (s : str) :
  exists a, s = a ++ lstrip_chars p s /\ forallb p a = true.
Proof.
  induction s as [|c s (a & Ha & Hp)]; [now exists []|].
  cbn [lstrip_chars]. destruct (p c) eqn:E.
  - exists (c :: a). split; [cbn [app]; now f_equal | cbn [forallb]; now rewrite E].
  - now exists [].
Qed.

Lemma lstrip_chars_head (p : ascii -> bool) (s : str) (c : ascii) :
  hd_error (lstrip_chars p s) = Some c -> p c = false.
Proof.
  induction s as [|x s IH]; [discriminate|].
  cbn [lstrip_chars]. destruct (p x) eqn:E; [exact IH|].
  cbn [hd_error]. congruence.
Qed.

Lemma lstrip_chars_id (p : ascii -> bool) (s : str) :
  (forall c, hd_error s = Some c -> p c = false) -> lstrip_chars p s = s.
Proof.
  destruct s as [|x s]; [reflexivity|]. intros H. cbn [lstrip_chars].
  now rewrite (H x eq_refl).
Qed.

Lemma lstrip_is_chars (s : str) : lstrip s = lstrip_chars isspace s.
Proof. induction s as [|c s IH]; [reflexivity|]. simpl. now rewrite IH. Qed.

Lemma strip_is_chars (s : str) : strip s = strip_chars isspace s.
Proof. unfold strip, rstrip, strip_chars. now rewrite !lstrip_is_chars. Qed.

Lemma last_error_rev (A : Type) (l : list A) : last_error l = hd_error (rev l).
Proof. unfold last_error. now destruct (rev l). Qed.

Lemma hd_error_app (A : Type) (a b : list A) (x : A) :
  hd_error a = Some x -> hd_error (a ++ b) = Some x.
Proof. destruct a; [discriminate | auto]. Qed.

(** What [s.strip(chars)] returns neither starts nor ends with one of
    the characters. *)
Lemma strip_chars_ends (p : ascii -> bool) (s : str) (c : ascii) :
  (hd_error (strip_chars p s) = Some c -> p c = false) /\
  (last_error (strip_chars p s) = Some c -> p c = false).
Proof.
  unfold strip_chars. set (t := lstrip_chars p s).
  split.
  - intros H.
    destruct (lstrip_chars_split p (rev t)) as (a & Ha & _).
    set (u := lstrip_chars p (rev t)) in *.
    assert (Ht : t = rev u ++ rev a).
    { rewrite <- rev_app_distr, <- Ha. now rewrite rev_involutive. }
    apply (lstrip_chars_head p s). fold t. rewrite Ht.
    now apply hd_error_app.
  - rewrite last_error_rev, rev_involutive. apply lstrip_chars_head.
Qed.

Lemma strip_chars_id (p : ascii -> bool) (s : str) :
  (forall c, hd_error s = Some c -> p c = false) ->
  (forall c, last_error s = Some c -> p c = false) ->
  strip_chars p s = s.
Proof.
  intros Hh Hl. unfold strip_chars. rewrite (lstrip_chars_id p s Hh).
  rewrite lstrip_chars_id; [apply rev_involutive|].
  intros c Hc. apply Hl. now rewrite last_error_rev.
Qed.

Lemma strip_chars_idempotent (p : ascii -> bool) (s : str) :
  strip_chars p (strip_chars p s) = strip_chars p s.
Proof. apply strip_chars_id; intros c; apply strip_chars_ends. Qed.

Lemma strip_chars_In (p : ascii -> bool) (s : str) (c : ascii) :
  In c (strip_chars p s) -> In c s.
Proof.
  unfold strip_chars. intros H. apply in_rev in H.
  destruct (lstrip_chars_split p (rev (lstrip_chars p s))) as (a & Ha & _).
  assert (H1 : In c (rev (lstrip_chars p s))) by (rewrite Ha; apply in_or_app; now right).
  apply in_rev in H1.
  destruct (lstrip_chars_split p s) as (b & Hb & _).
  rewrite Hb. apply in_or_app. now right.
Qed.

Lemma sub_class_from (text : str) (p : ascii -> bool) (b : ascii) (s : str) : forall i pv,
  sub_from text (Cls p) [b] 0 i pv s = map (fun c => if p c then b else c) s.
Proof.
  induction s as [|c s IH]; intros i pv; [reflexivity|].
  cbn [sub_from]. unfold match_here. cbn [rmatch].
  destruct (p c) eqn:E.
  - cbn [m_end]. replace (S i - i) with 1 by lia.
    cbn [map app]. rewrite E. f_equal. apply IH.
  - cbn [map]. rewrite E. f_equal. apply IH.
Qed.

Lemma sanitize_name_map (name : str) :
  sanitize_name name = map (fun c => if not_name_ch c then "_"%char else c) (strip name).
Proof. unfold sanitize_name, re_sub. apply sub_class_from. Qed.

Lemma sanitized_ch (c : ascii) :
  is_name_ch (if not_name_ch c then "_"%char else c) = true.
Proof. unfold is_name_ch. destruct (not_name_ch c) eqn:E; [reflexivity | now rewrite E]. Qed.

(** [sanitize_name] keeps the length of the stripped name, returns only
    letters, digits, underscores and hyphens, and changes nothing when
    applied again. *)
Theorem sanitize_name_safe (name : str) :
  length (sanitize_name name) = length (strip name) /\
  forallb is_name_ch (sanitize_name name) = true /\
  sanitize_name (sanitize_name name) = sanitize_name name.
Proof.
  rewrite sanitize_name_map.
  set (f := fun c => if not_name_ch c then "_"%char else c).
  assert (Hall : forallb is_name_ch (map f (strip name)) = true).
  { apply forallb_forall. intros x Hx. apply in_map_iff in Hx.
    destruct Hx as (c & <- & _). apply sanitized_ch. }
  split; [apply length_map|]. split; [exact Hall|].
  rewrite sanitize_name_map. fold f.
  assert (Hstrip : strip (map f (strip name)) = map f (strip name)).
  { rewrite strip_is_chars. apply strip_chars_id.
    - intros c Hc. apply name_ch_no_space.
      rewrite forallb_forall in Hall. apply Hall.
      destruct (map f (strip name)); [discriminate|]. injection Hc as ->. now left.
    - intros c Hc. apply name_ch_no_space.
      rewrite forallb_forall in Hall. apply Hall.
      apply last_error_In. exact Hc. }
  rewrite Hstrip. rewrite map_map. apply map_ext_in. intros c _.
  unfold f. pose proof (sanitized_ch c) as H. unfold is_name_ch in H.
  destruct (not_name_ch (if not_name_ch c then "_"%char else c)); [discriminate|reflexivity].
Qed.

Lemma match_here_plus (text : str) (q : ascii -> bool) (i : nat) (pv : option ascii)
    (c : ascii) (s : str) :
  match_here text (plus q) i pv (c :: s) =
  if q c then Some {| m_start := i; m_end := S i + span q s; m_caps := [] |} else None.
Proof.
  unfold match_here, plus. cbn [rmatch rep_match]. destruct (q c); [|reflexivity].
  cbn [pred option_map].
  destruct (@rep_match_greedy_span rmatch_obj q s (S i) (Some c)
              (fun e _ _ => Some {| m_start := i; m_end := e; m_caps := [] |}))
    as [pv' E]; [discriminate|].
  now rewrite E.
Qed.

(** [re.sub] of a one-or-more character class by one character collapses
    each maximal run. *)
Lemma sub_plus_collapse (text : str) (q : ascii -> bool) (b : ascii) (s : str) :
  forall i pv,
  sub_from text (plus q) [b] (span q s) i pv s = collapse_runs q b true s /\
  sub_from text (plus q) [b] 0 i pv s = collapse_runs q b false s.
Proof.
  induction s as [|c s IH]; intros i pv.
  - split; reflexivity.
  - assert (H0 : sub_from text (plus q) [b] 0 i pv (c :: s) = collapse_runs q b false (c :: s)).
    { cbn [sub_from collapse_runs]. rewrite match_here_plus. destruct (q c) eqn:Hc.
      - replace (m_end _ - i) with (S (span q s)) by (cbn [m_end]; lia).
        cbn [app]. f_equal. apply IH.
      - f_equal. apply IH. }
    split; [|exact H0].
    cbn [span]. destruct (q c) eqn:Hc.
    + cbn [sub_from collapse_runs]. rewrite Hc. apply IH.
    + rewrite H0. cbn [collapse_runs]. now rewrite Hc.
Qed.

Lemma collapse_runs_chars (q : ascii -> bool) (b : ascii) (s : str) : forall r x,
  In x (collapse_runs q b r s) -> x = b \/ q x = false.
Proof.
  induction s as [|c s IH]; intros r x H; [contradiction|].
  cbn [collapse_runs] in H. destruct (q c) eqn:Hc.
  - destruct r; [eapply IH; exact H|].
    destruct H as [<-|H]; [now left | eapply IH; exact H].
  - destruct H as [<-|H]; [now right | eapply IH; exact H].
Qed.


Lemma is_hyphen_eqb (c : ascii) : ch_eqb "-"%char c = is_hyphen c.
Proof. by_ascii_cases c. Qed.

Lemma is_hyphen_eq (c : ascii) : is_hyphen c = true <-> c = "-"%char.
Proof.
  split; [|now intros ->].
  destruct c as [[|] [|] [|] [|] [|] [|] [|] [|]]; vm_compute; intros; congruence.
Qed.

Lemma hyphen_not_alnum (c : ascii) : is_alnum_ascii c = true -> is_hyphen c = false.
Proof. by_ascii_cases c. Qed.

Lemma lower_keeps_hyphen (c : ascii) : is_hyphen (lower_ch c) = is_hyphen c.
Proof. by_ascii_cases c. Qed.

Lemma lower_alnum_job_ch (c : ascii) :
  is_alnum_ascii c = true -> is_job_id_ch (lower_ch c) = true.
Proof. by_ascii_cases c. Qed.

Lemma contains_hyphens_cons (x : ascii) (s : str) :
  contains (txt "--") (x :: s) = (is_hyphen x && hd_hyphen s) || contains (txt "--") s.
Proof.
  cbn [contains]. f_equal. unfold startswith.
  change (txt "--") with ["-"%char; "-"%char]. cbn [strip_prefix].
  rewrite is_hyphen_eqb. destruct (is_hyphen x); [|reflexivity].
  destruct s as [|y s]; [reflexivity|]. cbn [strip_prefix hd_hyphen].
  rewrite is_hyphen_eqb. now destruct (is_hyphen y).
Qed.

Lemma contains_hyphens_suffix (a b : str) :
  contains (txt "--") (a ++ b) = false -> contains (txt "--") b = false.
Proof.
  induction a as [|x a IH]; [auto|]. cbn [app]. rewrite contains_hyphens_cons.
  intros H. apply orb_false_iff in H. now apply IH.
Qed.

Lemma contains_hyphens_prefix (a b : str) :
  contains (txt "--") (a ++ b) = false -> contains (txt "--") a = false.
Proof.
  induction a as [|x a IH]; [reflexivity|]. cbn [app]. rewrite !contains_hyphens_cons.
  intros H. apply orb_false_iff in H. destruct H as [H1 H2].
  rewrite (IH H2), orb_false_r.
  destruct a as [|y a]; [now rewrite andb_false_r | exact H1].
Qed.

Lemma contains_hyphens_lower (s : str) :
  contains (txt "--") (lower s) = contains (txt "--") s.
Proof.
  induction s as [|x s IH]; [reflexivity|].
  unfold lower in *. cbn [map]. rewrite !contains_hyphens_cons, IH, lower_keeps_hyphen.
  destruct s; [reflexivity|]. cbn [map hd_hyphen]. now rewrite lower_keeps_hyphen.
Qed.

Lemma collapse_runs_no_double (q : ascii -> bool) (s : str) :
  (forall c, is_hyphen c = true -> q c = true) ->
  contains (txt "--") (collapse_runs q "-" false s) = false /\
  contains (txt "--") ("-"%char :: collapse_runs q "-" true s) = false.
Proof.
  intros Hq. induction s as [|c s [IHa IHb]]; [split; reflexivity|].
  cbn [collapse_runs]. destruct (q c) eqn:Hc.
  - split; exact IHb.
  - assert (Hh : is_hyphen c = false).
    { destruct (is_hyphen c) eqn:E; [|reflexivity]. apply Hq in E. congruence. }
    assert (Ha : contains (txt "--") (c :: collapse_runs q "-" false s) = false).
    { rewrite contains_hyphens_cons, Hh, IHa. reflexivity. }
    split; [exact Ha|].
    rewrite contains_hyphens_cons. cbn [hd_hyphen]. rewrite Hh, Ha. reflexivity.
Qed.

Lemma strip_chars_infix (p : ascii -> bool) (s : str) :
  exists a b, s = a ++ strip_chars p s ++ b.
Proof.
  unfold strip_chars.
  destruct (lstrip_chars_split p s) as (a & Ha & _).
  destruct (lstrip_chars_split p (rev (lstrip_chars p s))) as (b & Hb & _).
  exists a, (rev b). rewrite <- rev_app_distr, <- Hb, rev_involutive. exact Ha.
Qed.

Lemma hd_error_map (A B : Type) (f : A -> B) (l : list A) :
  hd_error (map f l) = option_map f (hd_error l).
Proof. now destruct l. Qed.

Lemma last_error_map (A B : Type) (f : A -> B) (l : list A) :
  last_error (map f l) = option_map f (last_error l).
Proof. rewrite !last_error_rev, <- map_rev. apply hd_error_map. Qed.

Lemma lower_end_not_hyphen (o : option ascii) :
  (forall c, o = Some c -> is_hyphen c = false) ->
  not_hyphen (option_map lower_ch o).
Proof.
  intros H E. destruct o as [c|]; [|discriminate]. cbn in E.
  specialize (H c eq_refl). rewrite <- lower_keeps_hyphen in H.
  injection E as E. rewrite E in H. discriminate.
Qed.

(** [gha_job_id] always returns a usable identifier: it is not empty, it
    holds only lower-case letters, digits and hyphens, it neither starts
    nor ends with a hyphen, and it has no two hyphens in a row. *)
Theorem gha_job_id_well_formed (name : str) :
  gha_job_id name <> [] /\
  forallb is_job_id_ch (gha_job_id name) = true /\
  not_hyphen (hd_error (gha_job_id name)) /\
  not_hyphen (last_error (gha_job_id name)) /\
  contains (txt "--") (gha_job_id name) = false.
Proof.
  unfold gha_job_id, re_sub.
  set (q := fun c => negb (is_alnum_ascii c)).
  change (txt "-") with ["-"%char].
  rewrite (proj2 (sub_plus_collapse (strip name) q "-" (strip name) 0 None)).
  set (t := collapse_runs q "-" false (strip name)).
  set (u := strip_chars is_hyphen t).
  assert (Hq : forall c, is_hyphen c = true -> q c = true).
  { intros c Hc. unfold q. destruct (is_alnum_ascii c) eqn:E; [|reflexivity].
    apply hyphen_not_alnum in E. congruence. }
  assert (Hchars : forallb is_job_id_ch (lower u) = true).
  { apply forallb_forall. intros x Hx. apply in_map_iff in Hx.
    destruct Hx as (c & <- & Hc). apply strip_chars_In in Hc.
    apply collapse_runs_chars in Hc. destruct Hc as [->|Hc]; [reflexivity|].
    apply lower_alnum_job_ch. unfold q in Hc. now destruct (is_alnum_ascii c). }
  assert (Hhd : not_hyphen (hd_error (lower u))).
  { unfold lower. rewrite hd_error_map. apply lower_end_not_hyphen.
    intros c. apply strip_chars_ends. }
  assert (Hlast : not_hyphen (last_error (lower u))).
  { unfold lower. rewrite last_error_map. apply lower_end_not_hyphen.
    intros c. apply strip_chars_ends. }
  assert (Hdd : contains (txt "--") (lower u) = false).
  { rewrite contains_hyphens_lower.
    destruct (strip_chars_infix is_hyphen t) as (a & b & Ht). fold u in Ht.
    pose proof (proj1 (collapse_runs_no_double q (strip name) Hq)) as H. fold t in H.
    rewrite Ht in H. apply contains_hyphens_suffix in H.
    now apply contains_hyphens_prefix in H. }
  destruct (lower u) as [|x l] eqn:E.
  - repeat split; try reflexivity; try discriminate; unfold not_hyphen; vm_compute; discriminate.
  - repeat split; try assumption. discriminate.
Qed.

Lemma linebreak_is_space (c : ascii) : is_linebreak c = true -> isspace c = true.
Proof. by_ascii_cases c. Qed.

Lemma forallb_rev (p : ascii -> bool) (s : str) : forallb p (rev s) = forallb p s.
Proof.
  induction s as [|c s IH]; [reflexivity|].
  cbn [rev forallb]. rewrite forallb_app, IH. cbn [forallb].
  rewrite andb_true_r. apply andb_comm.
Qed.

Lemma splitlines_aux_lines (n : nat) : forall s cur l,
  length s <= n ->
  forallb no_linebreak cur = true ->
  In l (splitlines_aux s cur) -> forallb no_linebreak l = true.
Proof.
  induction n as [|n IH]; intros s cur l Hn Hcur Hl.
  - destruct s; [|simpl in Hn; lia]. simpl in Hl.
    destruct cur; [contradiction|]. destruct Hl as [<-|[]]. now rewrite forallb_rev.
  - destruct s as [|c s].
    + simpl in Hl. destruct cur; [contradiction|]. destruct Hl as [<-|[]].
      now rewrite forallb_rev.
    + simpl in Hn. cbn [splitlines_aux] in Hl. destruct (is_linebreak c) eqn:Hc.
      * destruct Hl as [<-|Hl]; [now rewrite forallb_rev|].
        destruct s as [|d s]; [contradiction|].
        destruct ((code c =? 13) && (code d =? 10)).
        -- apply (IH s [] l); [simpl in Hn; lia | reflexivity | exact Hl].
        -- apply (IH (d :: s) [] l); [lia | reflexivity | exact Hl].
      * apply (IH s (c :: cur) l); [lia | | exact Hl].
        cbn [forallb]. unfold no_linebreak at 1. now rewrite Hc.
Qed.

Lemma splitlines_aux_blank (n : nat) : forall s cur,
  length s <= n ->
  (forall l, In l (splitlines_aux s cur) -> forallb isspace l = true) <->
  forallb isspace s && forallb isspace cur = true.
Proof.
  induction n as [|n IH]; intros s cur Hn.
  - destruct s; [|simpl in Hn; lia]. cbn [splitlines_aux forallb andb].
    destruct cur as [|x cur]; [split; [reflexivity | contradiction]|].
    rewrite <- (forallb_rev isspace (x :: cur)). split.
    + intros H. apply H. now left.
    + intros H l [<-|[]]. exact H.
  - destruct s as [|c s].
    + cbn [splitlines_aux forallb andb].
      destruct cur as [|x cur]; [split; [reflexivity | contradiction]|].
      rewrite <- (forallb_rev isspace (x :: cur)). split.
      * intros H. apply H. now left.
      * intros H l [<-|[]]. exact H.
    + simpl in Hn. cbn [splitlines_aux]. destruct (is_linebreak c) eqn:Hc.
      * pose proof (linebreak_is_space c Hc) as Hs.
        cbn [forallb]. rewrite Hs. cbn [andb].
        destruct s as [|d s].
        { cbn [forallb andb]. rewrite <- (forallb_rev isspace cur). split.
          - intros H. apply H. now left.
          - intros H l [<-|[]]. exact H. }
        destruct ((code c =? 13) && (code d =? 10)) eqn:Hd.
        -- assert (Hds : isspace d = true).
           { apply andb_true_iff in Hd. destruct Hd as [_ Hd].
             revert Hd. clear. by_ascii_cases d. }
           cbn [forallb]. rewrite Hds. cbn [andb].
           pose proof (IH s [] ltac:(simpl in Hn; lia)) as E.
           cbn [forallb] in E. rewrite andb_true_r in E.
           rewrite <- (forallb_rev isspace cur). split.
           ++ intros H. apply andb_true_iff. split.
              ** apply (proj1 E). intros l Hl. apply H. now right.
              ** apply H. now left.
           ++ intros H l [<-|Hl]; apply andb_true_iff in H; destruct H as [H1 H2];
                [exact H2 | exact (proj2 E H1 l Hl)].
        -- pose proof (IH (d :: s) [] ltac:(simpl in Hn; simpl; lia)) as E.
           rewrite andb_true_r in E.
           rewrite <- (forallb_rev isspace cur). split.
           ++ intros H. apply andb_true_iff. split.
              ** apply (proj1 E). intros l Hl. apply H. now right.
              ** apply H. now left.
           ++ intros H l [<-|Hl]; apply andb_true_iff in H; destruct H as [H1 H2];
                [exact H2 | exact (proj2 E H1 l Hl)].
      * rewrite (IH s (c :: cur) ltac:(lia)). cbn [forallb].
        destruct (isspace c), (forallb isspace s), (forallb isspace cur); cbn; tauto.
Qed.

Lemma lstrip_chars_all (p : ascii -> bool) (s : str) :
  forallb p s = true -> lstrip_chars p s = [].
Proof.
  induction s as [|c s IH]; [reflexivity|]. cbn [forallb lstrip_chars].
  intros H. apply andb_true_iff in H. destruct H as [-> H]. now apply IH.
Qed.

Lemma strip_chars_nil (p : ascii -> bool) (s : str) :
  strip_chars p s = [] <-> forallb p s = true.
Proof.
  unfold strip_chars. split.
  - intros H.
    destruct (lstrip_chars_split p s) as (a & Ha & Hpa).
    destruct (lstrip_chars_split p (rev (lstrip_chars p s))) as (b & Hb & Hpb).
    assert (E : lstrip_chars p (rev (lstrip_chars p s)) = []).
    { rewrite <- (rev_involutive (lstrip_chars p (rev (lstrip_chars p s)))), H. reflexivity. }
    rewrite E, app_nil_r in Hb.
    rewrite Ha, forallb_app, Hpa. cbn [andb].
    rewrite <- forallb_rev, Hb. exact Hpb.
  - intros H. now rewrite (lstrip_chars_all p s H).
Qed.

(** Every command [multiline_to_commands] returns is non-empty, carries
    no white space at either end and holds no line break. *)
Theorem multiline_to_commands_clean (s : str) :
  Forall (fun cmd => cmd <> [] /\ strip cmd = cmd /\ forallb no_linebreak cmd = true)
         (multiline_to_commands s).
Proof.
  apply Forall_forall. intros cmd H. unfold multiline_to_commands in H.
  apply filter_In in H. destruct H as [H Hne]. apply in_map_iff in H.
  destruct H as (l & <- & Hl). split; [now apply nonempty_true|]. split.
  - rewrite !strip_is_chars. apply strip_chars_idempotent.
  - apply forallb_forall. intros x Hx. rewrite strip_is_chars in Hx.
    apply strip_chars_In in Hx.
    pose proof (@splitlines_aux_lines (length s) s [] l (le_n _) eq_refl Hl) as Hall.
    rewrite forallb_forall in Hall. now apply Hall.
Qed.

(** [multiline_to_commands] returns no command exactly for a script of
    white space only. *)
Theorem multiline_to_commands_empty (s : str) :
  multiline_to_commands s = [] <-> forallb isspace s = true.
Proof.
  pose proof (@splitlines_aux_blank (length s) s [] (le_n _)) as E.
  cbn [forallb] in E. rewrite andb_true_r in E. fold (splitlines s) in E.
  rewrite <- E. unfold multiline_to_commands. split.
  - intros H l Hl. apply strip_chars_nil. rewrite <- strip_is_chars.
    destruct (strip l) as [|x r] eqn:Es; [reflexivity|].
    assert (Hin : In (strip l) (filter nonempty (map strip (splitlines s)))).
    { apply filter_In. split; [now apply in_map | now rewrite Es]. }
    rewrite H in Hin. contradiction.
  - intros H. destruct (filter nonempty (map strip (splitlines s))) as [|cmd r] eqn:Ef;
      [reflexivity|].
    assert (Hin : In cmd (filter nonempty (map strip (splitlines s)))) by (rewrite Ef; now left).
    apply filter_In in Hin. destruct Hin as [Hin Hne]. apply in_map_iff in Hin.
    destruct Hin as (l & <- & Hl). apply H in Hl. apply strip_chars_nil in Hl.
    rewrite <- strip_is_chars in Hl. rewrite Hl in Hne. discriminate.
Qed.

(** ** Further properties of [converter.py] and [action_generator.py] *)

Lemma dict_set_fresh (V : Type) (k : str) (v : V) (d : dict V) :
  ~ In k (dict_keys d) -> dict_set k v d = d ++ [(k, v)].
Proof.
  induction d as [|[k' v'] d IH]; intros Hk; [reflexivity|].
  cbn [dict_set app]. destruct (str_eqb k k') eqn:E.
  - apply str_eqb_eq in E. subst. exfalso. apply Hk. now left.
  - f_equal. apply IH. intros Hin. apply Hk. now right.
Qed.

Lemma dict_get_unique (V : Type) (k : str) (v : V) (d : dict V) :
  NoDup (dict_keys d) -> In (k, v) d -> dict_get k d = Some v.
Proof.
  induction d as [|[k' v'] d IH]; intros Hnd Hin; [contradiction|].
  cbn [dict_keys map fst] in Hnd. inversion Hnd as [|? ? Hk Hd]; subst.
  cbn [dict_get]. destruct Hin as [Heq|Hin].
  - inversion Heq; subst. now rewrite str_eqb_refl.
  - destruct (str_eqb k k') eqn:E; [|now apply IH].
    apply str_eqb_eq in E. subst. exfalso. apply Hk.
    apply (in_map fst) in Hin. exact Hin.
Qed.

Lemma NoDup_keys_filter (V : Type) (f : str * V -> bool) (d : dict V) :
  NoDup (dict_keys d) -> NoDup (dict_keys (filter f d)).
Proof.
  induction d as [|a d IH]; intros H; [constructor|].
  cbn [dict_keys map] in H. inversion H as [|? ? Hk Hd]; subst.
  cbn [filter]. destruct (f a); [|now apply IH].
  cbn [dict_keys map]. constructor; [|now apply IH].
  intros Hin. apply Hk. unfold dict_keys in Hin. apply in_map_iff in Hin.
  destruct Hin as (x & Hx & Hin). apply filter_In in Hin.
  rewrite <- Hx. apply in_map. tauto.
Qed.

(** A run of conditional assignments of distinct new keys is a filter. *)
Lemma fold_dict_set_filter (V : Type) (keep : str * V -> bool) (l : list (str * V)) :
  forall out,
  NoDup (dict_keys out ++ dict_keys l) ->
  fold_left (fun out kv => if keep kv then dict_set (fst kv) (snd kv) out else out) l out
  = out ++ filter keep l.
Proof.
  induction l as [|[k v] l IH]; intros out H; cbn [fold_left filter].
  - now rewrite app_nil_r.
  - cbn [dict_keys map fst] in H. cbn [fst snd].
    assert (Hk : ~ In k (dict_keys out)).
    { intros Hin. apply NoDup_remove_2 in H. apply H. apply in_or_app. now left. }
    destruct (keep (k, v)).
    + rewrite (@dict_set_fresh V k v out Hk), IH.
      * now rewrite <- app_assoc.
      * unfold dict_keys in *. rewrite map_app. cbn [map fst]. now rewrite <- app_assoc.
    + apply IH. now apply NoDup_remove_1 in H.
Qed.

Lemma fold_left_pointwise (A B : Type) (f g : A -> B -> A) (l : list B) : forall a,
  (forall a b, f a b = g a b) -> fold_left f l a = fold_left g l a.
Proof.
  induction l as [|b l IH]; intros a H; [reflexivity|].
  cbn [fold_left]. rewrite H. now apply IH.
Qed.

Lemma compute_job_env_filter (global_env stage_env : dict str) :
  NoDup (dict_keys stage_env) ->
  compute_job_env global_env stage_env =
  filter (fun kv => match dict_get (fst kv) global_env with
                    | Some v => negb (str_eqb v (snd kv))
                    | None => true
                    end) stage_env.
Proof.
  intros H. unfold compute_job_env.
  destruct stage_env as [|a stage_env]; [reflexivity|].
  destruct global_env as [|g global_env].
  - symmetry. apply forallb_filter_id. apply forallb_forall. now intros x _.
  - set (ge := g :: global_env) in *. set (se := a :: stage_env) in *.
    rewrite <- (app_nil_l (filter _ se)).
    rewrite <- (@fold_dict_set_filter str _ se []); [|exact H].
    apply fold_left_pointwise. intros out kv.
    destruct (dict_get (fst kv) ge) as [v|]; [|reflexivity].
    now destruct (str_eqb v (snd kv)).
Qed.

(** The environment of a job holds exactly the variables of the stage
    that the workflow-level environment does not already give the same
    value. *)
Theorem compute_job_env_keeps_differences (global_env stage_env : dict str) (k v : str) :
  NoDup (dict_keys stage_env) ->
  dict_get k (compute_job_env global_env stage_env) = Some v <->
  dict_get k stage_env = Some v /\ dict_get k global_env <> Some v.
Proof.
  intros H. rewrite (@compute_job_env_filter global_env stage_env H).
  set (keep := fun kv : str * str => _).
  split.
  - intros Hg. apply dict_get_In in Hg. apply filter_In in Hg. destruct Hg as [Hin Hkeep].
    split; [now apply dict_get_unique|].
    unfold keep in Hkeep. cbn [fst snd] in Hkeep. intros Hge. rewrite Hge in Hkeep.
    now rewrite str_eqb_refl in Hkeep.
  - intros [Hs Hge]. apply dict_get_unique; [now apply NoDup_keys_filter|].
    apply filter_In. split; [now apply dict_get_In|].
    unfold keep. cbn [fst snd]. destruct (dict_get k global_env) as [v'|]; [|reflexivity].
    destruct (str_eqb v' v) eqn:E; [|reflexivity].
    apply str_eqb_eq in E. subst. now elim Hge.
Qed.

Lemma compute_job_env_keeps_differences_witness :
  dict_get (txt "MODE")
    (compute_job_env [(txt "HOME", txt "/srv"); (txt "MODE", txt "fast")]
                     [(txt "HOME", txt "/srv"); (txt "MODE", txt "slow")])
  = Some (txt "slow").
Proof.
  apply (proj2 (@compute_job_env_keeps_differences
                  [(txt "HOME", txt "/srv"); (txt "MODE", txt "fast")]
                  [(txt "HOME", txt "/srv"); (txt "MODE", txt "slow")]
                  (txt "MODE") (txt "slow")
                  ltac:(repeat constructor; simpl; intuition discriminate))).
  split; vm_compute; [reflexivity | discriminate].
Defined.

Lemma docker_command_no_login (d : docker_step) : uses_login (docker_command d) = false.
Proof. unfold docker_command. now destruct (docker_type d). Qed.

Lemma existsb_login_commands (ds : list docker_step) :
  existsb uses_login (map docker_command ds) = false.
Proof.
  induction ds as [|d ds IH]; [reflexivity|].
  cbn [map existsb]. now rewrite docker_command_no_login, IH.
Qed.

(** Once a login step stands in the list, every docker step adds its
    command and nothing else. *)
Lemma docker_rounds_logged_in (ds : list docker_step) : forall acc,
  existsb uses_login acc = true ->
  fold_left docker_round ds acc = acc ++ map docker_command ds.
Proof.
  induction ds as [|d ds IH]; intros acc H; cbn [fold_left map].
  - now rewrite app_nil_r.
  - assert (E : docker_round acc d = acc ++ [docker_command d]).
    { unfold docker_round, docker_command. destruct (docker_type d); [reflexivity|].
      now rewrite H. }
    rewrite E, IH.
    + now rewrite <- app_assoc.
    + rewrite existsb_app, H. reflexivity.
Qed.

Lemma docker_rounds_builds (ds : list docker_step) : forall acc,
  forallb is_build ds = true ->
  fold_left docker_round ds acc = acc ++ map docker_command ds.
Proof.
  induction ds as [|d ds IH]; intros acc H; cbn [fold_left map].
  - now rewrite app_nil_r.
  - cbn [forallb] in H. apply andb_true_iff in H. destruct H as [Hd H].
    assert (E : docker_round acc d = acc ++ [docker_command d]).
    { unfold docker_round, docker_command, is_build in *. now destruct (docker_type d). }
    rewrite E, IH by exact H. now rewrite <- app_assoc.
Qed.

(** [convert_docker_steps] turns every docker step into one run step,
    in order, and puts one login step immediately before the first
    push; without a push there is no login step. *)
Theorem convert_docker_steps_login_before_first_push (builds : list docker_step) :
  forallb is_build builds = true ->
  convert_docker_steps builds = map docker_command builds /\
  forall (push : docker_step) (rest : list docker_step),
    docker_type push = DockerPush ->
    convert_docker_steps (builds ++ push :: rest) =
    map docker_command builds ++ docker_login :: map docker_command (push :: rest).
Proof.
  intros H. split.
  - change (convert_docker_steps builds) with (fold_left docker_round builds []).
    now rewrite docker_rounds_builds.
  - intros push rest Hp.
    change (convert_docker_steps (builds ++ push :: rest))
      with (fold_left docker_round (builds ++ push :: rest) []).
    rewrite fold_left_app, (@docker_rounds_builds builds [] H).
    cbn [app fold_left].
    assert (E : docker_round (map docker_command builds) push =
                map docker_command builds ++ [docker_login; docker_command push]).
    { unfold docker_round, docker_command. rewrite Hp. rewrite existsb_login_commands.
      cbn [negb]. now rewrite <- app_assoc. }
    rewrite E, docker_rounds_logged_in.
    + rewrite <- app_assoc. reflexivity.
    + rewrite existsb_app. cbn [existsb]. rewrite orb_true_r. reflexivity.
Qed.

Lemma convert_docker_steps_login_before_first_push_witness :
  map step_name
    (convert_docker_steps
       (extract_docker_steps (txt "sh 'docker build -t app .' ; sh 'docker push app'")))
  = [Some (txt "Build Docker image"); Some (txt "Login to DockerHub");
     Some (txt "Push Docker image")].
Proof.
  change (extract_docker_steps (txt "sh 'docker build -t app .' ; sh 'docker push app'"))
    with ([{| docker_type := DockerBuild; docker_tag := txt "app";
              docker_context := Some (txt ".' ; sh 'docker push app'") |}]
          ++ {| docker_type := DockerPush; docker_tag := txt "app'"; docker_context := None |}
             :: []).
  rewrite (proj2 (@convert_docker_steps_login_before_first_push
                    [{| docker_type := DockerBuild; docker_tag := txt "app";
                        docker_context := Some (txt ".' ; sh 'docker push app'") |}]
                    ltac:(reflexivity))
             {| docker_type := DockerPush; docker_tag := txt "app'"; docker_context := None |}
             [] ltac:(reflexivity)).
  reflexivity.
Defined.

Section ActionFacts.

Variable runner : Type.
Variable map_label_to_runs_on : str -> runner.

#[local] Abbreviation job := (job_def runner).
#[local] Abbreviation state := (loop_state runner).

Section Rounds.

Variable global_env : dict str.
Variable default_runs_on : runs_on runner.
Variable default_container : option container.

#[local] Abbreviation jobs_of :=
  (stage_jobs map_label_to_runs_on global_env default_runs_on default_container).
#[local] Abbreviation round :=
  (process_stage map_label_to_runs_on global_env default_runs_on default_container).
#[local] Abbreviation job_for :=
  (make_job map_label_to_runs_on global_env default_runs_on default_container).
#[local] Abbreviation assignments :=
  (assignments_from map_label_to_runs_on global_env default_runs_on default_container).

(** Every round records one stage for every job it assigns, under the
    name the job id comes from. *)
Lemma round_stages_info (st : state) (stg : stage) :
  map (fun info => gha_job_id (si_name info)) (ls_stages_info (round st stg)) =
  map (fun info => gha_job_id (si_name info)) (ls_stages_info st) ++ map fst (jobs_of st stg).
Proof.
  unfold process_stage, stage_jobs.
  destruct (extract_parallel (stage_content stg)) as [|sub subs];
    cbn [ls_stages_info]; rewrite map_app; f_equal.
  rewrite !map_map. reflexivity.
Qed.

Lemma loop_stages_info (stages_list : list stage) : forall st,
  map (fun info => gha_job_id (si_name info))
    (ls_stages_info (fold_left round stages_list st)) =
  map (fun info => gha_job_id (si_name info)) (ls_stages_info st)
  ++ map fst (assignments st stages_list).
Proof.
  induction stages_list as [|stg rest IH]; intros st; cbn [fold_left assignments_from map].
  - now rewrite app_nil_r.
  - rewrite IH, round_stages_info, map_app. now rewrite app_assoc.
Qed.

Lemma make_job_fresh (body : str) (n : option needs) :
  job_name (job_for body n) = None /\ job_environment (job_for body n) = None.
Proof. unfold make_job. destruct (apply_agent_to_job _ _ _ _). split; reflexivity. Qed.

Lemma stage_jobs_fresh (st : state) (stg : stage) (a : str * job) :
  In a (jobs_of st stg) -> job_name (snd a) = None /\ job_environment (snd a) = None.
Proof.
  unfold stage_jobs. destruct (extract_parallel (stage_content stg)) as [|sub subs].
  - intros [<-|[]]. apply make_job_fresh.
  - intros H. apply in_map_iff in H. destruct H as (s & <- & _). apply make_job_fresh.
Qed.

Lemma assignments_fresh (stages_list : list stage) : forall st a,
  In a (assignments st stages_list) ->
  job_name (snd a) = None /\ job_environment (snd a) = None.
Proof.
  induction stages_list as [|stg rest IH]; intros st a H; [contradiction|].
  cbn [assignments_from] in H. apply in_app_or in H. destruct H as [H|H].
  - eapply stage_jobs_fresh. exact H.
  - eapply IH. exact H.
Qed.

End Rounds.

(** When the keys of the mapping are distinct and stand in the order of
    the metadata, every job takes the metadata of its own stage. *)
Lemma update_jobs_aligned (jobs : dict job) : forall action_paths ai,
  map fst jobs = map action_job_id action_paths ->
  NoDup (map fst jobs) ->
  In ai action_paths ->
  exists j0, In (action_job_id ai, j0) jobs /\
    dict_get (action_job_id ai) (update_jobs jobs action_paths) = Some (update_job j0 ai).
Proof.
  induction jobs as [|[k j] jobs IH]; intros [|a aps] ai Hk Hnd Hin; try discriminate;
    try contradiction.
  cbn [map fst] in Hk, Hnd. injection Hk as Hk Hks. inversion Hnd as [|? ? Hfresh Hnd']; subst.
  cbn [update_jobs dict_get]. destruct Hin as [->|Hin].
  - exists j. split; [now left|]. now rewrite str_eqb_refl.
  - destruct (str_eqb (action_job_id ai) (action_job_id a)) eqn:E.
    + apply str_eqb_eq in E. exfalso. apply Hfresh. rewrite Hks, <- E.
      now apply in_map.
    + destruct (IH aps ai Hks Hnd' Hin) as (j0 & Hj0 & Hg).
      exists j0. split; [now right | exact Hg].
Qed.

(** When no two assignments share a job id, the job of every stage runs
    the composite action generated for that very stage, and asks for the
    approval environment exactly when the stage has one. *)
Theorem jobs_invoke_their_actions (parts : pipeline_parts) (ai : action_info) :
  NoDup (map fst (job_assignments map_label_to_runs_on parts)) ->
  In ai (conv_action_paths (build_workflow map_label_to_runs_on parts)) ->
  exists jd,
    dict_get (action_job_id ai)
      (wf_jobs (conv_workflow (build_workflow map_label_to_runs_on parts))) = Some jd /\
    job_steps jd = create_enhanced_job_steps ai /\
    job_environment jd =
      if nonempty (ai_approval_environment ai) then Some (ai_approval_environment ai)
      else None.
Proof.
  unfold build_workflow, job_assignments.
  destruct (agent_runner map_label_to_runs_on (pp_global_agent parts)) as [dro dc].
  unfold save_enhanced_composite_actions. cbn [conv_workflow wf_jobs conv_action_paths].
  unfold process_stages. rewrite process_stages_jobs. cbn [ls_jobs initial_state].
  pose proof (loop_stages_info (pp_global_env parts) dro dc (pp_stages_list parts)
                (initial_state runner)) as Hinfo.
  cbn [ls_stages_info initial_state map app] in Hinfo.
  set (st := fold_left _ (pp_stages_list parts) (initial_state runner)) in *.
  set (loop := assignments_from map_label_to_runs_on (pp_global_env parts) dro dc
                 (initial_state runner) (pp_stages_list parts)) in *.
  set (aps := map action_metadata (ls_stages_info st)).
  intros Hnd Hin.
  assert (Hloop : NoDup (map fst loop)).
  { rewrite map_app in Hnd. now apply NoDup_app_remove_r in Hnd. }
  assert (HL : assign_jobs loop [] = loop) by (apply (assign_jobs_fresh loop []); exact Hloop).
  rewrite HL in *.
  assert (Hkeys : map fst loop = map action_job_id aps).
  { subst aps. rewrite map_map. rewrite <- Hinfo. reflexivity. }
  destruct (update_jobs_aligned loop aps ai Hkeys Hloop Hin) as (j0 & Hj0 & Hg).
  exists (update_job j0 ai). split; [|split].
  - unfold add_pipeline_post.
    rewrite (@pipeline_post_job_keys runner (pp_pipeline_post parts) dro dc
               (update_jobs loop aps) loop (update_jobs_keys loop aps)).
    destruct (pipeline_post_job (pp_pipeline_post parts) dro dc loop) as [pj|]; [|exact Hg].
    rewrite dict_get_set_ne; [exact Hg|].
    intros E. rewrite map_app in Hnd. cbn [map fst] in Hnd.
    apply NoDup_remove_2 in Hnd. apply Hnd. rewrite app_nil_r, E.
    apply (in_map fst) in Hj0. exact Hj0.
  - reflexivity.
  - cbn [update_job job_environment].
    destruct (nonempty (ai_approval_environment ai)); [reflexivity|].
    apply (assignments_fresh (pp_global_env parts) dro dc (pp_stages_list parts)
             (initial_state runner) (action_job_id ai, j0) Hj0).
Qed.

End ActionFacts.

Lemma jobs_invoke_their_actions_witness :
  exists jd,
    dict_get (txt "deploy")
      (wf_jobs (conv_workflow (build_workflow (fun label : str => label) approval_parts)))
    = Some jd /\
    map step_uses (job_steps jd)
    = [Some (txt "actions/checkout@v4"); Some (txt "./.github/actions/deploy")] /\
    job_environment jd = Some (txt "approval-deploy").
Proof.
  destruct (@jobs_invoke_their_actions str (fun label : str => label) approval_parts
              (action_metadata
                 (make_stage_info (txt "Deploy")
                    (txt " steps { input(message: 'Approve?') sh 'make deploy' } ")))
              ltac:(vm_compute; constructor; [intros [] | constructor])
              ltac:(vm_compute; left; reflexivity))
    as (jd & Hg & Hs & He).
  exists jd. split; [exact Hg|]. split; [rewrite Hs | rewrite He]; vm_compute; reflexivity.
Defined.

(** What [_extract_post_body] returns has only the four condition names
    as keys, and no entry without content. *)
Lemma extract_post_body_entries (body : str) (k : str) (d : post_data) :
  In (k, d) (_extract_post_body body) ->
  In k (map txt post_kinds) /\ post_data_empty d = false.
Proof.
  unfold _extract_post_body. destruct (find_block body (kw "post")) as [ps pe].
  destruct (ps =? -1)%Z; [contradiction|].
  set (post_body := slice body ps pe).
  assert (Hfold : forall kinds out,
    (forall k d, In (k, d) out -> In k (map txt post_kinds) /\ post_data_empty d = false) ->
    incl kinds post_kinds ->
    forall k d,
    In (k, d) (fold_left
                 (fun out kind =>
                    let kdata := _collect post_body kind in
                    if post_data_empty kdata then out else dict_set (txt kind) kdata out)
                 kinds out) ->
    In k (map txt post_kinds) /\ post_data_empty d = false).
  { induction kinds as [|kind kinds IH]; intros out Hout Hincl k' d' Hin; [now apply Hout|].
    cbn [fold_left] in Hin. eapply IH; [| |exact Hin].
    - cbv zeta. destruct (post_data_empty (_collect post_body kind)) eqn:E; [exact Hout|].
      intros k0 d0 H0.
      assert (Hset : forall (out : dict post_data) k1 v1 k0 d0,
                In (k0, d0) (dict_set k1 v1 out) -> In (k0, d0) out \/ (k0, d0) = (k1, v1)).
      { clear. induction out as [|[k2 v2] out IHo]; intros k1 v1 k0 d0 H.
        - destruct H as [H|[]]. right. now symmetry.
        - cbn [dict_set] in H. destruct (str_eqb k1 k2) eqn:E.
          + destruct H as [H|H]; [right; apply str_eqb_eq in E; subst; now symmetry|].
            left. now right.
          + destruct H as [H|H]; [left; now left|].
            destruct (IHo _ _ _ _ H) as [H1|H1]; [left; now right | now right]. }
      apply Hset in H0. destruct H0 as [H0|H0]; [now apply Hout|].
      inversion H0; subst. split; [|exact E].
      apply in_map. apply Hincl. now left.
    - intros x Hx. apply Hincl. now right. }
  apply Hfold; [intros ? ? [] | apply incl_refl].
Qed.

Lemma pipeline_post_steps_nonempty (post : dict post_data) (kind : string)
    (d : post_data) :
  dict_get (txt kind) post = Some d ->
  post_data_empty d = false ->
  pipeline_post_steps post kind <> [].
Proof.
  intros Hg He. unfold pipeline_post_steps. rewrite Hg.
  unfold post_data_empty in He.
  destruct (post_archive d); [discriminate|].
  destruct (post_commands d); [discriminate|].
  destruct (post_mail_to d); [discriminate|discriminate].
Qed.

Lemma parse_pipeline_post (jenkins_text : str) (parts : pipeline_parts) :
  parse_pipeline jenkins_text = Ok parts ->
  pp_pipeline_post parts = extract_pipeline_post (pp_pipeline_body parts).
Proof.
  unfold parse_pipeline.
  destruct (find_block (strip_comments jenkins_text) (kw "pipeline")) as [pstart pend].
  destruct (pstart =? -1)%Z; [discriminate|].
  destruct (find_block _ (kw "stages")) as [ss se].
  destruct (ss =? -1)%Z; [discriminate|].
  intros H. injection H as <-. reflexivity.
Qed.

Lemma flat_map_nonempty (A B : Type) (f : A -> list B) (l : list A) (x : A) :
  In x l -> f x <> [] -> flat_map f l <> [].
Proof.
  induction l as [|y l IH]; intros Hin Hx; [contradiction|].
  cbn [flat_map]. destruct Hin as [->|Hin].
  - destruct (f x); [congruence | discriminate].
  - intros E. apply app_eq_nil in E. destruct E as [_ E]. now apply (IH Hin Hx).
Qed.

Section PostFacts.

Variable runner : Type.
Variable map_label_to_runs_on : str -> runner.

#[local] Abbreviation job := (job_def runner).

Lemma pipeline_post_job_built (body : str) (dro : runs_on runner) (dc : option container)
    (jobs : dict job) :
  extract_pipeline_post body <> [] ->
  exists steps,
    pipeline_post_job (extract_pipeline_post body) dro dc jobs =
    Some {| job_name := Some (txt "Pipeline Post");
            job_runs_on := dro;
            job_container := dc;
            job_env := None;
            job_if := Some (txt "always()");
            job_needs :=
              Some (NeedsIds (filter (fun k => negb (str_eqb k pipeline_post_id))
                                (dict_keys jobs)));
            job_steps := checkout_step :: steps;
            job_environment := None |}.
Proof.
  unfold extract_pipeline_post. intros Hne.
  destruct (_extract_post_body body) as [|[k d] post] eqn:Ep; [congruence|].
  destruct (@extract_post_body_entries body k d) as [Hk Hd]; [rewrite Ep; now left|].
  apply in_map_iff in Hk. destruct Hk as (kind & <- & Hkind).
  assert (Hsteps : flat_map (pipeline_post_steps ((txt kind, d) :: post)) post_kinds <> []).
  { apply (@flat_map_nonempty _ _ _ post_kinds kind Hkind).
    apply (@pipeline_post_steps_nonempty _ kind d); [|exact Hd].
    cbn [dict_get]. now rewrite str_eqb_refl. }
  unfold pipeline_post_job.
  destruct (flat_map (pipeline_post_steps ((txt kind, d) :: post)) post_kinds) as [|s steps];
    [congruence|].
  exists (s :: steps). reflexivity.
Qed.

Lemma update_jobs_names (jobs : dict job) : forall action_paths k j,
  In (k, j) (update_jobs jobs action_paths) ->
  exists j0, In (k, j0) jobs /\ job_name j = job_name j0.
Proof.
  induction jobs as [|[k0 j0] jobs IH]; intros [|a aps] k j H; try contradiction.
  - exists j. split; [exact H | reflexivity].
  - cbn [update_jobs] in H. destruct H as [H|H].
    + inversion H; subst. exists j0. split; [now left | reflexivity].
    + destruct (IH aps k j H) as (j1 & Hj1 & E). exists j1. split; [now right | exact E].
Qed.

Lemma assign_jobs_In (a : list (str * job)) : forall jobs k j,
  In (k, j) (assign_jobs a jobs) -> In (k, j) jobs \/ In (k, j) a.
Proof.
  induction a as [|[k0 j0] a IH]; intros jobs k j H; [now left|].
  cbn [assign_jobs fold_left fst snd] in H. apply IH in H. destruct H as [H|H]; [|right; now right].
  clear IH. induction jobs as [|[k1 j1] jobs IHj].
  - destruct H as [H|[]]. right. left. exact H.
  - cbn [dict_set] in H. destruct (str_eqb k0 k1) eqn:E.
    + apply str_eqb_eq in E. subst k1.
      destruct H as [H|H]; [right; left; exact H | left; now right].
    + destruct H as [H|H]; [left; now left|].
      destruct (IHj H) as [H1|H1]; [left; now right | now right].
Qed.

(** A pipeline whose post block has content gets the job
    [pipeline-post]: it runs whatever the outcome and needs every other
    job of the workflow.  Without such a block no job carries a display
    name, so there is no post job. *)
Theorem pipeline_post_job_waits_for_all (jenkins_text : str) (parts : pipeline_parts) :
  parse_pipeline jenkins_text = Ok parts ->
  (pp_pipeline_post parts <> [] ->
   exists pj,
     dict_get pipeline_post_id
       (wf_jobs (conv_workflow (build_workflow map_label_to_runs_on parts))) = Some pj /\
     job_name pj = Some (txt "Pipeline Post") /\
     job_if pj = Some (txt "always()") /\
     needs_ids (job_needs pj) =
       filter (fun k => negb (str_eqb k pipeline_post_id))
         (dict_keys (wf_jobs (conv_workflow (build_workflow map_label_to_runs_on parts))))) /\
  (pp_pipeline_post parts = [] ->
   forall k jd,
     In (k, jd) (wf_jobs (conv_workflow (build_workflow map_label_to_runs_on parts))) ->
     job_name jd = None).
Proof.
  intros Hparse. rewrite (parse_pipeline_post _ Hparse).
  unfold build_workflow.
  destruct (agent_runner map_label_to_runs_on (pp_global_agent parts)) as [dro dc].
  unfold save_enhanced_composite_actions. cbn [conv_workflow wf_jobs].
  rewrite (parse_pipeline_post _ Hparse).
  set (jobs := update_jobs _ _).
  split.
  - intros Hne. unfold add_pipeline_post.
    destruct (pipeline_post_job_built (pp_pipeline_body parts) dro dc jobs Hne) as [steps E].
    rewrite E. eexists. split; [apply dict_get_set_eq|].
    cbn [job_name job_if job_needs needs_ids]. split; [reflexivity|]. split; [reflexivity|].
    rewrite dict_keys_set. destruct (dict_mem pipeline_post_id jobs); [reflexivity|].
    rewrite filter_app. cbn [filter]. rewrite str_eqb_refl. cbn [negb].
    now rewrite app_nil_r.
  - intros Hnil k jd Hin. unfold add_pipeline_post in Hin. rewrite Hnil in Hin.
    cbn [pipeline_post_job] in Hin. subst jobs.
    apply update_jobs_names in Hin. destruct Hin as (j0 & Hj0 & ->).
    unfold process_stages in Hj0. rewrite process_stages_jobs in Hj0.
    cbn [ls_jobs initial_state] in Hj0. apply assign_jobs_In in Hj0.
    destruct Hj0 as [[]|Hj0].
    apply (assignments_fresh map_label_to_runs_on (pp_global_env parts) dro dc
             (pp_stages_list parts) (initial_state runner) (k, j0) Hj0).
Qed.

End PostFacts.

Lemma pipeline_post_job_waits_for_all_witness :
  exists pj,
    dict_get pipeline_post_id
      (wf_jobs (conv_workflow
                  (build_workflow (fun label : str => label) parallel_then_post_parts)))
    = Some pj /\
    needs_ids (job_needs pj) = [txt "setup"; txt "a"; txt "b"; txt "end"].
Proof.
  destruct (proj1 (@pipeline_post_job_waits_for_all str (fun label : str => label)
                     parallel_then_post parallel_then_post_parts
                     ltac:(vm_compute; reflexivity))
              ltac:(vm_compute; discriminate))
    as (pj & Hg & _ & _ & Hn).
  exists pj. split; [exact Hg|]. rewrite Hn. vm_compute. reflexivity.
Defined.

Lemma stage_post_steps_view (stage_name : str) (post1 post2 : dict post_data)
    (kind : string) :
  post_view post1 kind = post_view post2 kind ->
  stage_post_steps stage_name post1 kind = stage_post_steps stage_name post2 kind.
Proof.
  unfold post_view, stage_post_steps.
  destruct (dict_get (txt kind) post1) as [d1|], (dict_get (txt kind) post2) as [d2|];
    intros H; inversion H as [[Ha Hc]]; try reflexivity.
  all: try (rewrite Ha, Hc; reflexivity).
  all: try (rewrite <- Ha, <- Hc; reflexivity).
Qed.

(** The composite action of a stage shows of the stage's post block only
    the artifacts and commands of [always], [success] and [failure]: a
    [cleanup] condition and every mail notification leave no trace in it,
    and neither does the agent of the stage. *)
Theorem stage_action_ignores_cleanup_and_mail (stage_name stage_body : str)
    (stage_env : dict str) (agent1 agent2 : agent) (post1 post2 : dict post_data) :
  (forall kind, In kind ["always"; "success"; "failure"]%string ->
                post_view post1 kind = post_view post2 kind) ->
  generate_enhanced_composite_action stage_name stage_body stage_env agent1 post1 =
  generate_enhanced_composite_action stage_name stage_body stage_env agent2 post2.
Proof.
  intros H. unfold generate_enhanced_composite_action. f_equal. f_equal.
  cbn [flat_map].
  rewrite (@stage_post_steps_view stage_name post1 post2 "always"),
          (@stage_post_steps_view stage_name post1 post2 "success"),
          (@stage_post_steps_view stage_name post1 post2 "failure");
    [reflexivity | apply H | apply H | apply H]; cbn [In]; tauto.
Qed.

Lemma stage_action_ignores_cleanup_and_mail_witness :
  generate_enhanced_composite_action (txt "Build") (txt " steps { sh 'make' } ") []
    AgentAny post_with_cleanup =
  generate_enhanced_composite_action (txt "Build") (txt " steps { sh 'make' } ") []
    AgentNone post_archive_only.
Proof.
  apply stage_action_ignores_cleanup_and_mail.
  intros kind [<-|[<-|[<-|[]]]]; reflexivity.
Defined.

Lemma fold_dict_set_keys (A V W : Type) (key : A -> str) (f : A -> V) (g : A -> W)
    (l : list A) : forall (d : dict V) (e : dict W),
  dict_keys d = dict_keys e ->
  dict_keys (fold_left (fun d a => dict_set (key a) (f a) d) l d) =
  dict_keys (fold_left (fun e a => dict_set (key a) (g a) e) l e).
Proof.
  induction l as [|a l IH]; intros d e H; [exact H|].
  cbn [fold_left]. apply IH.
  rewrite !dict_keys_set, !dict_mem_keys, H. reflexivity.
Qed.

Lemma last_error_snoc (A : Type) (l : list A) (x : A) : last_error (l ++ [x]) = Some x.
Proof. unfold last_error. now rewrite rev_app_distr. Qed.

(** The job of a stage ends with the step that uses the stage's action:
    it names the directory the action was written to, and it hands over
    exactly the inputs the action declares. *)
Theorem job_steps_match_written_actions (stages_info : list stage_info) :
  Forall2
    (fun written ai =>
       exists s,
         last_error (create_enhanced_job_steps ai) = Some s /\
         step_uses s = Some (txt "./" ++ fst written) /\
         with_keys s = dict_keys (action_inputs (snd written)))
    (fst (save_enhanced_composite_actions stages_info))
    (snd (save_enhanced_composite_actions stages_info)).
Proof.
  unfold save_enhanced_composite_actions. cbn [fst snd].
  induction stages_info as [|info rest IH]; cbn [map]; constructor; [|exact IH].
  unfold create_enhanced_job_steps. eexists. split; [apply last_error_snoc|].
  split; [reflexivity|].
  unfold with_keys, uses_step, generate_enhanced_composite_action.
  cbn [fst snd step_with action_inputs action_metadata ai_env].
  destruct (si_env info) as [|a env] eqn:E; [reflexivity|].
  apply fold_dict_set_keys. reflexivity.
Qed.

Lemma gha_job_id_nonempty (name : str) : nonempty (gha_job_id name) = true.
Proof. unfold gha_job_id. now destruct (lower _). Qed.

(** The jobs of a stage take their dependencies from the stage right
    before it and from nothing earlier: a stage after a sequential stage
    needs that stage's job; a sequential stage after a parallel group
    needs every branch; the branches of a parallel group that follows
    another group need the last branch of that group only. *)
Theorem needs_come_from_previous_stage (runner : Type)
    (map_label_to_runs_on : str -> runner) (global_env : dict str)
    (default_runs_on : runs_on runner) (default_container : option container)
    (st : loop_state runner) (stg next : stage) :
  Forall (fun a => needs_ids (job_needs (snd a)) = needs_after stg next)
    (stage_jobs map_label_to_runs_on global_env default_runs_on default_container
       (process_stage map_label_to_runs_on global_env default_runs_on default_container
          st stg)
       next).
Proof.
  apply Forall_forall. intros a Ha.
  unfold process_stage, needs_after in *.
  destruct (extract_parallel (stage_content stg)) as [|sub subs] eqn:Es.
  - unfold stage_jobs in Ha. cbn [ls_last_job_ids ls_prev_job_id] in Ha.
    rewrite gha_job_id_nonempty in Ha.
    destruct (extract_parallel (stage_content next)) as [|nsub nsubs].
    + destruct Ha as [<-|[]]. cbn [snd]. now rewrite make_job_needs.
    + apply in_map_iff in Ha. destruct Ha as (s & <- & _). cbn [snd].
      now rewrite make_job_needs, gha_job_id_nonempty.
  - set (ids := map (fun s => gha_job_id (stage_name s)) (sub :: subs)).
    assert (Hids : map fst
                     (stage_jobs map_label_to_runs_on global_env default_runs_on
                        default_container st stg) = ids).
    { unfold stage_jobs. rewrite Es. rewrite map_map. reflexivity. }
    unfold stage_jobs in Ha at 1. cbn [ls_last_job_ids ls_prev_job_id] in Ha.
    rewrite Hids in Ha.
    destruct (extract_parallel (stage_content next)) as [|nsub nsubs].
    + destruct Ha as [<-|[]]. cbn [snd]. rewrite make_job_needs.
      subst ids. reflexivity.
    + apply in_map_iff in Ha. destruct Ha as (s & <- & _). cbn [snd].
      rewrite make_job_needs. cbn [nonempty nonempty_list].
      destruct (last_error ids) as [u|] eqn:El; [|reflexivity].
      assert (Hu : nonempty u = true).
      { apply last_error_In in El. subst ids. apply in_map_iff in El.
        destruct El as (x & <- & _). apply gha_job_id_nonempty. }
      now rewrite Hu.
Qed.

Lemma secret_ch_of_name_ch (c : ascii) :
  is_name_ch c = true ->
  is_secret_ch (if ch_eqb "-" (upper_ch c) then "_"%char else upper_ch c) = true.
Proof. by_ascii_cases c. Qed.

(** For a credential id of letters, digits, hyphens and underscores the
    secret name is made of upper-case letters, digits and underscores,
    and it is as long as the id. *)
Theorem secret_name_of_plain_id (cred : str) :
  forallb is_name_ch cred = true ->
  forallb is_secret_ch (secret_name cred) = true /\
  length (secret_name cred) = length cred.
Proof.
  intros H. unfold secret_name.
  change (txt "-") with ["-"%char]. change (txt "_") with ["_"%char].
  rewrite replace_char. unfold upper. rewrite map_map, length_map. split; [|reflexivity].
  apply forallb_forall. intros x Hx. apply in_map_iff in Hx. destruct Hx as (c & <- & Hc).
  apply secret_ch_of_name_ch. rewrite forallb_forall in H. now apply H.
Qed.

Lemma secret_name_of_plain_id_witness :
  forallb is_secret_ch (secret_name (txt "docker-hub_2")) = true /\
  length (secret_name (txt "docker-hub_2")) = 12.
Proof. apply (@secret_name_of_plain_id (txt "docker-hub_2")). reflexivity. Defined.

Lemma strip_prefix_self (l rest : str) : strip_prefix l (l ++ rest) = Some rest.
Proof.
  induction l as [|c l IH]; [reflexivity|].
  cbn [app strip_prefix]. unfold ch_eqb. now rewrite Ascii.eqb_refl.
Qed.

Lemma contains_at (pre l rest : str) : contains l (pre ++ l ++ rest) = true.
Proof.
  induction pre as [|c pre IH].
  - cbn [app]. destruct (l ++ rest) eqn:E; cbn [contains]; unfold startswith;
      rewrite <- E, strip_prefix_self; reflexivity.
  - cbn [app contains]. rewrite IH. apply orb_true_r.
Qed.

(** A greedy repetition takes every character of the class that stands
    before the first character outside it, when what follows accepts
    that. *)
Lemma rep_match_greedy_until (R : Type) (p : ascii -> bool) (taken rest : str) (x : R) :
  forall lo i pv (k : kont R),
  forallb p taken = true ->
  lo <= length taken ->
  match rest with c :: _ => p c = false | [] => True end ->
  (forall pv', k (i + length taken) pv' rest = Some x) ->
  rep_match true p lo None i pv (taken ++ rest) k = Some x.
Proof.
  induction taken as [|c taken IH]; intros lo i pv k Hp Hlo Hrest Hk.
  - simpl in Hlo. assert (lo = 0) by lia. subst lo.
    cbn [app]. cbn [length] in Hk. rewrite Nat.add_0_r in Hk.
    destruct rest as [|c rest]; cbn [rep_match]; [apply Hk|].
    rewrite Hrest. apply Hk.
  - cbn [forallb] in Hp. apply andb_true_iff in Hp. destruct Hp as [Hc Hp].
    cbn [app rep_match]. rewrite Hc. cbn [option_map].
    rewrite (IH (pred lo) (S i) (Some c) k Hp); [reflexivity | simpl in Hlo; lia | exact Hrest |].
    intros pv'. replace (S i + length taken) with (i + length (c :: taken)) by (simpl; lia).
    apply Hk.
Qed.

Lemma params_ref_here (text : str) (name post : str) (i : nat) (pv : option ascii) :
  name <> [] ->
  forallb not_rbrace name = true ->
  match_here text re_params_ref i pv (txt "${params." ++ name ++ txt "}" ++ post) =
  Some {| m_start := i;
          m_end := i + 9 + length name + 1;
          m_caps := [(1, (i + 9, i + 9 + length name))] |}.
Proof.
  intros Hne Hname. unfold match_here, re_params_ref, L, plus. cbn [rmatch].
  rewrite strip_prefix_self. cbv beta iota.
  change (length (txt "${params.")) with 9.
  apply rep_match_greedy_until.
  - exact Hname.
  - destruct name; [congruence | simpl; lia].
  - reflexivity.
  - intros pv'. change (txt "}" ++ post) with ("}"%char :: post).
    change (txt "}") with ["}"%char]. cbn [strip_prefix].
    unfold ch_eqb. rewrite Ascii.eqb_refl. cbn [length set_cap].
    reflexivity.
Qed.

Lemma params_ref_search (text : str) (name post : str) (pre : str) : forall i pv,
  forallb no_dollar pre = true ->
  name <> [] ->
  forallb not_rbrace name = true ->
  search_from text re_params_ref i pv (pre ++ txt "${params." ++ name ++ txt "}" ++ post) =
  Some {| m_start := i + length pre;
          m_end := i + length pre + 9 + length name + 1;
          m_caps := [(1, (i + length pre + 9, i + length pre + 9 + length name))] |}.
Proof.
  induction pre as [|c pre IH]; intros i pv Hpre Hne Hname.
  - cbn [app length]. rewrite Nat.add_0_r.
    destruct (txt "${params." ++ name ++ txt "}" ++ post) eqn:E; [discriminate|].
    cbn [search_from]. rewrite <- E. now rewrite params_ref_here.
  - cbn [forallb] in Hpre. apply andb_true_iff in Hpre. destruct Hpre as [Hc Hpre].
    cbn [app search_from].
    change re_params_ref
      with (Cat (Lit (txt "${params.")) (Cat (Grp 1 (plus not_rbrace)) (L "}"))) at 1.
    rewrite match_here_lit_fails.
    + rewrite IH by assumption. cbn [length].
      replace (S i + length pre) with (i + S (length pre)) by lia. reflexivity.
    + change (txt "${params.") with ("$"%char :: txt "{params.").
      cbn [strip_prefix]. unfold no_dollar in Hc. now destruct (ch_eqb "$" c).
Qed.

Lemma substr_middle (a b c : str) :
  substr (a ++ b ++ c) (length a, length a + length b) = b.
Proof.
  unfold substr. cbn [fst snd].
  replace (length a + length b - length a) with (length b) by lia.
  rewrite skipn_app, skipn_all, Nat.sub_diag. cbn [skipn app].
  rewrite firstn_app, firstn_all, Nat.sub_diag. cbn [firstn]. apply app_nil_r.
Qed.

(** A branch that holds a parameter reference, with no dollar sign
    before it, makes the checkout step take the input of that name as
    its [ref]; whatever stands around the reference is dropped. *)
Theorem branch_parameter_becomes_input (g : git_step) (pre name post : str) :
  git_branch g = pre ++ txt "${params." ++ name ++ txt "}" ++ post ->
  forallb no_dollar pre = true ->
  name <> [] ->
  forallb not_rbrace name = true ->
  step_ref (convert_git_step g) = Some (txt "${{ inputs." ++ name ++ txt " }}").
Proof.
  intros Hb Hpre Hne Hname. unfold step_ref, convert_git_step. cbn [step_with uses_step].
  set (d0 := if nonempty (git_url g) then _ else _).
  rewrite Hb.
  assert (Hnon : nonempty (pre ++ txt "${params." ++ name ++ txt "}" ++ post) = true).
  { now destruct pre. }
  rewrite Hnon, contains_at. unfold re_search.
  rewrite params_ref_search by assumption.
  assert (Hgrp : group_or_empty (pre ++ txt "${params." ++ name ++ txt "}" ++ post)
                   {| m_start := 0 + length pre;
                      m_end := 0 + length pre + 9 + length name + 1;
                      m_caps := [(1, (0 + length pre + 9, 0 + length pre + 9 + length name))] |}
                   1 = name).
  { unfold group_or_empty, group. cbn [m_caps get_cap Nat.eqb option_map].
    cbn [Nat.add].
    rewrite (app_assoc pre (txt "${params.")).
    replace (length pre + 9) with (length (pre ++ txt "${params."))
      by (rewrite length_app; reflexivity).
    apply substr_middle. }
  rewrite Hgrp.
  set (d1 := dict_set (txt "ref") (expr "inputs" name) d0).
  assert (H1 : dict_get (txt "ref") d1 = Some (expr "inputs" name))
    by apply dict_get_set_eq.
  destruct (nonempty (git_credentialsId g)).
  - apply dict_get_opt_dict. rewrite dict_get_set_ne; [exact H1 | discriminate].
  - apply dict_get_opt_dict. exact H1.
Qed.

Lemma branch_parameter_becomes_input_witness :
  step_ref (convert_git_step release_branch_checkout) = Some (txt "${{ inputs.VERSION }}").
Proof.
  apply (@branch_parameter_becomes_input release_branch_checkout
           (txt "release/") (txt "VERSION") []);
    [reflexivity | reflexivity | discriminate | reflexivity].
Defined.

(** ** Further properties of [jenkins_extractors.py] *)

Lemma rep_match_inv_taken (R : Type) (greedy : bool) (p : ascii -> bool) (s : str) :
  forall lo hi i pv (k : kont R) x,
  rep_match greedy p lo hi i pv s k = Some x ->
  exists taken rest pv',
    s = taken ++ rest /\ forallb p taken = true /\
    k (i + length taken) pv' rest = Some x.
Proof.
  induction s as [|c s IH]; intros lo hi i pv k x H.
  - simpl in H.
    assert (Hk : k i pv [] = Some x).
    { destruct greedy, lo, hi as [[|h]|]; simpl in H;
        try destruct (k i pv []); congruence. }
    exists [], [], pv. cbn [length app forallb]. rewrite Nat.add_0_r. auto.
  - simpl in H.
    assert (Hcases :
      (lo = 0 /\ k i pv (c :: s) = Some x) \/
      (p c = true /\
       rep_match greedy p (pred lo) (option_map pred hi) (S i) (Some c) s k = Some x)).
    { destruct (p c); destruct hi as [[|h]|]; destruct greedy; destruct lo;
        simpl in H;
        repeat match type of H with
        | match ?e with Some _ => _ | None => _ end = _ =>
          let E := fresh "E" in destruct e eqn:E
        end; try discriminate; try (inversion H; subst); auto. }
    destruct Hcases as [[_ Hk] | [Hc Hr]].
    + exists [], (c :: s), pv. cbn [length app forallb]. rewrite Nat.add_0_r. auto.
    + apply IH in Hr. destruct Hr as (taken & rest & pv' & -> & Hp & Hk).
      exists (c :: taken), rest, pv'. cbn [app forallb length]. rewrite Hc, Hp.
      replace (i + S (length taken)) with (S i + length taken) by lia. auto.
Qed.

(** A match leaves the groups alone that its pattern does not hold. *)
Lemma rmatch_caps_frame (R : Type) (text : str) (n : nat) (r : regex) :
  forall i pv s g (k : gkont R) x,
  sets_group n r = false ->
  rmatch text r i pv s g k = Some x ->
  exists i' pv' s' g', k i' pv' s' g' = Some x /\ get_cap n g' = get_cap n g.
Proof.
  induction r as [l|p|greedy lo hi p| |r1 IH1 r2 IH2|r1 IH1 r2 IH2|r1 IH1|m r1 IH1|m];
    intros i pv s g k x Hn H; cbn [sets_group] in Hn; cbn [rmatch] in H.
  - destruct (strip_prefix l s) as [s'|]; [|discriminate]. eexists _, _, _, g; split; [exact H | reflexivity].
  - destruct s as [|c s]; [discriminate|]. destruct (p c); [|discriminate].
    eexists _, _, _, g; split; [exact H | reflexivity].
  - apply rep_match_inv in H. destruct H as (i' & pv' & s' & _ & Hk).
    now exists i', pv', s', g.
  - destruct (xorb _ _); [|discriminate]. eexists _, _, _, g; split; [exact H | reflexivity].
  - apply orb_false_iff in Hn. destruct Hn as [Hn1 Hn2].
    apply (IH1 _ _ _ _ _ _ Hn1) in H. destruct H as (i1 & pv1 & s1 & g1 & H & E1).
    apply (IH2 _ _ _ _ _ _ Hn2) in H. destruct H as (i2 & pv2 & s2 & g2 & H & E2).
    exists i2, pv2, s2, g2. split; [exact H | congruence].
  - apply orb_false_iff in Hn. destruct Hn as [Hn1 Hn2].
    destruct (rmatch text r1 i pv s g k) eqn:E.
    + inversion H; subst. now apply (IH1 _ _ _ _ _ _ Hn1) in E.
    + now apply (IH2 _ _ _ _ _ _ Hn2) in H.
  - destruct (rmatch text r1 i pv s g k) eqn:E.
    + inversion H; subst. now apply (IH1 _ _ _ _ _ _ Hn) in E.
    + now exists i, pv, s, g.
  - apply orb_false_iff in Hn. destruct Hn as [Hnm Hn1].
    apply (IH1 _ _ _ _ _ _ Hn1) in H. destruct H as (i1 & pv1 & s1 & g1 & H & E1).
    eexists _, _, _, _. split; [exact H|].
    unfold set_cap. cbn [get_cap]. now rewrite Hnm.
  - destruct (get_cap m g) as [sp|]; [|discriminate].
    destruct (strip_prefix (substr text sp) s) as [s'|]; [|discriminate].
    eexists _, _, _, g; split; [exact H | reflexivity].
Qed.

(** A line that matches a pattern opening with the group of a name has
    an identifier in that group. *)
Lemma leading_name_group (rest_pat : regex) (line : str) (m : rmatch_obj) :
  sets_group 1 rest_pat = false ->
  re_match (Cat (Grp 1 (Cat (Cls is_ident_start) (star is_ident_ch))) rest_pat) line
    = Some m ->
  is_identifier (group_or_empty line m 1) = true.
Proof.
  intros Hn H. unfold re_match, match_here, star in H. cbn [rmatch] in H.
  destruct line as [|c s]; [discriminate|].
  destruct (is_ident_start c) eqn:Hc; [|discriminate].
  apply rep_match_inv_taken in H. destruct H as (taken & rest & pv' & Hs & Hp & H).
  eapply rmatch_caps_frame in H; [|exact Hn].
  destruct H as (i' & pv'' & s' & g' & H & Hg).
  injection H as <-. unfold group_or_empty, group. cbn [m_caps].
  rewrite Hg. unfold set_cap. cbn [get_cap Nat.eqb option_map].
  unfold substr. cbn [fst snd skipn]. rewrite Nat.sub_0_r. cbn [Nat.add firstn].
  rewrite Hs, firstn_app, firstn_all, Nat.sub_diag. cbn [firstn]. rewrite app_nil_r.
  cbn [is_identifier]. now rewrite Hc, Hp.
Qed.

(** Every name [extract_env_kv] returns is an identifier, and no name
    comes twice. *)
Theorem extract_env_kv_names (env_body : str) :
  forallb is_identifier (dict_keys (extract_env_kv env_body)) = true /\
  NoDup (dict_keys (extract_env_kv env_body)).
Proof.
  unfold extract_env_kv.
  assert (Hfold : forall lines env,
    forallb is_identifier (dict_keys env) = true /\ NoDup (dict_keys env) ->
    let out :=
      fold_left
        (fun env line =>
           let line := strip line in
           if negb (nonempty line) || startswith (txt "#") line then env
           else
             match re_match re_env_line line with
             | Some m =>
               let key := group_or_empty line m 1 in
               let val := strip (group_or_empty line m 2) in
               dict_set key (unquote val) env
             | None => env
             end) lines env in
    forallb is_identifier (dict_keys out) = true /\ NoDup (dict_keys out)).
  { induction lines as [|line lines IH]; intros env Henv; [exact Henv|].
    cbn [fold_left]. apply IH. cbv zeta.
    destruct (negb (nonempty (strip line)) || startswith (txt "#") (strip line));
      [exact Henv|].
    destruct (re_match re_env_line (strip line)) as [m|] eqn:Em; [|exact Henv].
    destruct Henv as [Hid Hnd]. split; [|now apply dict_set_NoDup].
    rewrite dict_keys_set. destruct (dict_mem _ env); [exact Hid|].
    rewrite forallb_app, Hid. cbn [forallb andb]. rewrite andb_true_r.
    eapply leading_name_group; [|exact Em]. reflexivity. }
  apply Hfold. split; [reflexivity | constructor].
Qed.

(** Without distinct job ids the jobs and the actions part ways: the
    stages [Build] and [Build!] share the id [build], so the job [test]
    runs the action of [Build!], and the action of [Test] is run by no
    job. *)
Lemma colliding_ids_misalign_actions :
  uses_view (convert_jenkins_to_gha (fun label : str => label) colliding_stage_names) =
  [(txt "build", [Some (txt "actions/checkout@v4"); Some (txt "./.github/actions/build")]);
   (txt "test", [Some (txt "actions/checkout@v4"); Some (txt "./.github/actions/build_")])].
Proof. vm_compute. reflexivity. Qed.
